(** * pelmen4iki: the circle packer of [src/utils/geometry.ts]

    A shallow embedding of the polygon primitives ([isPointInPolygon],
    [distanceToPolygonEdge], [calculatePolygonArea], [getBoundingBox]) and of
    the hexagonal packing search ([optimizeCircles]).

    The TypeScript source computes with the JavaScript [number] type.  The
    embedding is written once, over the interface [JSNumber] of the
    operations the source applies to numbers, and is then read in two number
    systems:

    - [Binary64]: IEEE 754 double precision, the kernel's primitive floats,
      which is what a JavaScript engine runs.  Everything is executable.
    - [Exact]: the real numbers extended with [+Infinity], [-Infinity] and
      [NaN], where no operation rounds or overflows.

    The handlers of [App.tsx] and of [components/DoughCanvas.tsx] that call
    these functions are embedded in the module [App], as functions on the
    state of the application and as the events of its page.

    The module [Heap] reads [optimizeCircles] once more with its arrays in
    a heap, references and [push] in place included, and the search on
    lists is proved to be what it computes. *)

From Stdlib Require Import ZArith List Bool String Ascii Lia.
From Stdlib Require Import Floats Uint63 DecimalString.
From Stdlib Require Import Reals Lra.
From Stdlib Require DecimalZ DecimalPos.
Import ListNotations.

Set Implicit Arguments.

(** ** The operations of a JavaScript number *)

Class JSNumber (num : Type) : Type := {
  lit : Z -> num;                   (* an integer literal of the source *)
  Infinity : num;
  PI : num;                         (* Math.PI *)
  add : num -> num -> num;          (* a + b *)
  sub : num -> num -> num;          (* a - b *)
  mul : num -> num -> num;          (* a * b *)
  div : num -> num -> num;          (* a / b *)
  rem : num -> num -> num;          (* a % b *)
  sqr : num -> num;                 (* a ** 2 *)
  neg : num -> num;                 (* -a *)
  ltb : num -> num -> bool;         (* a < b *)
  leb : num -> num -> bool;         (* a <= b *)
  eqb : num -> num -> bool;         (* a === b *)
  min : num -> num -> num;          (* Math.min(a, b) *)
  max : num -> num -> num;          (* Math.max(a, b) *)
  sqrt : num -> num;                (* Math.sqrt *)
  abs : num -> num;                 (* Math.abs *)
  ceil : num -> num;                (* Math.ceil *)
  cos : num -> num;                 (* Math.cos *)
  sin : num -> num;                 (* Math.sin *)
  toString : num -> string          (* the conversion of a template literal *)
}.

Declare Scope js_scope.
Delimit Scope js_scope with js.
Notation "a + b" := (add a b) : js_scope.
Notation "a - b" := (sub a b) : js_scope.
Notation "a * b" := (mul a b) : js_scope.
Notation "a / b" := (div a b) : js_scope.
Notation "a % b" := (rem a b) (at level 40, left associativity) : js_scope.
Notation "- a" := (neg a) : js_scope.
Notation "a <? b" := (ltb a b) (at level 70, no associativity) : js_scope.
Notation "a <=? b" := (leb a b) (at level 70, no associativity) : js_scope.
Notation "a >? b" := (ltb b a) (at level 70, no associativity) : js_scope.
Notation "a >=? b" := (leb b a) (at level 70, no associativity) : js_scope.
Notation "a === b" := (eqb a b) (at level 70, no associativity) : js_scope.
Notation "# z" := (lit z%Z) (at level 1, format "# z") : js_scope.

(** ** The source, over any number system *)

Section Geometry.

Context {num : Type} {JSN : JSNumber num}.
Local Open Scope js_scope.

(** [interface Point] and [interface Circle] of the source; the fields of
    a circle are prefixed, the two records sharing their names. *)
Record Point : Type := mkPoint { x : num; y : num }.

Record Circle : Type := mkCircle {
  circle_x : num;
  circle_y : num;
  circle_r : num;
  circle_id : string
}.

(** The body of the ray-casting loop: [xi, yi] are the coordinates of
    [polygon[i]], [xj, yj] those of [polygon[j]]; [!==] between two
    booleans is the exclusive or. *)
Definition intersect (point pi pj : Point) : bool :=
  let xi := x pi in let yi := y pi in
  let xj := x pj in let yj := y pj in
  xorb (yi >? y point) (yj >? y point)
  && (x point <? (xj - xi) * (y point - yi) / (yj - yi) + xi).

(** [for (let i = 0, j = polygon.length - 1; i < polygon.length; j = i++)]:
    [rest] is what is left of the polygon from index [i] on and [pj] is
    [polygon[j]], the vertex before it (the last one when [i = 0]). *)
Fixpoint isPointInPolygon_loop (point : Point) (rest : list Point)
    (pj : Point) (inside : bool) : bool :=
  match rest with
  | [] => inside
  | pi :: rest' =>
      isPointInPolygon_loop point rest' pi
        (if intersect point pi pj then negb inside else inside)
  end.

Definition isPointInPolygon (point : Point) (polygon : list Point) : bool :=
  match polygon with
  | [] => false
  | p0 :: _ => isPointInPolygon_loop point polygon (last polygon p0) false
  end.

Definition dist2 (v w : Point) : num :=
  sqr (x v - x w) + sqr (y v - y w).

Definition distanceToSegment (p v w : Point) : num :=
  let l2 := dist2 v w in
  if l2 === #0 then sqrt (dist2 p v)
  else
    let t := ((x p - x v) * (x w - x v) + (y p - y v) * (y w - y v)) / l2 in
    let t := max #0 (min #1 t) in
    let projection :=
      {| x := x v + t * (x w - x v); y := y v + t * (y w - y v) |} in
    sqrt (dist2 p projection).

(** [polygon[i]] for an index the loops keep below [polygon.length]; the
    default is never reached. *)
Definition vertex (polygon : list Point) (i : nat) : Point :=
  nth i polygon {| x := #0; y := #0 |}.

Definition distanceToPolygonEdge (point : Point) (polygon : list Point) : num :=
  let n := List.length polygon in
  fold_left
    (fun minDistance i =>
       let p1 := vertex polygon i in
       let p2 := vertex polygon ((i + 1) mod n) in
       min minDistance (distanceToSegment point p1 p2))
    (seq 0 n) Infinity.

Definition calculatePolygonArea (polygon : list Point) : num :=
  let n := List.length polygon in
  let area :=
    fold_left
      (fun area i =>
         let j := ((i + 1) mod n)%nat in
         let area := area + x (vertex polygon i) * y (vertex polygon j) in
         area - x (vertex polygon j) * y (vertex polygon i))
      (seq 0 n) #0 in
  abs (area / #2).

Record BoundingBox : Type := mkBox {
  minX : num; minY : num; maxX : num; maxY : num
}.

Definition getBoundingBox (polygon : list Point) : BoundingBox :=
  fold_left
    (fun b p =>
       {| minX := min (minX b) (x p); minY := min (minY b) (y p);
          maxX := max (maxX b) (x p); maxY := max (maxY b) (y p) |})
    polygon
    {| minX := Infinity; minY := Infinity;
       maxX := - Infinity; maxY := - Infinity |}.

(** *** The packing search *)

(** [for (let v = init; v <= bound; v++) body]: the counter is a number,
    compared and incremented as the source does; [fuel] bounds the number of
    iterations and [None] is a loop that has not finished within it. *)
Fixpoint forUpTo {S : Type} (fuel : nat) (bound : num)
    (body : num -> S -> option S) (v : num) (s : S) : option S :=
  match fuel with
  | O => None
  | Datatypes.S fuel' =>
      if v <=? bound then
        match body v s with
        | Some s' => forUpTo fuel' bound body (v + #1) s'
        | None => None
        end
      else Some s
  end.

(** The un-rotated position of the lattice cell [(row, col)]. *)
Definition hexX (d offX row col : num) : num :=
  col * d + (row % #2) * (d / #2) + offX.

Definition hexY (rowHeight offY row : num) : num :=
  row * rowHeight + offY.

(** What one lattice search works with: the constants [optimizeCircles]
    computes before its innermost loops. *)
Record Lattice : Type := mkLattice {
  lat_angle : num;
  lat_cos : num; lat_sin : num;
  lat_d : num; lat_rowHeight : num;
  lat_centerX : num; lat_centerY : num;
  lat_offX : num; lat_offY : num
}.

Definition rotated (L : Lattice) (row col : num) : Point :=
  let hx := hexX (lat_d L) (lat_offX L) row col in
  let hy := hexY (lat_rowHeight L) (lat_offY L) row in
  {| x := (hx * lat_cos L - hy * lat_sin L) + lat_centerX L;
     y := (hx * lat_sin L + hy * lat_cos L) + lat_centerY L |}.

(** 1. Coarse check: Bounding box (true when the candidate is skipped). *)
Definition outsideBounds (bounds : BoundingBox) (r : num) (p : Point) : bool :=
  (x p <? minX bounds - r) || (x p >? maxX bounds + r)
  || (y p <? minY bounds - r) || (y p >? maxY bounds + r).

(** 2. Strict check: Inside polygon AND not clipping edges. *)
Definition strictCheck (polygon : list Point) (r : num) (p : Point) : bool :=
  isPointInPolygon p polygon && (distanceToPolygonEdge p polygon >=? r).

Definition circleId (angle row col : num) : string :=
  (toString angle ++ "-" ++ toString row ++ "-" ++ toString col)%string.

(** The circle pushed for an accepted cell, and the centre of a circle. *)
Definition circleAt (radius : num) (L : Lattice) (row col : num) : Circle :=
  let p := rotated L row col in
  {| circle_x := x p; circle_y := y p; circle_r := radius;
     circle_id := circleId (lat_angle L) row col |}.

Definition center (c : Circle) : Point :=
  {| x := circle_x c; y := circle_y c |}.

(** The body of the innermost loop; [coarse] tells whether the coarse
    check is made (it is in the source: [optimizeCircles] passes [true]). *)
Definition cell (coarse : bool) (polygon : list Point) (bounds : BoundingBox)
    (radius : num) (L : Lattice) (row col : num)
    (candidates : list Circle) : list Circle :=
  let p := rotated L row col in
  if coarse && outsideBounds bounds radius p then candidates
  else if strictCheck polygon radius p then
    candidates ++ [circleAt radius L row col]
  else candidates.

(** The two loops over [row] and [col] for one angle and one offset. *)
Definition lattice (fuel : nat) (coarse : bool) (polygon : list Point)
    (bounds : BoundingBox) (radius steps : num) (L : Lattice)
    : option (list Circle) :=
  forUpTo fuel steps
    (fun row candidates =>
       forUpTo fuel steps
         (fun col candidates =>
            Some (cell coarse polygon bounds radius L row col candidates))
         (- steps) candidates)
    (- steps) [].

(** The state the search carries across its configurations. *)
Record Best : Type := mkBest { maxCount : nat; bestResult : list Circle }.

Definition keepBest (candidates : list Circle) (b : Best) : Best :=
  if (maxCount b <? List.length candidates)%nat
  then {| maxCount := List.length candidates; bestResult := candidates |}
  else b.

(** [for (const x of xs) body], a body that may not finish. *)
Fixpoint forOf {A S : Type} (xs : list A) (body : A -> S -> option S)
    (s : S) : option S :=
  match xs with
  | [] => Some s
  | a :: xs' =>
      match body a s with
      | Some s' => forOf xs' body s'
      | None => None
      end
  end.

Definition angles : list num := [#0; #15; #30; #45; #60].

(** [steps]: how far the row and column indices run, either way. *)
Definition stepsOf (bounds : BoundingBox) (d : num) : num :=
  let width := maxX bounds - minX bounds in
  let height := maxY bounds - minY bounds in
  let diagonal := sqrt (width * width + height * height) in
  ceil (diagonal / d) + #2.

(** The constants of the lattice for one angle and one pair of offsets:
    the grid is rotated by [angle] degrees about the centre of the
    bounding box. *)
Definition latticeAt (bounds : BoundingBox) (d rowHeight angle offX offY : num)
    : Lattice :=
  let rad := angle * (PI / #180) in
  let centerX := (minX bounds + maxX bounds) / #2 in
  let centerY := (minY bounds + maxY bounds) / #2 in
  {| lat_angle := angle;
     lat_cos := cos rad; lat_sin := sin rad;
     lat_d := d; lat_rowHeight := rowHeight;
     lat_centerX := centerX; lat_centerY := centerY;
     lat_offX := offX; lat_offY := offY |}.

(** One configuration of the search: the lattice of an angle and a pair of
    offsets is enumerated, and its candidates replace the best list so far
    when they are strictly more. *)
Definition tryLattice (fuel : nat) (coarse : bool) (polygon : list Point)
    (bounds : BoundingBox) (r d rowHeight angle offX offY : num) (best : Best)
    : option Best :=
  match
    lattice fuel coarse polygon bounds r (stepsOf bounds d)
      (latticeAt bounds d rowHeight angle offX offY)
  with
  | Some candidates => Some (keepBest candidates best)
  | None => None
  end.

(** The sweep over the angles and the offsets.  The source also computes
    [offsets], [u], [v] and [bestCircles], which it never reads; they are
    left out. *)
Definition sweep (fuel : nat) (coarse : bool) (polygon : list Point)
    (radius spacing : num) : option Best :=
  let bounds := getBoundingBox polygon in
  let r := radius in
  let d := (r * #2) + spacing in
  let rowHeight := d * sqrt #3 / #2 in
  forOf angles
    (fun angle best =>
       forOf [#0; d / #2]
         (fun offX best =>
            forOf [#0; rowHeight / #2]
              (fun offY best =>
                 tryLattice fuel coarse polygon bounds r d rowHeight
                   angle offX offY best)
              best)
         best)
    {| maxCount := 0; bestResult := [] |}.

(** The search, with the coarse check switched by [coarse]: what is
    returned is [bestResult]. *)
Definition search (fuel : nat) (coarse : bool) (polygon : list Point)
    (radius spacing : num) : option (list Circle) :=
  match sweep fuel coarse polygon radius spacing with
  | Some best => Some (bestResult best)
  | None => None
  end.

Definition optimizeCircles (fuel : nat) (polygon : list Point)
    (radius spacing : num) : option (list Circle) :=
  search fuel true polygon radius spacing.

(** *** What the claims speak of *)

(** The Euclidean distance between the centres of two circles, with the
    source's own [dist2]. *)
Definition centerDistance (c1 c2 : Circle) : num :=
  sqrt (dist2 (center c1) (center c2)).

(** Any two circles at different places of the list are at least [bound]
    apart. *)
Definition separated (bound : num) (l : list Circle) : Prop :=
  forall i j ci cj, i <> j ->
    nth_error l i = Some ci -> nth_error l j = Some cj ->
    (bound <=? centerDistance ci cj) = true.

(** The lattice position as the specification words it, to be compared
    with [hexX]: [row mod 2] is the residue of [row], 0 for an even row and
    1 for an odd one, negative rows included. *)
Definition hexX_spec (d offX : num) (row col : Z) : num :=
  #col * d + #(row mod 2) * (d / #2) + offX.

End Geometry.

Arguments Point num : clear implicits.
Arguments Circle num : clear implicits.
Arguments BoundingBox num : clear implicits.
Arguments Lattice num : clear implicits.
Arguments Best num : clear implicits.

(** ** The search on the heap *)

(** [optimizeCircles] is handed a reference to the array of the polygon
    and hands back a reference to an array of circles.  Here the source
    is read once more with the arrays where the engine keeps them: in a
    heap the invocation shares with whatever else runs, so that what an
    invocation reads, what it writes and what it leaves alone is there
    to be stated.  The numbers, the records and the loops are those of
    the section above. *)
Module Heap.

Section Heap.

Context {num : Type} {JSN : JSNumber num}.
Local Open Scope js_scope.

(** Whatever else the engine holds: the variables of other modules, the
    state of [Math.random], the clock. *)
Variable Other : Type.

(** The objects of the heap are the arrays: the function assigns to no
    field of a point or of a circle, which are kept as values in the
    arrays that hold them. *)
Inductive Obj : Type :=
| Points (l : list (Point num))      (* a [Point[]] *)
| Circles (l : list (Circle num))    (* a [Circle[]] *)
| Foreign (o : Other).

(** A reference is the place of an object in the heap; a new object is
    put at the end. *)
Definition Ref : Type := nat.
Definition Store : Type := list Obj.

Fixpoint update (a : Ref) (o : Obj) (h : Store) : Store :=
  match h, a with
  | [], _ => []
  | _ :: h', O => o :: h'
  | b :: h', Datatypes.S a' => b :: update a' o h'
  end.

(** The array literal [[]] of a [Circle[]]. *)
Definition alloc (h : Store) : Ref * Store :=
  (List.length h, h ++ [Circles []]).

(** [polygon[i]], [polygon.length] and [for (const p of polygon)]: the
    vertices the array holds when it is read.  [None] is a reference that
    holds no array of points. *)
Definition readPoints (polygon : Ref) (h : Store) : option (list (Point num)) :=
  match nth_error h polygon with
  | Some (Points l) => Some l
  | _ => None
  end.

(** [candidates.length]. *)
Definition readCircles (a : Ref) (h : Store) : option (list (Circle num)) :=
  match nth_error h a with
  | Some (Circles l) => Some l
  | _ => None
  end.

(** [candidates.push(c)]: the array is changed in place. *)
Definition push (a : Ref) (c : Circle num) (h : Store) : option Store :=
  match readCircles a h with
  | Some l => Some (update a (Circles (l ++ [c])) h)
  | None => None
  end.

(** The body of the innermost loop: the coarse check, then the two strict
    checks, which read the polygon from the heap, then the push. *)
Definition cell (polygon candidates : Ref) (bounds : BoundingBox num)
    (radius : num) (L : Lattice num) (row col : num) (h : Store)
    : option Store :=
  let p := rotated L row col in
  if outsideBounds bounds radius p then Some h
  else
    match readPoints polygon h with
    | Some pol =>
        if isPointInPolygon p pol then
          if distanceToPolygonEdge p pol >=? radius then
            push candidates (circleAt radius L row col) h
          else Some h
        else Some h
    | None => None
    end.

Definition lattice (fuel : nat) (polygon candidates : Ref)
    (bounds : BoundingBox num) (radius steps : num) (L : Lattice num)
    (h : Store) : option Store :=
  forUpTo fuel steps
    (fun row h =>
       forUpTo fuel steps
         (fun col h => cell polygon candidates bounds radius L row col h)
         (- steps) h)
    (- steps) h.

(** The heap and the two variables the search assigns: [maxCount] and
    [bestResult], a reference. *)
Record Frame : Type := mkFrame {
  heap : Store;
  maxCount : nat;
  bestResult : Ref
}.

(** One configuration: [candidates] is a new array; when it ends up
    longer than [maxCount], [bestResult] is made to refer to it. *)
Definition tryLattice (fuel : nat) (polygon : Ref) (bounds : BoundingBox num)
    (r d rowHeight angle offX offY : num) (s : Frame) : option Frame :=
  let (candidates, h) := alloc (heap s) in
  match
    lattice fuel polygon candidates bounds r (stepsOf bounds d)
      (latticeAt bounds d rowHeight angle offX offY) h
  with
  | Some h' =>
      match readCircles candidates h' with
      | Some l =>
          if (maxCount s <? List.length l)%nat
          then Some {| heap := h'; maxCount := List.length l;
                       bestResult := candidates |}
          else Some {| heap := h'; maxCount := maxCount s;
                       bestResult := bestResult s |}
      | None => None
      end
  | None => None
  end.

(** [optimizeCircles(polygon, radius, spacing)] in a heap: the reference
    returned and the heap the invocation leaves.  [bestCircles] is
    allocated and never used; the arrays of numbers ([angles], [offsets],
    the offsets of the loops) and the records [u], [v] and [p] are values
    nothing assigns to, and stay out of the heap. *)
Definition optimizeCircles (fuel : nat) (polygon : Ref) (radius spacing : num)
    (h : Store) : option (Ref * Store) :=
  match readPoints polygon h with
  | Some pol =>
      let bounds := getBoundingBox pol in
      let (bestCircles, h) := alloc h in
      let r := radius in
      let d := (r * #2) + spacing in
      let rowHeight := d * sqrt #3 / #2 in
      let (bestResult0, h) := alloc h in
      match
        forOf angles
          (fun angle s =>
             forOf [#0; d / #2]
               (fun offX s =>
                  forOf [#0; rowHeight / #2]
                    (fun offY s =>
                       tryLattice fuel polygon bounds r d rowHeight
                         angle offX offY s)
                    s)
               s)
          {| heap := h; maxCount := 0; bestResult := bestResult0 |}
      with
      | Some s => Some (bestResult s, heap s)
      | None => None
      end
  | None => None
  end.

(** An invocation leaves in place what the heap held before it. *)
Definition untouched (h h' : Store) : Prop :=
  forall a, (a < List.length h)%nat -> nth_error h' a = nth_error h a.

End Heap.

Arguments Obj num Other : clear implicits.
Arguments Points {num Other} l.
Arguments Circles {num Other} l.
Arguments Foreign {num Other} o.
Arguments Store num Other : clear implicits.
Arguments Frame num Other : clear implicits.

End Heap.

Section HeapStatements.

Context {num : Type} {JSN : JSNumber num}.
Variable Other : Type.

(** What the variables of the search on the heap and those of the search
    on lists have in common, in a heap that started as [h]. *)
Definition agree (h : Heap.Store num Other) (polygon : Heap.Ref) (pol : list (Point num))
    (s : Heap.Frame num Other) (b : Best num) : Prop :=
  Heap.readPoints polygon (Heap.heap s) = Some pol
  /\ Heap.untouched h (Heap.heap s)
  /\ Heap.maxCount s = maxCount b
  /\ Heap.readCircles (Heap.bestResult s) (Heap.heap s) = Some (bestResult b)
  /\ (List.length h <= Heap.bestResult s)%nat
  /\ (List.length h <= List.length (Heap.heap s))%nat.

End HeapStatements.

(** ** The application: [App.tsx] and [components/DoughCanvas.tsx] *)

(** [enum AppMode]. *)
Inductive AppMode : Set := DRAWING | CLOSED | OPTIMIZING | DONE.

Definition AppMode_eqb (a b : AppMode) : bool :=
  match a, b with
  | DRAWING, DRAWING | CLOSED, CLOSED | OPTIMIZING, OPTIMIZING | DONE, DONE => true
  | _, _ => false
  end.

Module App.

Section App.

Context {num : Type} {JSN : JSNumber num}.
Local Open Scope js_scope.

(** What [JSON.parse] makes of the text of a recipe is left to the
    library: [Json] is the type of its values, [JSON_parse] is [None] when
    it throws, [truthy] is the test of [!!recipe] and [errorRecipe] the
    object [{ error: "Could not retrieve recipe." }]. *)
Variable Json : Type.
Variable JSON_parse : string -> option Json.
Variable truthy : Json -> bool.
Variable errorRecipe : Json.

(** [interface DoughStats]. *)
Record DoughStats : Type := mkStats {
  area : num; pelmeniCount : num; efficiency : num
}.

(** The state of [App]: one field for each [useState]. *)
Record State : Type := mkState {
  mode : AppMode;
  points : list (Point num);
  circles : list (Circle num);
  pelmeniDiameter : num;
  recipe : option Json;
  loadingRecipe : bool
}.

Definition initial : State :=
  {| mode := DRAWING; points := []; circles := []; pelmeniDiameter := #35;
     recipe := None; loadingRecipe := false |}.

Definition setMode (m : AppMode) (st : State) : State :=
  {| mode := m; points := points st; circles := circles st;
     pelmeniDiameter := pelmeniDiameter st; recipe := recipe st;
     loadingRecipe := loadingRecipe st |}.

Definition setPoints (ps : list (Point num)) (st : State) : State :=
  {| mode := mode st; points := ps; circles := circles st;
     pelmeniDiameter := pelmeniDiameter st; recipe := recipe st;
     loadingRecipe := loadingRecipe st |}.

Definition setCircles (cs : list (Circle num)) (st : State) : State :=
  {| mode := mode st; points := points st; circles := cs;
     pelmeniDiameter := pelmeniDiameter st; recipe := recipe st;
     loadingRecipe := loadingRecipe st |}.

Definition setPelmeniDiameter (v : num) (st : State) : State :=
  {| mode := mode st; points := points st; circles := circles st;
     pelmeniDiameter := v; recipe := recipe st;
     loadingRecipe := loadingRecipe st |}.

Definition setRecipe (r : option Json) (st : State) : State :=
  {| mode := mode st; points := points st; circles := circles st;
     pelmeniDiameter := pelmeniDiameter st; recipe := r;
     loadingRecipe := loadingRecipe st |}.

Definition setLoadingRecipe (b : bool) (st : State) : State :=
  {| mode := mode st; points := points st; circles := circles st;
     pelmeniDiameter := pelmeniDiameter st; recipe := recipe st;
     loadingRecipe := b |}.

(** [const radius = pelmeniDiameter / 2]. *)
Definition radius (st : State) : num := pelmeniDiameter st / #2.

Definition handleAddPoint (p : Point num) (st : State) : State :=
  setPoints (points st ++ [p]) st.

Definition handleClosePolygon (st : State) : State := setMode CLOSED st.

Definition handleClear (st : State) : State :=
  setRecipe None (setMode DRAWING (setCircles [] (setPoints [] st))).

(** [handleOptimize]: the state it leaves and the callback it hands to
    [setTimeout], which is the polygon and the radius its closure holds;
    nothing is scheduled below three points. *)
Definition handleOptimize (st : State)
    : State * option (list (Point num) * num) :=
  if (List.length (points st) <? 3)%nat then (st, None)
  else (setMode OPTIMIZING st, Some (points st, radius st)).

(** The callback of [setTimeout], run on the state of the moment; [None]
    when [optimizeCircles] does not return. *)
Definition optimizeCallback (fuel : nat) (job : list (Point num) * num)
    (st : State) : option State :=
  match optimizeCircles fuel (fst job) (snd job) #2 with
  | Some result => Some (setMode DONE (setCircles result st))
  | None => None
  end.

(** [handleGetRecipe] up to its [await]: the state, and whether
    [fetchPelmeniRecipe] was called. *)
Definition handleGetRecipe (st : State) : State * bool :=
  match circles st with
  | [] => (st, false)
  | _ :: _ => (setLoadingRecipe true st, true)
  end.

(** [handleGetRecipe] from its [await] on, [jsonStr] being the string
    [fetchPelmeniRecipe] resolved to. *)
Definition recipeArrived (jsonStr : string) (st : State) : State :=
  setLoadingRecipe false
    (match JSON_parse jsonStr with
     | Some data => setRecipe (Some data) st
     | None => setRecipe (Some errorRecipe) st
     end).

(** [const stats = useMemo(...)]. *)
Definition stats (st : State) : DoughStats :=
  if (List.length (points st) <? 3)%nat then
    {| area := #0; pelmeniCount := #0; efficiency := #0 |}
  else
    let area := calculatePolygonArea (points st) in
    let count := #(Z.of_nat (List.length (circles st))) in
    let circleArea := PI * radius st * radius st * count in
    {| area := area; pelmeniCount := count;
       efficiency := if area >? #0 then (circleArea / area) * #100 else #0 |}.

(** *** [DoughCanvas] *)

(** [handleMouseMove]: the new [cursorPos]. *)
Definition handleMouseMove (clientX clientY rectLeft rectTop : num) : Point num :=
  {| x := clientX - rectLeft; y := clientY - rectTop |}.

(** The distance [handleClick] takes from the cursor to the first point;
    [Math.pow(a, 2)] is [a ** 2]. *)
Definition startDistance (cursorPos start : Point num) : num :=
  sqrt (sqr (x cursorPos - x start) + sqr (y cursorPos - y start)).

(** [handleClick], with the two callbacks [App] passes. *)
Definition handleClick (cursorPos : option (Point num)) (st : State) : State :=
  match cursorPos with
  | Some c =>
      if negb (AppMode_eqb (mode st) DRAWING) then st
      else if (2 <? List.length (points st))%nat
              && (startDistance c (vertex (points st) 0) <? #20)
      then handleClosePolygon st
      else handleAddPoint c st
  | None => st
  end.

(** *** The page *)

(** The page: the state of [App], the cursor of the canvas, the callbacks
    [setTimeout] holds, oldest first, and the number of calls of
    [fetchPelmeniRecipe] that have not resolved. *)
Record Page : Type := mkPage {
  app : State;
  cursorPos : option (Point num);
  timeouts : list (list (Point num) * num);
  requests : nat
}.

Definition start : Page :=
  {| app := initial; cursorPos := None; timeouts := []; requests := 0 |}.

Definition withApp (st : State) (pg : Page) : Page :=
  {| app := st; cursorPos := cursorPos pg; timeouts := timeouts pg;
     requests := requests pg |}.

(** What can happen to the page. *)
Inductive Event : Type :=
| MouseMove (clientX clientY rectLeft rectTop : num)
| Click
| Slide (value : num)
| PressOptimize
| PressGetRecipe
| PressReset
| PressClear
| TimeoutFires
| RecipeArrives (jsonStr : string).

(** The conditions under which the controls are rendered and enabled. *)
Definition sliderDisabled (st : State) : bool := AppMode_eqb (mode st) DONE.

Definition optimizeShown (st : State) : bool := AppMode_eqb (mode st) CLOSED.

Definition doneShown (st : State) : bool := AppMode_eqb (mode st) DONE.

Definition recipeDisabled (st : State) : bool :=
  loadingRecipe st
  || match recipe st with Some r => truthy r | None => false end.

Definition clearShown (st : State) : bool :=
  negb (AppMode_eqb (mode st) DONE) && negb (AppMode_eqb (mode st) CLOSED)
  && (0 <? List.length (points st))%nat.

(** One event; a control that is not there does nothing.  [None] is a
    timeout callback in which [optimizeCircles] does not return. *)
Definition step (fuel : nat) (e : Event) (pg : Page) : option Page :=
  let st := app pg in
  match e with
  | MouseMove cx cy rectLeft rectTop =>
      Some {| app := st; cursorPos := Some (handleMouseMove cx cy rectLeft rectTop);
              timeouts := timeouts pg; requests := requests pg |}
  | Click => Some (withApp (handleClick (cursorPos pg) st) pg)
  | Slide v =>
      if sliderDisabled st then Some pg
      else Some (withApp (setPelmeniDiameter v st) pg)
  | PressOptimize =>
      if optimizeShown st then
        let (st', job) := handleOptimize st in
        Some {| app := st'; cursorPos := cursorPos pg;
                timeouts := timeouts pg
                            ++ match job with Some j => [j] | None => [] end;
                requests := requests pg |}
      else Some pg
  | PressGetRecipe =>
      if doneShown st && negb (recipeDisabled st) then
        let (st', called) := handleGetRecipe st in
        Some {| app := st'; cursorPos := cursorPos pg;
                timeouts := timeouts pg;
                requests := if called then S (requests pg) else requests pg |}
      else Some pg
  | PressReset =>
      if doneShown st then Some (withApp (handleClear st) pg) else Some pg
  | PressClear =>
      if clearShown st then Some (withApp (handleClear st) pg) else Some pg
  | TimeoutFires =>
      match timeouts pg with
      | [] => Some pg
      | job :: rest =>
          match optimizeCallback fuel job st with
          | Some st' =>
              Some {| app := st'; cursorPos := cursorPos pg;
                      timeouts := rest; requests := requests pg |}
          | None => None
          end
      end
  | RecipeArrives jsonStr =>
      match requests pg with
      | O => Some pg
      | S n =>
          Some {| app := recipeArrived jsonStr st; cursorPos := cursorPos pg;
                  timeouts := timeouts pg; requests := n |}
      end
  end.

(** A sequence of events from a page. *)
Fixpoint run (fuel : nat) (es : list Event) (pg : Page) : option Page :=
  match es with
  | [] => Some pg
  | e :: es' =>
      match step fuel e pg with
      | Some pg' => run fuel es' pg'
      | None => None
      end
  end.

(** The pages the application can be brought to. *)
Definition reachable (pg : Page) : Prop :=
  exists fuel es, run fuel es start = Some pg.

End App.

End App.

Arguments App.DoughStats num : clear implicits.
Arguments App.State num Json : clear implicits.
Arguments App.Page num Json : clear implicits.
Arguments App.Event num : clear implicits.


(** ** IEEE 754 double precision *)

Module Binary64.

Local Open Scope float_scope.

(** An integer literal: exact up to [2^53]. *)
Definition of_Z (z : Z) : float :=
  match z with
  | Z0 => 0
  | Zpos _ => of_uint63 (Uint63.of_Z z)
  | Zneg p => - of_uint63 (Uint63.of_Z (Zpos p))
  end.

(** The integer a finite float with a non-negative exponent or a zero
    fraction stands for, when it is one below [2^53] in magnitude. *)
Definition to_Z (f : float) : option Z :=
  match Prim2SF f with
  | S754_zero _ => Some 0%Z
  | S754_finite s m e =>
      let v :=
        if (0 <=? e)%Z then Some (Zpos m * 2 ^ e)%Z
        else if (Zpos m mod 2 ^ (- e) =? 0)%Z then Some (Zpos m / 2 ^ (- e))%Z
        else None in
      match v with
      | Some n => if (n <? 2 ^ 53)%Z then Some (if s then (- n)%Z else n) else None
      | None => None
      end
  | _ => None
  end.

(** [Math.ceil]: the least integer not below the argument, keeping the
    sign of a zero result. *)
Definition ceil (f : float) : float :=
  match Prim2SF f with
  | S754_finite s m e =>
      if (0 <=? e)%Z then f
      else
        let q := (Zpos m / 2 ^ (- e))%Z in
        if s then - of_Z q
        else if (Zpos m mod 2 ^ (- e) =? 0)%Z then of_Z q else of_Z (q + 1)
  | _ => f
  end.

(** [a % b]: the remainder of the division truncated towards zero; it has
    the sign of the dividend and is always representable. *)
Definition rem (a b : float) : float :=
  match Prim2SF a, Prim2SF b with
  | S754_nan, _ | _, S754_nan => nan
  | S754_infinity _, _ => nan
  | _, S754_zero _ => nan
  | _, S754_infinity _ => a
  | S754_zero _, _ => a
  | S754_finite sa ma ea, S754_finite _ mb eb =>
      let e := Z.min ea eb in
      let A := (Zpos ma * 2 ^ (ea - e))%Z in
      let B := (Zpos mb * 2 ^ (eb - e))%Z in
      let R := (A mod B)%Z in
      SF2Prim (binary_normalize prec emax (if sa then (- R)%Z else R) e sa)
  end.

(** [Math.min] and [Math.max]: [NaN] when an argument is, and [-0] below
    [+0]. *)
Definition min (a b : float) : float :=
  if is_nan a || is_nan b then nan
  else if a <? b then a
  else if b <? a then b
  else if get_sign a then a else b.

Definition max (a b : float) : float :=
  if is_nan a || is_nan b then nan
  else if a <? b then b
  else if b <? a then a
  else if get_sign a then b else a.

(** [Math.PI]. *)
Definition PI : float := 0x1.921fb54442d18p+1.

(** [Math.cos] and [Math.sin] are implementation-approximated; the search
    applies them to five arguments only, [angle * (Math.PI / 180)] for the
    angles 0, 15, 30, 45 and 60, and these are their correctly rounded
    values there.  [cos 0 = 1] and [sin 0 = 0] are exact in every
    implementation. *)
Definition trig : list (float * (float * float)) :=
  [ (of_Z 0 * (PI / of_Z 180), (1, 0));
    (of_Z 15 * (PI / of_Z 180), (0x1.ee8dd4748bf15p-1, 0x1.0907dc193069p-2));
    (of_Z 30 * (PI / of_Z 180), (0x1.bb67ae8584cabp-1, 0x1.fffffffffffffp-2));
    (of_Z 45 * (PI / of_Z 180), (0x1.6a09e667f3bcdp-1, 0x1.6a09e667f3bccp-1));
    (of_Z 60 * (PI / of_Z 180), (0x1.0000000000001p-1, 0x1.bb67ae8584caap-1)) ].

Fixpoint lookup (a : float) (t : list (float * (float * float)))
    : float * float :=
  match t with
  | [] => (nan, nan)
  | (k, v) :: t' => if k =? a then v else lookup a t'
  end.

Definition cos (a : float) : float := fst (lookup a trig).
Definition sin (a : float) : float := snd (lookup a trig).

(** The string of a number that is an integer below [2^53] in magnitude,
    which the loop counters and the angles are; [NaN] and the infinities
    as JavaScript prints them.  Other numbers never reach a template
    literal of the source. *)
Definition toString (f : float) : string :=
  match to_Z f with
  | Some n => NilZero.string_of_int (Z.to_int n)
  | None =>
      if is_nan f then "NaN"%string
      else if f =? infinity then "Infinity"%string
      else if f =? neg_infinity then "-Infinity"%string
      else "?"%string
  end.

(** [a ** 2] is the product [a * a]. *)
Definition sqr (a : float) : float := a * a.

#[global] Instance number : JSNumber float :=
  Build_JSNumber of_Z infinity PI
    PrimFloat.add PrimFloat.sub PrimFloat.mul PrimFloat.div rem sqr
    PrimFloat.opp PrimFloat.ltb PrimFloat.leb PrimFloat.eqb min max
    PrimFloat.sqrt PrimFloat.abs ceil cos sin toString.

End Binary64.

(** ** Exact arithmetic *)

Module Exact.

Local Open Scope R_scope.

(** A number without rounding: a real, an infinity or [NaN].  Zero has no
    sign here; it divides as [+0] does. *)
Inductive ereal : Type := Fin (r : R) | PInf | NInf | NaN.

(** The infinity with the sign of [a]: what [a * Infinity] and [a / 0]
    are. *)
Definition signed_inf (a : R) : ereal :=
  if Rlt_dec 0 a then PInf else if Rlt_dec a 0 then NInf else NaN.

Definition neg (a : ereal) : ereal :=
  match a with
  | Fin a => Fin (- a)
  | PInf => NInf
  | NInf => PInf
  | NaN => NaN
  end.

Definition add (a b : ereal) : ereal :=
  match a, b with
  | NaN, _ | _, NaN => NaN
  | Fin a, Fin b => Fin (a + b)
  | PInf, NInf | NInf, PInf => NaN
  | PInf, _ | _, PInf => PInf
  | NInf, _ | _, NInf => NInf
  end.

Definition sub (a b : ereal) : ereal := add a (neg b).

Definition mul (a b : ereal) : ereal :=
  match a, b with
  | NaN, _ | _, NaN => NaN
  | Fin a, Fin b => Fin (a * b)
  | Fin a, PInf | PInf, Fin a => signed_inf a
  | Fin a, NInf | NInf, Fin a => neg (signed_inf a)
  | PInf, PInf | NInf, NInf => PInf
  | PInf, NInf | NInf, PInf => NInf
  end.

Definition div (a b : ereal) : ereal :=
  match a, b with
  | NaN, _ | _, NaN => NaN
  | Fin a, Fin b => if Req_dec_T b 0 then signed_inf a else Fin (a / b)
  | Fin _, _ => Fin 0
  | PInf, Fin b => if Rlt_dec b 0 then NInf else PInf
  | NInf, Fin b => if Rlt_dec b 0 then PInf else NInf
  | _, _ => NaN
  end.

(** The least integer not below [a], and [a] truncated towards zero. *)
Definition Zceil (a : R) : Z := (1 - up (- a))%Z.

Definition Ztrunc (a : R) : Z :=
  if Rle_dec 0 a then (up a - 1)%Z else Zceil a.

Definition rem (a b : ereal) : ereal :=
  match a, b with
  | NaN, _ | _, NaN => NaN
  | Fin a, Fin b =>
      if Req_dec_T b 0 then NaN else Fin (a - b * IZR (Ztrunc (a / b)))
  | Fin a, _ => Fin a
  | _, _ => NaN
  end.

Definition sqr (a : ereal) : ereal := mul a a.

Definition ltb (a b : ereal) : bool :=
  match a, b with
  | NaN, _ | _, NaN => false
  | Fin a, Fin b => if Rlt_dec a b then true else false
  | NInf, Fin _ | NInf, PInf | Fin _, PInf => true
  | _, _ => false
  end.

Definition leb (a b : ereal) : bool :=
  match a, b with
  | NaN, _ | _, NaN => false
  | Fin a, Fin b => if Rle_dec a b then true else false
  | NInf, _ | _, PInf => true
  | _, _ => false
  end.

Definition eqb (a b : ereal) : bool :=
  match a, b with
  | Fin a, Fin b => if Req_dec_T a b then true else false
  | PInf, PInf | NInf, NInf => true
  | _, _ => false
  end.

Definition min (a b : ereal) : ereal :=
  match a, b with
  | NaN, _ | _, NaN => NaN
  | _, _ => if ltb b a then b else a
  end.

Definition max (a b : ereal) : ereal :=
  match a, b with
  | NaN, _ | _, NaN => NaN
  | _, _ => if ltb a b then b else a
  end.

Definition sqrt (a : ereal) : ereal :=
  match a with
  | Fin a => if Rlt_dec a 0 then NaN else Fin (R_sqrt.sqrt a)
  | PInf => PInf
  | _ => NaN
  end.

Definition abs (a : ereal) : ereal :=
  match a with
  | Fin a => Fin (Rabs a)
  | PInf | NInf => PInf
  | NaN => NaN
  end.

Definition ceil (a : ereal) : ereal :=
  match a with
  | Fin a => Fin (IZR (Zceil a))
  | _ => a
  end.

Definition cos (a : ereal) : ereal :=
  match a with
  | Fin a => Fin (Rtrigo_def.cos a)
  | _ => NaN
  end.

Definition sin (a : ereal) : ereal :=
  match a with
  | Fin a => Fin (Rtrigo_def.sin a)
  | _ => NaN
  end.

(** The string of an integer; fractions never reach a template literal
    of the source. *)
Definition toString (a : ereal) : string :=
  match a with
  | Fin a =>
      if Req_dec_T a (IZR (Zceil a))
      then NilZero.string_of_int (Z.to_int (Zceil a))
      else "?"%string
  | PInf => "Infinity"%string
  | NInf => "-Infinity"%string
  | NaN => "NaN"%string
  end.

#[global] Instance number : JSNumber ereal :=
  Build_JSNumber (fun z => Fin (IZR z)) PInf (Fin Rtrigo1.PI)
    add sub mul div rem sqr neg ltb leb eqb min max
    sqrt abs ceil cos sin toString.

(** A point and a polygon with real coordinates. *)
Definition point (p : R * R) : Point ereal :=
  {| x := Fin (fst p); y := Fin (snd p) |}.

Definition polygon (ps : list (R * R)) : list (Point ereal) :=
  List.map point ps.

End Exact.

(** ** Definitions for the statements and the proofs *)

(** The vertex list started [k] places further on. *)
Definition rotate {A : Type} (k : nat) (l : list A) : list A :=
  skipn k l ++ firstn k l.

Abbreviation ereal := Exact.ereal.
Abbreviation Fin := Exact.Fin.

Section ExactDefinitions.

Local Open Scope R_scope.

(** The shoelace sum along an open path and around the closed polygon. *)
Definition cross (p q : R * R) : R := fst p * snd q - fst q * snd p.

Fixpoint path_sum (l : list (R * R)) : R :=
  match l with
  | p :: (q :: _) as l' => cross p q + path_sum l'
  | _ => 0
  end.

Definition shoelace (ps : list (R * R)) : R :=
  match ps with
  | [] => 0
  | p :: _ => path_sum (ps ++ [p])
  end.

(** A bounding box with real corners, and the step of [getBoundingBox]. *)
Definition box (a b c d : R) : BoundingBox ereal :=
  {| minX := Fin a; minY := Fin b; maxX := Fin c; maxY := Fin d |}.

Definition boxStep (b : BoundingBox ereal) (p : Point ereal) : BoundingBox ereal :=
  {| minX := min (minX b) (x p); minY := min (minY b) (y p);
     maxX := max (maxX b) (x p); maxY := max (maxY b) (y p) |}.

(** [yi > point.y] for a scanline at height [v]. *)
Definition above (v : R) (q : R * R) : bool :=
  if Rlt_dec v (snd q) then true else false.

(** The constants of a lattice when they are all real, and the cell
    [(row, col)] of that lattice in real coordinates. *)
Record grid : Type := mkGrid {
  g_cos : R; g_sin : R; g_d : R; g_h : R;
  g_cx : R; g_cy : R; g_ox : R; g_oy : R
}.

Definition gridLattice (angle : ereal) (G : grid) : Lattice ereal :=
  {| lat_angle := angle;
     lat_cos := Fin (g_cos G); lat_sin := Fin (g_sin G);
     lat_d := Fin (g_d G); lat_rowHeight := Fin (g_h G);
     lat_centerX := Fin (g_cx G); lat_centerY := Fin (g_cy G);
     lat_offX := Fin (g_ox G); lat_offY := Fin (g_oy G) |}.

Definition cellPoint (G : grid) (rc : Z * Z) : R * R :=
  let hx := IZR (snd rc) * g_d G + IZR (Z.rem (fst rc) 2) * (g_d G / 2) + g_ox G in
  let hy := IZR (fst rc) * g_h G + g_oy G in
  (hx * g_cos G - hy * g_sin G + g_cx G,
   hx * g_sin G + hy * g_cos G + g_cy G).

Definition circles (r0 angle : ereal) (G : grid) (idx : list (Z * Z))
    : list (Circle ereal) :=
  List.map
    (fun rc => circleAt r0 (gridLattice angle G)
                 (Fin (IZR (fst rc))) (Fin (IZR (snd rc))))
    idx.

End ExactDefinitions.

(** *** For the further properties *)

Section SearchStatements.

Context {num : Type} {JSN : JSNumber num}.
Local Open Scope js_scope.

(** The parity of the edges the ray of [point] crosses along the path
    that starts at [pj] and runs through [rest]. *)
Fixpoint crossings (point pj : Point num) (rest : list (Point num)) : bool :=
  match rest with
  | [] => false
  | pi :: rest' => xorb (intersect point pi pj) (crossings point pi rest')
  end.

(** The configurations [optimizeCircles] goes through: an angle and a
    pair of offsets of its three lists. *)
Definition tried (radius spacing angle offX offY : num) : Prop :=
  let d := (radius * #2) + spacing in
  let rowHeight := d * sqrt #3 / #2 in
  In angle angles /\ In offX [#0; d / #2] /\ In offY [#0; rowHeight / #2].

(** The lattice of a configuration, and the candidates the two inner
    loops of [optimizeCircles] collect for it. *)
Definition latticeOf (polygon : list (Point num))
    (radius spacing angle offX offY : num) : Lattice num :=
  let bounds := getBoundingBox polygon in
  let d := (radius * #2) + spacing in
  let rowHeight := d * sqrt #3 / #2 in
  latticeAt bounds d rowHeight angle offX offY.

Definition candidatesOf (fuel : nat) (polygon : list (Point num))
    (radius spacing angle offX offY : num) : option (list (Circle num)) :=
  let bounds := getBoundingBox polygon in
  let d := (radius * #2) + spacing in
  lattice fuel true polygon bounds radius (stepsOf bounds d)
    (latticeOf polygon radius spacing angle offX offY).

End SearchStatements.

Section ExactStatements.

Local Open Scope R_scope.

(** The Euclidean distance of two points of the plane, and the point of
    the segment from [v] to [w] at the parameter [s]. *)
Definition dist (p q : R * R) : R :=
  R_sqrt.sqrt ((fst p - fst q) * (fst p - fst q)
               + (snd p - snd q) * (snd p - snd q)).

Definition along (v w : R * R) (s : R) : R * R :=
  (fst v + s * (fst w - fst v), snd v + s * (snd w - snd v)).

(** The edge of index [i] of a polygon: from vertex [i] to the next one,
    the first after the last. *)
Definition edge (ps : list (R * R)) (i : nat) : (R * R) * (R * R) :=
  (nth i ps (0, 0), nth ((i + 1) mod List.length ps) ps (0, 0)).

Definition translate (t q : R * R) : R * R := (fst q + fst t, snd q + snd t).

(** What the loop of [distanceToPolygonEdge] holds after the edges [S]:
    nothing yet, or the least distance to a point of these edges. *)
Definition leastOver (p : R * R) (ps : list (R * R)) (S : list nat)
    (m : ereal) : Prop :=
  (m = Exact.PInf /\ S = [])
  \/ exists D,
       m = Fin D
       /\ (forall i s, In i S -> 0 <= s <= 1 ->
             D <= dist p (along (fst (edge ps i)) (snd (edge ps i)) s))
       /\ exists i t, In i S /\ 0 <= t <= 1
             /\ D = dist p (along (fst (edge ps i)) (snd (edge ps i)) t).

(** The cell [rc] of a lattice is pushed when the loops meet it. *)
Definition accepted (coarse : bool) (pol : list (Point ereal))
    (bounds : BoundingBox ereal) (r0 : ereal) (G : grid) (rc : Z * Z) : Prop :=
  coarse && outsideBounds bounds r0 (Exact.point (cellPoint G rc)) = false
  /\ strictCheck pol r0 (Exact.point (cellPoint G rc)) = true.

End ExactStatements.

(** A text in which no character is the separator of an identifier. *)
Fixpoint nodash (s : string) : Prop :=
  match s with
  | EmptyString => True
  | String c s' => c <> "-"%char /\ nodash s'
  end.


(** *** [Math.min] and [Math.max] on the format *)

(** The sign of a number of the format, and [Math.min] and [Math.max] on
    the format. *)
Definition SFsign (x : spec_float) : bool :=
  match x with
  | S754_zero s | S754_infinity s | S754_finite s _ _ => s
  | S754_nan => false
  end.

Definition SFmin (x y : spec_float) : spec_float :=
  match x, y with
  | S754_nan, _ | _, S754_nan => S754_nan
  | _, _ =>
      if SFltb x y then x else if SFltb y x then y
      else if SFsign x then x else y
  end.

Definition SFmax (x y : spec_float) : spec_float :=
  match x, y with
  | S754_nan, _ | _, S754_nan => S754_nan
  | _, _ =>
      if SFltb x y then y else if SFltb y x then x
      else if SFsign x then y else x
  end.

(** *** Integers in double precision *)

(** [p] shifted left by [j] bits. *)
Fixpoint shl (j : nat) (p : positive) : positive :=
  match j with
  | O => p
  | S j' => xO (shl j' p)
  end.

(** The double of a positive integer of at most 53 bits, as the
    specification of the format has it: the mantissa is normalised to 53
    bits. *)
Definition canon (s : bool) (p : positive) : spec_float :=
  let D := Zpos (digits2_pos p) in
  S754_finite s (shl (Z.to_nat (53 - D)) p) (D - 53)%Z.

(** [f] is the double of the integer [z]; the integer zero is either
    zero. *)
Definition isInt (f : float) (z : Z) : Prop :=
  match z with
  | Z0 => Prim2SF f = S754_zero false \/ Prim2SF f = S754_zero true
  | Zpos p => Prim2SF f = canon false p
  | Zneg p => Prim2SF f = canon true p
  end.

(** [row % 2] for an integer [row], in double precision: the remainder has
    the sign of [row], also when it is zero. *)
Definition rem2 (row : Z) : float :=
  if Z.even row then (if (row <? 0)%Z then (-0)%float else 0%float)
  else (if (row <? 0)%Z then (-1)%float else 1%float).

(** *** Inputs of the examples, in double precision *)

Module Examples.

#[local] Set Warnings "-inexact-float".
Local Open Scope float_scope.

Definition pt (a b : float) : Point float := {| x := a; y := b |}.

Definition square10 : list (Point float) :=
  [pt 0 0; pt 10 0; pt 10 10; pt 0 10].

Definition strip : list (Point float) :=
  [pt 100.3 0; pt 101.3 0; pt 101.3 0.3; pt 100.3 0.3].

Definition bigTriangle : list (Point float) :=
  [pt 0 0; pt 1000 0; pt 0 1000].

Definition segment : list (Point float) := [pt 0 0.1; pt 0.3 1.0].

Definition smallTriangle : list (Point float) :=
  [pt 0.1 0.1; pt 0.1 0.2; pt 0.3 0.7].

Definition dart : list (Point float) :=
  [pt 0 0.75; pt 0.2 1.575; pt 3.7 1.5; pt (-10.1) 2.25].

Definition sliver : list (Point float) := [pt 0.1 0.1; pt 0.1 0.9].

(** A triangle with real coordinates. *)
Definition realTriangle : list (R * R) := [(0, 0); (10, 0); (0, 10)]%R.

End Examples.

(** *** A session of the application, in double precision *)

Module Scenario.

Local Open Scope float_scope.

(** No recipe text parses, and every recipe is truthy. *)
Definition parse (_ : string) : option unit := None.
Definition isTruthy (_ : unit) : bool := true.

(** Four corners of a square of side 190, then a click next to the first
    corner. *)
Definition drawing : list (App.Event float) :=
  [ App.MouseMove 10 10 0 0; App.Click;
    App.MouseMove 200 10 0 0; App.Click;
    App.MouseMove 200 200 0 0; App.Click;
    App.MouseMove 10 200 0 0; App.Click;
    App.MouseMove 12 12 0 0; App.Click ].

(** The drawing, the optimisation and a request for the recipe. *)
Definition session : list (App.Event float) :=
  drawing ++ [App.PressOptimize; App.TimeoutFires; App.PressGetRecipe].

(** The page a sequence of events leaves. *)
Definition after (es : list (App.Event float)) : App.Page float unit :=
  match App.run parse isTruthy tt 100 es (App.start unit) with
  | Some pg => pg
  | None => App.start unit
  end.

End Scenario.


(** * Properties that hold in every number system *)

Section Generic.

Context {num : Type} {JSN : JSNumber num}.
Local Open Scope js_scope.

(** ** Loops *)

Lemma forUpTo_inv (S : Type) (I : S -> Prop) fuel bound
    (body : num -> S -> option S) v s s' :
  (forall v s s', I s -> body v s = Some s' -> I s') ->
  I s -> forUpTo fuel bound body v s = Some s' -> I s'.
Proof.
  intros Hbody. revert v s.
  induction fuel as [|fuel IH]; intros v s Hs; simpl; [discriminate|].
  destruct (v <=? bound); [|intros [= <-]; exact Hs].
  destruct (body v s) as [s1|] eqn:E; [|discriminate].
  apply IH. eapply Hbody; eauto.
Qed.

Lemma forOf_inv (A S : Type) (I : S -> Prop) (xs : list A)
    (body : A -> S -> option S) s s' :
  (forall a s s', In a xs -> I s -> body a s = Some s' -> I s') ->
  I s -> forOf xs body s = Some s' -> I s'.
Proof.
  revert s. induction xs as [|a xs IH]; intros s Hbody Hs; simpl.
  - intros [= <-]; exact Hs.
  - destruct (body a s) as [s1|] eqn:E; [|discriminate].
    apply IH.
    + intros b t t' Hb. apply Hbody. now right.
    + eapply Hbody; eauto. now left.
Qed.

Lemma forUpTo_ext (S : Type) fuel bound (body1 body2 : num -> S -> option S) :
  (forall v s, body1 v s = body2 v s) ->
  forall v s, forUpTo fuel bound body1 v s = forUpTo fuel bound body2 v s.
Proof.
  intros H. induction fuel as [|fuel IH]; intros v s; simpl; [reflexivity|].
  rewrite H. destruct (v <=? bound); [|reflexivity].
  destruct (body2 v s); [apply IH|reflexivity].
Qed.

Lemma forOf_ext (A S : Type) (xs : list A) (body1 body2 : A -> S -> option S) :
  (forall a s, body1 a s = body2 a s) ->
  forall s, forOf xs body1 s = forOf xs body2 s.
Proof.
  intros H. induction xs as [|a xs IH]; intros s; simpl; [reflexivity|].
  rewrite H. destruct (body2 a s); [apply IH|reflexivity].
Qed.

(** Two runs of a loop that both finish, with whatever fuel, finish in the
    same state when their bodies do. *)
Lemma forUpTo_agree (S : Type) bound (body1 body2 : num -> S -> option S) :
  (forall v s a b, body1 v s = Some a -> body2 v s = Some b -> a = b) ->
  forall fuel1 fuel2 v s a b,
    forUpTo fuel1 bound body1 v s = Some a ->
    forUpTo fuel2 bound body2 v s = Some b -> a = b.
Proof.
  intros H. induction fuel1 as [|fuel1 IH]; intros fuel2 v s a b; simpl;
    [discriminate|].
  destruct fuel2 as [|fuel2]; simpl; [discriminate|].
  destruct (v <=? bound); [|congruence].
  destruct (body1 v s) as [a1|] eqn:E1; [|discriminate].
  destruct (body2 v s) as [b1|] eqn:E2; [|discriminate].
  rewrite (H _ _ _ _ E1 E2). apply IH.
Qed.

Lemma forOf_agree (A S : Type) (xs : list A) (body1 body2 : A -> S -> option S) :
  (forall x s a b, body1 x s = Some a -> body2 x s = Some b -> a = b) ->
  forall s a b, forOf xs body1 s = Some a -> forOf xs body2 s = Some b -> a = b.
Proof.
  intros H. induction xs as [|x xs IH]; intros s a b; simpl; [congruence|].
  destruct (body1 x s) as [a1|] eqn:E1; [|discriminate].
  destruct (body2 x s) as [b1|] eqn:E2; [|discriminate].
  rewrite (H _ _ _ _ E1 E2). apply IH.
Qed.

(** A counter that the increment leaves where it is never gets past the
    bound. *)
Lemma forUpTo_stuck (S : Type) bound (body : num -> S -> option S) v s :
  (v <=? bound) = true -> v + #1 = v -> body v s = Some s ->
  forall fuel, forUpTo fuel bound body v s = None.
Proof.
  intros Hle Hv Hs. induction fuel as [|fuel IH]; simpl; [reflexivity|].
  now rewrite Hle, Hs, Hv.
Qed.

Lemma forUpTo_body_None (S : Type) bound (body : num -> S -> option S) v s fuel :
  (v <=? bound) = true -> body v s = None ->
  forUpTo fuel bound body v s = None.
Proof.
  intros Hle Hs. destruct fuel; simpl; [reflexivity|]. now rewrite Hle, Hs.
Qed.

(** ** The structure of a result *)

Lemma center_circleAt radius (L : Lattice num) row col :
  center (circleAt radius L row col) = rotated L row col.
Proof. reflexivity. Qed.

(** Whatever holds of the empty list and survives the push of an accepted
    cell holds of the candidates of a lattice. *)
Lemma lattice_inv (I : list (Circle num) -> Prop) fuel coarse polygon bounds
    r steps L res :
  I [] ->
  (forall row col cands,
      I cands ->
      strictCheck polygon r (rotated L row col) = true ->
      (coarse = true -> outsideBounds bounds r (rotated L row col) = false) ->
      I (cands ++ [circleAt r L row col])) ->
  lattice fuel coarse polygon bounds r steps L = Some res -> I res.
Proof.
  intros H0 Hpush. unfold lattice.
  apply forUpTo_inv; [|exact H0].
  intros row cands cands' Hc. apply forUpTo_inv; [|exact Hc].
  intros col s s' Hs [= <-]. unfold cell.
  destruct coarse; simpl.
  - destruct (outsideBounds bounds r (rotated L row col)) eqn:Eo; [exact Hs|].
    destruct (strictCheck polygon r (rotated L row col)) eqn:Es; [|exact Hs].
    apply Hpush; auto.
  - destruct (strictCheck polygon r (rotated L row col)) eqn:Es; [|exact Hs].
    apply Hpush; auto. discriminate.
Qed.

(** The result of the search is the empty list or the candidates of one of
    its lattices. *)
Lemma search_inv (I : list (Circle num) -> Prop) fuel coarse polygon
    radius spacing res :
  let bounds := getBoundingBox polygon in
  let d := radius * #2 + spacing in
  let rowHeight := d * sqrt #3 / #2 in
  I [] ->
  (forall angle offX offY cands,
      In angle angles -> In offX [#0; d / #2] ->
      In offY [#0; rowHeight / #2] ->
      lattice fuel coarse polygon bounds radius (stepsOf bounds d)
        (latticeAt bounds d rowHeight angle offX offY) = Some cands ->
      I cands) ->
  search fuel coarse polygon radius spacing = Some res -> I res.
Proof.
  intros bounds d rowHeight H0 Hlat. unfold search.
  destruct (sweep _ _ _ _ _) as [best|] eqn:E; [|discriminate].
  intros [= <-]. revert E. unfold sweep. fold bounds. fold d. fold rowHeight.
  apply (forOf_inv (fun b => I (bestResult b))); [|exact H0].
  intros angle b b' Hangle Hb.
  apply (forOf_inv (fun b => I (bestResult b))); [|exact Hb].
  intros offX b1 b1' HoffX Hb1.
  apply (forOf_inv (fun b => I (bestResult b))); [|exact Hb1].
  intros offY b2 b2' HoffY Hb2. unfold tryLattice.
  destruct (lattice _ _ _ _ _ _ _) as [cands|] eqn:El; [|discriminate].
  intros [= <-]. unfold keepBest.
  destruct (maxCount b2 <? List.length cands)%nat; simpl; [|exact Hb2].
  eapply Hlat; eauto.
Qed.

Lemma lattice_agree fuel1 fuel2 coarse polygon bounds r steps
    (L : Lattice num) a b :
  lattice fuel1 coarse polygon bounds r steps L = Some a ->
  lattice fuel2 coarse polygon bounds r steps L = Some b -> a = b.
Proof.
  unfold lattice. apply forUpTo_agree.
  intros row s a' b'. apply forUpTo_agree. congruence.
Qed.

Lemma search_agree fuel1 fuel2 coarse polygon (radius spacing : num) a b :
  search fuel1 coarse polygon radius spacing = Some a ->
  search fuel2 coarse polygon radius spacing = Some b -> a = b.
Proof.
  unfold search.
  destruct (sweep fuel1 _ _ _ _) as [b1|] eqn:E1; [|discriminate].
  destruct (sweep fuel2 _ _ _ _) as [b2|] eqn:E2; [|discriminate].
  intros [= <-] [= <-]. f_equal. revert E1 E2. unfold sweep. apply forOf_agree.
  intros angle s a' b'. apply forOf_agree.
  intros offX s1 a1 b1'. apply forOf_agree.
  intros offY s2 a2 b2'. unfold tryLattice.
  destruct (lattice fuel1 _ _ _ _ _ _) as [c1|] eqn:L1; [|discriminate].
  destruct (lattice fuel2 _ _ _ _ _ _) as [c2|] eqn:L2; [|discriminate].
  assert (c1 = c2) by (eapply lattice_agree; eauto). subst. congruence.
Qed.

(** ** Termination, lattice by lattice *)

Lemma forOf_total (A S : Type) (xs : list A) (body : A -> S -> option S) :
  (forall a s, exists s', body a s = Some s') ->
  forall s, exists s', forOf xs body s = Some s'.
Proof.
  intros H. induction xs as [|a xs IH]; intros s; simpl; [now exists s|].
  destruct (H a s) as [s1 ->]. apply IH.
Qed.

(** The search finishes when each of its lattices does. *)
Lemma search_total fuel coarse
    (pol : list (Point num)) radius spacing :
  (forall L, exists res,
      lattice fuel coarse pol (getBoundingBox pol) radius
        (stepsOf (getBoundingBox pol) (add (mul radius (lit 2)) spacing)) L
      = Some res) ->
  exists res, search fuel coarse pol radius spacing = Some res.
Proof.
  intros Hlat. unfold search.
  enough (exists b, sweep fuel coarse pol radius spacing = Some b)
    as [b ->] by (eexists; reflexivity).
  unfold sweep. apply forOf_total. intros angle b.
  apply forOf_total. intros offX b1. apply forOf_total. intros offY b2.
  unfold tryLattice.
  match goal with |- context [lattice fuel coarse pol ?bb radius _ ?L] =>
    destruct (Hlat L) as [res ->] end.
  eexists; reflexivity.
Qed.

Lemma lattice_not_entered fuel coarse
    (pol : list (Point num)) bounds r steps L :
  leb (neg steps) steps = false ->
  lattice (S fuel) coarse pol bounds r steps L = Some [].
Proof. intros H. unfold lattice. cbn [forUpTo]. now rewrite H. Qed.


End Generic.

(** * Integers *)

Section HexNorm.

Local Open Scope Z_scope.

Lemma rem2_cases (r : Z) : exists q, (r = 2 * q + Z.rem r 2) /\ (Z.rem r 2 = 0 \/ Z.rem r 2 = 1 \/ Z.rem r 2 = -1).
Proof.
  exists (r ÷ 2). split; [apply Z.quot_rem'|].
  pose proof (Z.rem_bound_abs r 2 ltac:(lia)). lia.
Qed.

Lemma hex_norm (r1 c1 r2 c2 : Z) :
  (r1, c1) <> (r2, c2) ->
  4 <= (2 * (c1 - c2) + (Z.rem r1 2 - Z.rem r2 2)) * (2 * (c1 - c2) + (Z.rem r1 2 - Z.rem r2 2))
       + 3 * ((r1 - r2) * (r1 - r2)).
Proof.
  intros Hne.
  destruct (rem2_cases r1) as (q1 & E1 & H1).
  destruct (rem2_cases r2) as (q2 & E2 & H2).
  set (k := 2 * (c1 - c2) + (Z.rem r1 2 - Z.rem r2 2)).
  set (dr := r1 - r2).
  assert (Hpar : exists m, k = dr + 2 * m).
  { exists (c1 - c2 - (q1 - q2)). unfold k, dr. lia. }
  destruct Hpar as [m Hm].
  destruct (Z.eq_dec dr 0) as [Z0|NZ].
  - assert (r1 = r2) by (unfold dr in Z0; lia). subst r2.
    assert (c1 <> c2) by (intros ->; now apply Hne).
    assert (k = 2 * (c1 - c2)) by (unfold k; lia).
    rewrite Z0. nia.
  - destruct (Z.eq_dec dr 1) as [D1|D1]; [rewrite D1 in *; nia|].
    destruct (Z.eq_dec dr (-1)) as [D2|D2]; [rewrite D2 in *; nia|].
    assert (4 <= dr * dr) by nia. nia.
Qed.

End HexNorm.

(** * Properties in exact arithmetic *)

Section ExactFacts.

Local Open Scope R_scope.
Local Abbreviation point := Exact.point.
Local Abbreviation polygon := Exact.polygon.

Lemma div_Fin a b : b <> 0 -> div (Fin a) (Fin b) = Fin (a / b).
Proof. intros H. simpl. destruct (Req_dec_T b 0); [contradiction|reflexivity]. Qed.

Lemma div_two a : div (Fin a) (Fin 2) = Fin (a / 2).
Proof. apply div_Fin. lra. Qed.

Lemma vertex_polygon ps i :
  (i < List.length ps)%nat ->
  vertex (polygon ps) i = point (nth i ps (0, 0)).
Proof.
  intros H. unfold vertex, polygon.
  rewrite nth_indep with (d' := point (0, 0)) by now rewrite length_map.
  apply map_nth.
Qed.

Lemma area_fold ps0 pre rest acc :
  ps0 <> [] -> pre ++ rest = ps0 ->
  fold_left
    (fun area i =>
       let j := ((i + 1) mod List.length ps0)%nat in
       sub (add area (mul (x (vertex (polygon ps0) i)) (y (vertex (polygon ps0) j))))
           (mul (x (vertex (polygon ps0) j)) (y (vertex (polygon ps0) i))))
    (seq (List.length pre) (List.length rest)) (Fin acc)
  = Fin (acc + path_sum (rest ++ [hd (0, 0) ps0])).
Proof.
  intros Hne. revert pre acc.
  induction rest as [|a rest IH]; intros pre acc Heq.
  - simpl. f_equal. lra.
  - cbn [List.length seq fold_left].
    assert (Hlen : List.length ps0 = (List.length pre + S (List.length rest))%nat).
    { rewrite <- Heq, length_app. reflexivity. }
    assert (Ha : nth (List.length pre) ps0 (0, 0) = a).
    { rewrite <- Heq. rewrite app_nth2 by lia. now rewrite Nat.sub_diag. }
    rewrite !vertex_polygon by (try apply Nat.mod_upper_bound; lia).
    rewrite Ha.
    specialize (IH (pre ++ [a]) ).
    rewrite length_app in IH. simpl in IH.
    replace (S (List.length pre)) with (List.length pre + 1)%nat by lia.
    destruct rest as [|b rest'].
    + simpl.
      replace ((List.length pre + 1) mod List.length ps0)%nat with 0%nat.
      2:{ rewrite Hlen. simpl. rewrite Nat.Div0.mod_same. reflexivity. }
      destruct ps0 as [|p0 ps0']; [contradiction|]. simpl.
      f_equal. unfold cross. simpl. lra.
    + rewrite Nat.mod_small by (rewrite Hlen; simpl; lia).
      assert (Hb : nth (List.length pre + 1) ps0 (0, 0) = b).
      { rewrite <- Heq. rewrite app_nth2 by lia.
        replace (List.length pre + 1 - List.length pre)%nat with 1%nat by lia.
        reflexivity. }
      rewrite Hb.
      cbn [Exact.point x y add sub mul Exact.number Exact.add Exact.sub Exact.mul Exact.neg fst snd].
      rewrite IH by (rewrite <- app_assoc; exact Heq).
      f_equal. cbn [path_sum app]. unfold cross. lra.
Qed.

Lemma area_shoelace ps :
  calculatePolygonArea (polygon ps) = Fin (Rabs (shoelace ps / 2)).
Proof.
  unfold calculatePolygonArea.
  destruct ps as [|p ps'] eqn:E.
  - simpl. destruct (Req_dec_T 2 0); [lra|]. unfold shoelace. reflexivity.
  - rewrite <- E.
    assert (Hlen : List.length (polygon ps) = List.length ps)
      by apply length_map.
    rewrite Hlen.
    assert (Hne : ps <> []) by (subst; discriminate).
    pose proof (@area_fold ps [] ps 0 Hne eq_refl) as H.
    cbn [List.length] in H.
    change (lit 0) with (Fin 0). cbv zeta in H |- *.
    rewrite H.
    change (lit 2) with (Fin 2).
    rewrite div_two. cbn [abs Exact.number Exact.abs].
    subst ps. unfold shoelace. cbn [hd]. do 3 f_equal. lra.
Qed.

Lemma path_sum_app l1 a l2 :
  path_sum (l1 ++ a :: l2) = path_sum (l1 ++ [a]) + path_sum (a :: l2).
Proof.
  induction l1 as [|b l1 IH].
  - simpl. lra.
  - destruct l1 as [|c l1].
    + simpl in *. lra.
    + change (path_sum ((b :: c :: l1) ++ a :: l2))
        with (cross b c + path_sum ((c :: l1) ++ a :: l2)).
      change (path_sum ((b :: c :: l1) ++ [a]))
        with (cross b c + path_sum ((c :: l1) ++ [a])).
      rewrite IH. lra.
Qed.

Lemma shoelace_app l1 l2 : shoelace (l1 ++ l2) = shoelace (l2 ++ l1).
Proof.
  destruct l1 as [|a l1]; [now rewrite app_nil_r|].
  destruct l2 as [|b l2]; [now rewrite app_nil_r|].
  unfold shoelace. cbn [app].
  replace (a :: (l1 ++ b :: l2) ++ [a]) with ((a :: l1) ++ b :: (l2 ++ [a]))
    by (simpl; now rewrite <- app_assoc).
  replace (b :: (l2 ++ a :: l1) ++ [b]) with ((b :: l2) ++ a :: (l1 ++ [b]))
    by (simpl; now rewrite <- app_assoc).
  rewrite (path_sum_app (a :: l1) b (l2 ++ [a])).
  rewrite (path_sum_app (b :: l2) a (l1 ++ [b])).
  cbn [app]. lra.
Qed.

Lemma cross_swap p q : cross q p = - cross p q.
Proof. unfold cross. lra. Qed.

Lemma path_sum_snoc l a b :
  path_sum (l ++ [a; b]) = path_sum (l ++ [a]) + cross a b.
Proof.
  rewrite (path_sum_app l a [b]). simpl. lra.
Qed.

Lemma path_sum_rev l : path_sum (rev l) = - path_sum l.
Proof.
  induction l as [|a l IH]; [simpl; lra|].
  destruct l as [|b l]; [simpl; lra|].
  change (path_sum (a :: b :: l)) with (cross a b + path_sum (b :: l)).
  change (rev (a :: b :: l)) with (rev (b :: l) ++ [a]).
  change (rev (b :: l)) with (rev l ++ [b]) in *.
  rewrite <- app_assoc. cbn [app].
  rewrite path_sum_snoc, IH, cross_swap. lra.
Qed.

Lemma shoelace_rev ps : shoelace (rev ps) = - shoelace ps.
Proof.
  destruct ps as [|a l]; [simpl; lra|].
  unfold shoelace at 2.
  rewrite <- (rev_involutive ((a :: l) ++ [a])), path_sum_rev, Ropp_involutive.
  rewrite rev_app_distr. cbn [rev app].
  destruct (rev l) as [|z m] eqn:E.
  - simpl. lra.
  - unfold shoelace. cbn [app].
    replace (z :: (m ++ [a]) ++ [z]) with ((z :: m) ++ [a; z])
      by (simpl; now rewrite <- app_assoc).
    rewrite path_sum_snoc.
    change (path_sum (a :: z :: m ++ [a]))
      with (cross a z + path_sum ((z :: m) ++ [a])).
    lra.
Qed.

Lemma shoelace_rotate k ps : shoelace (rotate k ps) = shoelace ps.
Proof.
  unfold rotate. rewrite shoelace_app. now rewrite firstn_skipn.
Qed.


(** ** Loops whose counter is an integer *)

Lemma leb_IZR a b : leb (Fin (IZR a)) (Fin (IZR b)) = (a <=? b)%Z.
Proof.
  simpl. destruct (Rle_dec (IZR a) (IZR b)) as [H|H].
  - apply le_IZR in H. symmetry. now apply Z.leb_le.
  - symmetry. apply Z.leb_gt. apply Z.lt_nge. intros H'. apply H.
    now apply IZR_le.
Qed.

Lemma succ_IZR a : add (Fin (IZR a)) (lit 1) = Fin (IZR (a + 1)).
Proof. simpl. now rewrite plus_IZR. Qed.

Lemma neg_IZR a : neg (Fin (IZR a)) = Fin (IZR (- a)).
Proof. simpl. now rewrite opp_IZR. Qed.

(** A loop from [lo] to [n] finishes within [n + 1 - lo] iterations when
    its body does. *)
Lemma forUpTo_Z_terminates (S : Type) (body : ereal -> S -> option S) (n : Z) :
  (forall v s, exists s', body v s = Some s') ->
  forall (k : nat) (lo : Z) fuel s,
    (n + 1 - lo <= Z.of_nat k)%Z -> (k < fuel)%nat ->
    exists s', forUpTo fuel (Fin (IZR n)) body (Fin (IZR lo)) s = Some s'.
Proof.
  intros Hbody. induction k as [|k IH]; intros lo fuel s Hk Hfuel;
    (destruct fuel as [|fuel]; [lia|]); cbn [forUpTo]; rewrite leb_IZR.
  - replace (lo <=? n)%Z with false by (symmetry; apply Z.leb_gt; lia).
    now exists s.
  - destruct (lo <=? n)%Z eqn:E; [|now exists s].
    destruct (Hbody (Fin (IZR lo)) s) as [s1 Hs1]. rewrite Hs1, succ_IZR.
    apply IH; lia.
Qed.

(** An invariant indexed by the integer the counter stands for. *)
Lemma forUpTo_Z_inv (S : Type) (I : Z -> S -> Prop)
    (body : ereal -> S -> option S) (n : Z) :
  (forall k s s', (k <= n)%Z -> I k s -> body (Fin (IZR k)) s = Some s' ->
                  I (k + 1)%Z s') ->
  forall fuel lo s s',
    I lo s -> forUpTo fuel (Fin (IZR n)) body (Fin (IZR lo)) s = Some s' ->
    exists k, (lo <= k)%Z /\ I k s'.
Proof.
  intros Hbody. induction fuel as [|fuel IH]; intros lo s s' Hs; cbn [forUpTo];
    [discriminate|].
  rewrite leb_IZR. destruct (lo <=? n)%Z eqn:E.
  - destruct (body (Fin (IZR lo)) s) as [s1|] eqn:E1; [|discriminate].
    rewrite succ_IZR. intros H. apply IH in H.
    + destruct H as [k [Hk HI]]. exists k. split; [lia|exact HI].
    + eapply Hbody; eauto. now apply Z.leb_le.
  - intros [= <-]. exists lo. split; [lia|exact Hs].
Qed.

(** ** The bounding box of a polygon with real coordinates *)

Lemma min_Fin a b : min (Fin a) (Fin b) = Fin (Rmin a b).
Proof.
  simpl. unfold Rmin. destruct (Rlt_dec b a), (Rle_dec a b); try reflexivity;
    f_equal; lra.
Qed.

Lemma max_Fin a b : max (Fin a) (Fin b) = Fin (Rmax a b).
Proof.
  simpl. unfold Rmax. destruct (Rlt_dec a b), (Rle_dec a b); try reflexivity;
    f_equal; lra.
Qed.

Lemma boxStep_box a b c d p :
  boxStep (box a b c d) (point p)
  = box (Rmin a (fst p)) (Rmin b (snd p)) (Rmax c (fst p)) (Rmax d (snd p)).
Proof.
  unfold boxStep, box, Exact.point. cbn [minX minY maxX maxY x y].
  now rewrite !min_Fin, !max_Fin.
Qed.

Lemma box_fold l : forall a b c d,
  exists a' b' c' d',
    fold_left boxStep (polygon l) (box a b c d) = box a' b' c' d'
    /\ a' <= a /\ b' <= b /\ c <= c' /\ d <= d'
    /\ forall p, In p l -> a' <= fst p <= c' /\ b' <= snd p <= d'.
Proof.
  induction l as [|p l IH]; intros a b c d.
  - exists a, b, c, d. simpl. repeat split; try lra; contradiction.
  - cbn [Exact.polygon List.map fold_left]. rewrite boxStep_box.
    destruct (IH (Rmin a (fst p)) (Rmin b (snd p)) (Rmax c (fst p))
                 (Rmax d (snd p))) as (a' & b' & c' & d' & E & Ha & Hb & Hc & Hd & Hin).
    exists a', b', c', d'. split; [exact E|].
    pose proof (Rmin_l a (fst p)). pose proof (Rmin_r a (fst p)).
    pose proof (Rmin_l b (snd p)). pose proof (Rmin_r b (snd p)).
    pose proof (Rmax_l c (fst p)). pose proof (Rmax_r c (fst p)).
    pose proof (Rmax_l d (snd p)). pose proof (Rmax_r d (snd p)).
    repeat split; try lra;
      destruct H7 as [<-|H7]; try lra; apply Hin in H7; lra.
Qed.

Lemma getBoundingBox_polygon ps :
  ps <> [] ->
  exists a b c d,
    getBoundingBox (polygon ps) = box a b c d
    /\ a <= c /\ b <= d
    /\ forall p, In p ps -> a <= fst p <= c /\ b <= snd p <= d.
Proof.
  destruct ps as [|p l]; [contradiction|]. intros _.
  unfold getBoundingBox. cbn [Exact.polygon List.map fold_left].
  change (fold_left _ (List.map point l) ?b)
    with (fold_left boxStep (polygon l) b).
  match goal with |- context [fold_left boxStep _ ?b] =>
    change b with (box (fst p) (snd p) (fst p) (snd p)) end.
  destruct (box_fold l (fst p) (snd p) (fst p) (snd p))
    as (a & b & c & d & E & Ha & Hb & Hc & Hd & Hin).
  exists a, b, c, d. split; [exact E|]. repeat split; try lra;
    destruct H as [<-|H]; try lra; apply Hin in H; lra.
Qed.


(** ** Termination *)

Lemma lattice_terminates n fuel coarse pol bounds r (L : Lattice ereal) :
  (Z.to_nat (2 * n + 1) < fuel)%nat ->
  exists res, lattice fuel coarse pol bounds r (Fin (IZR n)) L = Some res.
Proof.
  intros Hfuel. unfold lattice. rewrite neg_IZR.
  apply forUpTo_Z_terminates with (k := Z.to_nat (2 * n + 1)); try lia.
  intros row cands.
  apply forUpTo_Z_terminates with (k := Z.to_nat (2 * n + 1)); try lia.
  intros col s. eexists; reflexivity.
Qed.

Lemma search_terminates n fuel coarse pol radius spacing :
  stepsOf (getBoundingBox pol) (add (mul radius (lit 2)) spacing) = Fin (IZR n) ->
  (Z.to_nat (2 * n + 1) < fuel)%nat ->
  exists res, search fuel coarse pol radius spacing = Some res.
Proof.
  intros Hsteps Hfuel. unfold search.
  enough (exists b, sweep fuel coarse pol radius spacing = Some b)
    as [b ->] by (eexists; reflexivity).
  unfold sweep. apply forOf_total. intros angle b.
  apply forOf_total. intros offX b1. apply forOf_total. intros offY b2.
  unfold tryLattice. rewrite Hsteps.
  match goal with |- context [lattice fuel coarse pol ?bb radius _ ?L] =>
    destruct (@lattice_terminates n fuel coarse pol bb radius L Hfuel)
      as [res ->] end.
  eexists; reflexivity.
Qed.

Lemma sqrt_Fin a : 0 <= a -> sqrt (Fin a) = Fin (R_sqrt.sqrt a).
Proof.
  intros H. simpl. destruct (Rlt_dec a 0); [lra|reflexivity].
Qed.

(** [steps] is an integer when the box is finite and the pitch is not
    zero. *)
Lemma stepsOf_box a b c d p :
  p <> 0 ->
  stepsOf (box a b c d) (Fin p)
  = Fin (IZR (Exact.Zceil
                (R_sqrt.sqrt ((c - a) * (c - a) + (d - b) * (d - b)) / p) + 2)).
Proof.
  intros Hp. unfold stepsOf, box. cbn [minX minY maxX maxY].
  change (sub (Fin c) (Fin a)) with (Fin (c - a)).
  change (sub (Fin d) (Fin b)) with (Fin (d - b)).
  change (mul (Fin (c - a)) (Fin (c - a))) with (Fin ((c - a) * (c - a))).
  change (mul (Fin (d - b)) (Fin (d - b))) with (Fin ((d - b) * (d - b))).
  change (add (Fin ?u) (Fin ?v)) with (Fin (u + v)).
  rewrite sqrt_Fin
    by (apply Rplus_le_le_0_compat; apply Rle_0_sqr).
  rewrite div_Fin by exact Hp.
  change (ceil (Fin ?u)) with (Fin (IZR (Exact.Zceil u))).
  change (lit 2) with (Fin (IZR 2)).
  change (add (Fin ?u) (Fin ?v)) with (Fin (u + v)).
  rewrite <- plus_IZR. reflexivity.
Qed.

(** In exact arithmetic the search finishes for every polygon with a
    vertex and every pitch that is not zero. *)
Lemma search_terminates_polygon coarse ps r s :
  ps <> [] -> r * 2 + s <> 0 ->
  exists fuel res, search fuel coarse (polygon ps) (Fin r) (Fin s) = Some res.
Proof.
  intros Hps Hd.
  destruct (getBoundingBox_polygon Hps) as (a & b & c & d & E & _).
  pose (n := (Exact.Zceil
                (R_sqrt.sqrt ((c - a) * (c - a) + (d - b) * (d - b)) / (r * 2 + s)) + 2)%Z).
  exists (S (Z.to_nat (2 * n + 1))).
  apply search_terminates with (n := n); [|lia].
  rewrite E. change (add (mul (Fin r) (lit 2)) (Fin s)) with (Fin (r * 2 + s)).
  now rewrite stepsOf_box.
Qed.


(** ** A polygon of two vertices *)

Lemma search_empty (num : Type) (JSN : JSNumber num) fuel coarse
    (pol : list (Point num)) radius spacing res :
  (forall p, strictCheck pol radius p = false) ->
  search fuel coarse pol radius spacing = Some res -> res = [].
Proof.
  intros Hnone. apply (search_inv (fun l => l = [])); [reflexivity|].
  intros angle offX offY cands _ _ _.
  apply (lattice_inv (fun l => l = [])); [reflexivity|].
  intros row col c _ Hs. now rewrite Hnone in Hs.
Qed.

(** The two edges of a two-vertex polygon are one segment walked both
    ways: the ray crosses both or neither. *)
Lemma intersect_sym (p : Point ereal) (a b : R * R) :
  intersect p (point a) (point b) = intersect p (point b) (point a).
Proof.
  unfold intersect, Exact.point. cbn [x y].
  destruct p as [px py]. cbn [x y].
  destruct py as [py| | |]; try reflexivity.
  change (ltb (Fin py) (Fin ?u)) with (if Rlt_dec py u then true else false).
  change (sub (Fin ?u) (Fin ?v)) with (Fin (u - v)).
  change (mul (Fin ?u) (Fin ?v)) with (Fin (u * v)).
  destruct (Rlt_dec py (snd a)) as [Ha|Ha], (Rlt_dec py (snd b)) as [Hb|Hb];
    try reflexivity; cbn [xorb andb];
    rewrite !div_Fin by lra;
    change (add (Fin ?u) (Fin ?v)) with (Fin (u + v));
    do 2 f_equal; field; lra.
Qed.

Lemma isPointInPolygon_two (p : Point ereal) (a b : R * R) :
  isPointInPolygon p (polygon [a; b]) = false.
Proof.
  unfold isPointInPolygon. cbn [Exact.polygon List.map last isPointInPolygon_loop].
  rewrite (intersect_sym p b a).
  now destruct (intersect p (point a) (point b)).
Qed.


(** ** A point the ray casting finds inside lies in the bounding box *)

Lemma last_polygon l p0 :
  last (polygon l) (point p0) = point (last l p0).
Proof.
  induction l as [|a l IH]; [reflexivity|].
  destruct l as [|b l]; [reflexivity|]. exact IH.
Qed.

Lemma last_cons (A : Type) (l : list A) (a b : A) :
  last (b :: l) a = last l b.
Proof.
  revert a b. induction l as [|c l IH]; intros a b; [reflexivity|].
  change (last (b :: c :: l) a) with (last (c :: l) a).
  now rewrite (IH a c), (IH b c).
Qed.

Lemma last_In (A : Type) (l : list A) (a : A) : In (last l a) (a :: l).
Proof.
  revert a. induction l as [|b l IH]; intros a; [now left|].
  rewrite last_cons. right. apply IH.
Qed.

(** The loop leaves [inside] as it is unless some edge crosses the ray. *)
Lemma loop_true_edge (p : Point ereal) rest : forall pj inside,
  isPointInPolygon_loop p (polygon rest) (point pj) inside = true ->
  inside = true
  \/ exists a b, In a (pj :: rest) /\ In b (pj :: rest)
                 /\ intersect p (point a) (point b) = true.
Proof.
  induction rest as [|a rest IH]; intros pj inside; cbn [Exact.polygon List.map isPointInPolygon_loop].
  - now left.
  - intros H. apply IH in H. destruct H as [H|(u & v & Hu & Hv & H)].
    + destruct (intersect p (point a) (point pj)) eqn:E.
      * right. exists a, pj. repeat split; [now right; left|now left|exact E].
      * now left.
    + right. exists u, v. repeat split; [| |exact H].
      * destruct Hu as [<-|Hu]; [now right; left|now right; right].
      * destruct Hv as [<-|Hv]; [now right; left|now right; right].
Qed.

(** When every edge crosses the ray exactly when its ends lie on the two
    sides, the crossings around the closed polygon cancel. *)
Lemma loop_parity (p : Point ereal) (above : R * R -> bool) rest :
  forall pj inside,
    (forall a b, In a (pj :: rest) -> In b (pj :: rest) ->
                 intersect p (point a) (point b) = xorb (above a) (above b)) ->
    isPointInPolygon_loop p (polygon rest) (point pj) inside
    = xorb inside (xorb (above pj) (above (last rest pj))).
Proof.
  induction rest as [|a rest IH]; intros pj inside H.
  - simpl. now destruct inside, (above pj).
  - cbn [Exact.polygon List.map isPointInPolygon_loop].
    rewrite IH.
    + rewrite H by (simpl; auto).
      replace (last (a :: rest) pj) with (last rest a).
      2:{ symmetry. apply last_cons. }
      now destruct inside, (above a), (above pj), (above (last rest a)).
    + intros u v Hu Hv. apply H; right; assumption.
Qed.

(** Where an edge crosses the scanline of [v]: between its two ends. *)
Lemma crossing_between xi yi xj yj v :
  (yi <= v < yj \/ yj <= v < yi) ->
  Rmin xi xj <= (xj - xi) * (v - yi) / (yj - yi) + xi <= Rmax xi xj.
Proof.
  intros H.
  set (t := (v - yi) / (yj - yi)).
  assert (Ht : 0 <= t <= 1).
  { unfold t. destruct H as [H|H].
    - split.
      + apply Rmult_le_pos; [lra|]. left. apply Rinv_0_lt_compat. lra.
      + apply Rmult_le_reg_r with (r := yj - yi); [lra|].
        unfold Rdiv. rewrite Rmult_assoc, Rinv_l by lra. lra.
    - replace ((v - yi) / (yj - yi)) with ((yi - v) / (yi - yj)) by (field; lra).
      split.
      + apply Rmult_le_pos; [lra|]. left. apply Rinv_0_lt_compat. lra.
      + apply Rmult_le_reg_r with (r := yi - yj); [lra|].
        unfold Rdiv. rewrite Rmult_assoc, Rinv_l by lra. lra. }
  replace ((xj - xi) * (v - yi) / (yj - yi) + xi) with (xi + (xj - xi) * t)
    by (unfold t; field; lra).
  unfold Rmin, Rmax. destruct (Rle_dec xi xj); nra.
Qed.


Lemma intersect_Fin px v a b :
  intersect {| x := px; y := Fin v |} (point a) (point b)
  = xorb (above v a) (above v b)
    && ltb px (add (div (Fin ((fst b - fst a) * (v - snd a)))
                        (Fin (snd b - snd a)))
                   (Fin (fst a))).
Proof. reflexivity. Qed.

Lemma intersect_true px v a b :
  intersect {| x := px; y := Fin v |} (point a) (point b) = true ->
  (snd a <= v < snd b \/ snd b <= v < snd a)
  /\ ltb px (Fin ((fst b - fst a) * (v - snd a) / (snd b - snd a) + fst a))
     = true.
Proof.
  rewrite intersect_Fin. unfold above.
  destruct (Rlt_dec v (snd a)), (Rlt_dec v (snd b)); cbn [xorb andb];
    try discriminate; rewrite div_Fin by lra; intros H; (split; [lra|exact H]).
Qed.

Lemma ltb_Fin_mono (px : ereal) lo hi :
  ltb px (Fin lo) = true -> lo <= hi -> ltb px (Fin hi) = true.
Proof.
  destruct px as [w| | |]; simpl; try discriminate; try reflexivity.
  destruct (Rlt_dec w lo), (Rlt_dec w hi); try reflexivity; try discriminate.
  lra.
Qed.

Lemma ltb_Fin_not_gt (px : ereal) lo hi :
  ltb px (Fin lo) = true -> lo <= hi -> ltb (Fin hi) px = false.
Proof.
  destruct px as [w| | |]; simpl; try discriminate; try reflexivity.
  destruct (Rlt_dec w lo), (Rlt_dec hi w); try reflexivity; try discriminate.
  lra.
Qed.

(** A point to the left of every vertex: each edge crosses its ray exactly
    when the edge spans the scanline. *)
Lemma intersect_left px v lo a b :
  ltb px (Fin lo) = true -> lo <= fst a -> lo <= fst b ->
  intersect {| x := px; y := Fin v |} (point a) (point b)
  = xorb (above v a) (above v b).
Proof.
  intros Hpx Ha Hb. rewrite intersect_Fin. unfold above.
  destruct (Rlt_dec v (snd a)), (Rlt_dec v (snd b)); cbn [xorb andb];
    try reflexivity; rewrite div_Fin by lra;
    change (add (Fin ?u) (Fin ?w)) with (Fin (u + w));
    apply ltb_Fin_mono with (lo := lo); try exact Hpx;
    (eapply Rle_trans; [|apply crossing_between; lra]);
    unfold Rmin; destruct (Rle_dec (fst a) (fst b)); lra.
Qed.

Lemma inside_in_bounds ps (p : Point ereal) r :
  0 <= r ->
  isPointInPolygon p (polygon ps) = true ->
  outsideBounds (getBoundingBox (polygon ps)) (Fin r) p = false.
Proof.
  intros Hr Hin.
  destruct ps as [|p0 l]; [discriminate|].
  destruct (@getBoundingBox_polygon (p0 :: l)) as (a & b & c & d & E & Hac & Hbd & Hbox);
    [discriminate|].
  rewrite E. unfold isPointInPolygon in Hin.
  cbn [Exact.polygon List.map] in Hin.
  change (point p0 :: List.map point l) with (polygon (p0 :: l)) in Hin.
  rewrite last_polygon in Hin.
  assert (Hlast : In (last (p0 :: l) p0) (p0 :: l)).
  { rewrite last_cons. apply last_In. }
  assert (Hsub : forall q, In q (last (p0 :: l) p0 :: p0 :: l) -> In q (p0 :: l)).
  { intros q [<-|Hq]; assumption. }
  destruct p as [px py].
  pose proof (loop_true_edge _ _ _ _ Hin) as [Hf|(u & w & Hu & Hw & Hx)];
    [discriminate|].
  apply Hsub in Hu, Hw.
  destruct py as [v| | |]; try (now vm_compute in Hx); try discriminate Hx.
  apply intersect_true in Hx. destruct Hx as [Hy Hx].
  pose proof (Hbox _ Hu) as [Hux Huy]. pose proof (Hbox _ Hw) as [Hwx Hwy].
  assert (HX : (fst w - fst u) * (v - snd u) / (snd w - snd u) + fst u <= c).
  { eapply Rle_trans; [apply crossing_between; lra|].
    unfold Rmax. destruct (Rle_dec (fst u) (fst w)); lra. }
  unfold outsideBounds, box. cbn [minX minY maxX maxY x y].
  change (sub (Fin ?s) (Fin ?t)) with (Fin (s - t)).
  change (add (Fin ?s) (Fin ?t)) with (Fin (s + t)).
  rewrite (ltb_Fin_not_gt _ Hx) by lra.
  replace (ltb (Fin v) (Fin (b - r))) with false
    by (simpl; destruct (Rlt_dec v (b - r)); [lra|reflexivity]).
  replace (ltb (Fin (d + r)) (Fin v)) with false
    by (simpl; destruct (Rlt_dec (d + r) v); [lra|reflexivity]).
  destruct (ltb px (Fin (a - r))) eqn:Eleft; [|reflexivity].
  exfalso.
  rewrite (@loop_parity _ (above v)) in Hin.
  - rewrite (last_cons l (last (p0 :: l) p0) p0) in Hin.
    rewrite (last_cons l p0 p0) in Hin.
    now destruct (above v (last l p0)).
  - intros s t Hs Ht. apply Hsub in Hs, Ht.
    apply intersect_left with (lo := a - r); [exact Eleft| |].
    + pose proof (Hbox _ Hs). lra.
    + pose proof (Hbox _ Ht). lra.
Qed.


(** The coarse check rejects nothing the strict check accepts: the two
    searches are the same. *)
Lemma search_coarse_irrelevant (num : Type) (JSN : JSNumber num)
    (pol : list (Point num)) radius spacing :
  (forall p, strictCheck pol radius p = true ->
             outsideBounds (getBoundingBox pol) radius p = false) ->
  forall fuel,
    search fuel false pol radius spacing = search fuel true pol radius spacing.
Proof.
  intros H fuel.
  assert (Hcell : forall L row col c,
            cell false pol (getBoundingBox pol) radius L row col c
            = cell true pol (getBoundingBox pol) radius L row col c).
  { intros L row col c. unfold cell. cbn [andb].
    destruct (strictCheck pol radius _) eqn:E.
    - now rewrite (H _ E).
    - now destruct (outsideBounds _ _ _). }
  assert (Hlat : forall steps L,
            lattice fuel false pol (getBoundingBox pol) radius steps L
            = lattice fuel true pol (getBoundingBox pol) radius steps L).
  { intros steps L. unfold lattice.
    apply forUpTo_ext. intros row cands. apply forUpTo_ext. intros col c.
    now rewrite Hcell. }
  unfold search.
  enough (sweep fuel false pol radius spacing = sweep fuel true pol radius spacing)
    as -> by reflexivity.
  unfold sweep.
  apply forOf_ext. intros angle b. apply forOf_ext. intros offX b1.
  apply forOf_ext. intros offY b2. unfold tryLattice. now rewrite Hlat.
Qed.

(** ** The remainder of an integer by two *)

Lemma up_floor (a : R) (q : Z) : IZR q <= a < IZR (q + 1) -> up a = (q + 1)%Z.
Proof.
  intros [H1 H2]. symmetry. apply tech_up; [exact H2|].
  rewrite plus_IZR. lra.
Qed.

Lemma half_bounds (m : Z) : (0 <= m)%Z -> IZR (m / 2) <= IZR m / 2 < IZR (m / 2 + 1).
Proof.
  intros Hm. pose proof (Z.div_mod m 2 ltac:(lia)) as E.
  pose proof (Z.mod_pos_bound m 2 ltac:(lia)) as [B1 B2].
  assert (E' : IZR m = 2 * IZR (m / 2) + IZR (m mod 2)).
  { rewrite E at 1. rewrite plus_IZR, mult_IZR. reflexivity. }
  apply IZR_le in B1. apply IZR_lt in B2. rewrite plus_IZR. lra.
Qed.

Lemma Ztrunc_half (m : Z) : Exact.Ztrunc (IZR m / 2) = (m ÷ 2)%Z.
Proof.
  unfold Exact.Ztrunc, Exact.Zceil.
  destruct (Rle_dec 0 (IZR m / 2)) as [H|H].
  - assert (Hm : (0 <= m)%Z).
    { apply le_IZR. lra. }
    rewrite (@up_floor _ _ (@half_bounds m Hm)). rewrite Z.quot_div_nonneg by lia. lia.
  - assert (Hm : (m < 0)%Z).
    { apply lt_IZR. lra. }
    replace (- (IZR m / 2)) with (IZR (- m) / 2) by (rewrite opp_IZR; lra).
    rewrite (@up_floor _ (- m / 2)) by (apply half_bounds; lia).
    rewrite <- (Z.opp_involutive m) at 2. rewrite Z.quot_opp_l by lia.
    rewrite Z.quot_div_nonneg by lia. lia.
Qed.

Lemma rem_two (m : Z) : rem (Fin (IZR m)) (lit 2) = Fin (IZR (Z.rem m 2)).
Proof.
  change (rem (Fin (IZR m)) (lit 2))
    with (if Req_dec_T 2 0 then Exact.NaN
          else Fin (IZR m - 2 * IZR (Exact.Ztrunc (IZR m / 2)))).
  destruct (Req_dec_T 2 0); [lra|]. f_equal.
  rewrite Ztrunc_half. pose proof (Z.quot_rem' m 2) as E.
  rewrite E at 1. rewrite plus_IZR, mult_IZR. lra.
Qed.


(** ** The lattice in real coordinates *)

Lemma hexX_Z d ox (row col : Z) :
  hexX (Fin d) (Fin ox) (Fin (IZR row)) (Fin (IZR col))
  = Fin (IZR col * d + IZR (Z.rem row 2) * (d / 2) + ox).
Proof. unfold hexX. now rewrite rem_two, div_two. Qed.

Lemma rotated_grid angle G row col :
  rotated (gridLattice angle G) (Fin (IZR row)) (Fin (IZR col))
  = point (cellPoint G (row, col)).
Proof.
  unfold rotated, gridLattice. cbn [lat_d lat_offX lat_rowHeight lat_offY
    lat_cos lat_sin lat_centerX lat_centerY].
  now rewrite hexX_Z.
Qed.

Lemma cell_distance G rc1 rc2 :
  0 < g_d G -> g_cos G * g_cos G + g_sin G * g_sin G = 1 ->
  g_h G = g_d G * R_sqrt.sqrt 3 / 2 ->
  rc1 <> rc2 ->
  g_d G * g_d G
  <= (fst (cellPoint G rc1) - fst (cellPoint G rc2))
     * (fst (cellPoint G rc1) - fst (cellPoint G rc2))
     + (snd (cellPoint G rc1) - snd (cellPoint G rc2))
       * (snd (cellPoint G rc1) - snd (cellPoint G rc2)).
Proof.
  intros Hd Hcs Hh Hne. destruct rc1 as [r1 c1], rc2 as [r2 c2].
  pose proof (hex_norm Hne) as Hk. apply IZR_le in Hk.
  repeat (rewrite ?plus_IZR, ?mult_IZR, ?minus_IZR in Hk).
  unfold cellPoint. cbn [fst snd].
  set (d := g_d G) in *. set (c := g_cos G) in *. set (s := g_sin G) in *.
  set (k := 2 * (IZR c1 - IZR c2) + (IZR (Z.rem r1 2) - IZR (Z.rem r2 2))) in *.
  set (dr := IZR r1 - IZR r2) in *.
  assert (H3 : R_sqrt.sqrt 3 * R_sqrt.sqrt 3 = 3) by (apply sqrt_sqrt; lra).
  set (hx1 := IZR c1 * d + IZR (Z.rem r1 2) * (d / 2) + g_ox G).
  set (hx2 := IZR c2 * d + IZR (Z.rem r2 2) * (d / 2) + g_ox G).
  set (hy1 := IZR r1 * g_h G + g_oy G).
  set (hy2 := IZR r2 * g_h G + g_oy G).
  replace ((hx1 * c - hy1 * s + g_cx G - (hx2 * c - hy2 * s + g_cx G))
           * (hx1 * c - hy1 * s + g_cx G - (hx2 * c - hy2 * s + g_cx G))
           + (hx1 * s + hy1 * c + g_cy G - (hx2 * s + hy2 * c + g_cy G))
             * (hx1 * s + hy1 * c + g_cy G - (hx2 * s + hy2 * c + g_cy G)))
    with (((hx1 - hx2) * (hx1 - hx2) + (hy1 - hy2) * (hy1 - hy2))
          * (c * c + s * s)) by ring.
  rewrite Hcs, Rmult_1_r.
  replace (hx1 - hx2) with (k * (d / 2)) by (unfold hx1, hx2, k; field).
  replace (hy1 - hy2) with (dr * (d * R_sqrt.sqrt 3 / 2))
    by (unfold hy1, hy2, dr; rewrite Hh; field).
  replace (k * (d / 2) * (k * (d / 2))
           + dr * (d * R_sqrt.sqrt 3 / 2) * (dr * (d * R_sqrt.sqrt 3 / 2)))
    with (d * d / 4 * (k * k + (R_sqrt.sqrt 3 * R_sqrt.sqrt 3) * (dr * dr)))
    by field.
  rewrite H3.
  replace (d * d) with (d * d / 4 * 4) at 1 by field.
  apply Rmult_le_compat_l; [nra|].
  exact Hk.
Qed.


(** ** The candidates of a lattice are cells with different indices *)

Lemma lattice_indices fuel coarse pol bounds r0 n angle G res :
  lattice fuel coarse pol bounds r0 (Fin (IZR n)) (gridLattice angle G)
  = Some res ->
  exists idx, NoDup idx /\ res = circles r0 angle G idx.
Proof.
  unfold lattice. rewrite neg_IZR. intros H.
  apply (@forUpTo_Z_inv _
           (fun k cands => exists idx,
                NoDup idx /\ cands = circles r0 angle G idx
                /\ forall rc, In rc idx -> (fst rc < k)%Z)) in H.
  - destruct H as (k & _ & idx & Hnd & E & _). now exists idx.
  - intros k cands cands' Hk (idx & Hnd & E & Hlt) Hinner.
    apply (@forUpTo_Z_inv _
             (fun c cands => exists idx,
                  NoDup idx /\ cands = circles r0 angle G idx
                  /\ forall rc, In rc idx ->
                                (fst rc < k \/ (fst rc = k /\ snd rc < c))%Z))
      in Hinner.
    + destruct Hinner as (c & _ & idx' & Hnd' & E' & Hlt').
      exists idx'. repeat split; try assumption.
      intros rc Hrc. apply Hlt' in Hrc. lia.
    + intros c s s' Hc (idx' & Hnd' & E' & Hlt') [= <-].
      unfold cell.
      destruct (coarse && outsideBounds bounds r0 _);
        [|destruct (strictCheck pol r0 _)].
      * exists idx'. repeat split; try assumption.
        intros rc Hrc. apply Hlt' in Hrc. lia.
      * exists (idx' ++ [(k, c)]). repeat split.
        -- apply NoDup_app; [exact Hnd'|repeat constructor; intros []| ].
           intros rc Hrc [<-|[]]. apply Hlt' in Hrc. simpl in Hrc. lia.
        -- rewrite E'. unfold circles. now rewrite map_app.
        -- intros rc Hrc. apply in_app_or in Hrc.
           destruct Hrc as [Hrc|[<-|[]]]; [apply Hlt' in Hrc; lia|simpl; lia].
      * exists idx'. repeat split; try assumption.
        intros rc Hrc. apply Hlt' in Hrc. lia.
    + exists idx. repeat split; try assumption.
      intros rc Hrc. apply Hlt in Hrc. lia.
  - exists []. repeat split; [constructor|contradiction].
Qed.


Lemma separated_nil (num : Type) (JSN : JSNumber num) (bound : num) :
  separated bound [].
Proof. intros i j ci cj _ H. now destruct i. Qed.

Lemma leb_Fin_weaken (b b' : R) (v : ereal) :
  b' <= b -> leb (Fin b) v = true -> leb (Fin b') v = true.
Proof.
  intros Hb. destruct v as [v| | |]; simpl; try discriminate; try reflexivity.
  destruct (Rle_dec b v), (Rle_dec b' v); try reflexivity; try discriminate.
  lra.
Qed.

Lemma separated_weaken (b b' : R) (l : list (Circle ereal)) :
  b' <= b -> separated (Fin b) l -> separated (Fin b') l.
Proof.
  intros Hb H i j ci cj Hij Hi Hj.
  apply leb_Fin_weaken with (b := b); [exact Hb|]. eapply H; eauto.
Qed.

Lemma centerDistance_points (p q : R * R) :
  sqrt (dist2 (point p) (point q))
  = Fin (R_sqrt.sqrt ((fst p - fst q) * (fst p - fst q)
                      + (snd p - snd q) * (snd p - snd q))).
Proof.
  change (dist2 (point p) (point q))
    with (Fin ((fst p - fst q) * (fst p - fst q)
               + (snd p - snd q) * (snd p - snd q))).
  apply sqrt_Fin. apply Rplus_le_le_0_compat; apply Rle_0_sqr.
Qed.

Lemma circles_separated r0 angle G idx :
  0 < g_d G -> g_cos G * g_cos G + g_sin G * g_sin G = 1 ->
  g_h G = g_d G * R_sqrt.sqrt 3 / 2 ->
  NoDup idx -> separated (Fin (g_d G)) (circles r0 angle G idx).
Proof.
  intros Hd Hcs Hh Hnd i j ci cj Hij Hi Hj.
  unfold circles in Hi, Hj. rewrite nth_error_map in Hi, Hj.
  destruct (nth_error idx i) as [rc1|] eqn:E1; [|discriminate].
  destruct (nth_error idx j) as [rc2|] eqn:E2; [|discriminate].
  injection Hi as <-. injection Hj as <-.
  assert (Hne : rc1 <> rc2).
  { intros ->. apply Hij.
    apply (proj1 (NoDup_nth_error idx) Hnd).
    - apply nth_error_Some. congruence.
    - congruence. }
  unfold centerDistance. rewrite !center_circleAt.
  destruct rc1 as [r1 c1], rc2 as [r2 c2]. cbn [fst snd].
  rewrite !rotated_grid, centerDistance_points.
  pose proof (cell_distance G Hd Hcs Hh Hne) as Hdist.
  simpl. destruct (Rle_dec _ _) as [|Hn]; [reflexivity|]. exfalso. apply Hn.
  rewrite <- (sqrt_square (g_d G)) at 1 by lra.
  apply sqrt_le_1_alt. exact Hdist.
Qed.

Lemma latticeAt_grid a b c d0 dd h alpha ox oy :
  latticeAt (box a b c d0) (Fin dd) (Fin h) (Fin alpha) (Fin ox) (Fin oy)
  = gridLattice (Fin alpha)
      {| g_cos := Rtrigo_def.cos (alpha * (Rtrigo1.PI / 180));
         g_sin := Rtrigo_def.sin (alpha * (Rtrigo1.PI / 180));
         g_d := dd; g_h := h;
         g_cx := (a + c) / 2; g_cy := (b + d0) / 2;
         g_ox := ox; g_oy := oy |}.
Proof.
  unfold latticeAt, gridLattice, box. cbn [minX minY maxX maxY g_cos g_sin
    g_d g_h g_cx g_cy g_ox g_oy].
  change PI with (Fin Rtrigo1.PI). change (lit 180) with (Fin 180).
  rewrite div_Fin by lra.
  change (add (Fin ?u) (Fin ?v)) with (Fin (u + v)).
  now rewrite !div_two.
Qed.

Lemma rowHeight_Fin dd :
  div (mul (Fin dd) (sqrt (lit 3))) (lit 2) = Fin (dd * R_sqrt.sqrt 3 / 2).
Proof.
  change (lit 3) with (Fin 3). rewrite sqrt_Fin by lra.
  change (mul (Fin ?u) (Fin ?v)) with (Fin (u * v)). apply div_two.
Qed.

(** In exact arithmetic every result of the search is a list of lattice
    cells that are at least the pitch apart. *)
Lemma search_separated fuel coarse ps r s res :
  ps <> [] -> 0 < r * 2 + s ->
  search fuel coarse (polygon ps) (Fin r) (Fin s) = Some res ->
  separated (Fin (r * 2 + s)) res.
Proof.
  intros Hps Hd.
  apply (search_inv (fun l => separated (Fin (r * 2 + s)) l));
    [apply separated_nil|].
  intros angle offX offY cands Hangle HoffX HoffY.
  destruct (getBoundingBox_polygon Hps) as (a & b & c & d0 & E & _).
  rewrite E.
  change (add (mul (Fin r) (lit 2)) (Fin s)) with (Fin (r * 2 + s)) in *.
  rewrite rowHeight_Fin in *. rewrite stepsOf_box by lra.
  assert (Ha : exists alpha, angle = Fin alpha).
  { unfold angles in Hangle. simpl in Hangle.
    repeat (destruct Hangle as [<-|Hangle]; [eexists; reflexivity|]).
    contradiction. }
  assert (Hx : exists ox, offX = Fin ox).
  { rewrite div_two in HoffX. simpl in HoffX.
    repeat (destruct HoffX as [<-|HoffX]; [eexists; reflexivity|]).
    contradiction. }
  assert (Hy : exists oy, offY = Fin oy).
  { rewrite div_two in HoffY. simpl in HoffY.
    repeat (destruct HoffY as [<-|HoffY]; [eexists; reflexivity|]).
    contradiction. }
  destruct Ha as [alpha ->], Hx as [ox ->], Hy as [oy ->].
  rewrite latticeAt_grid. intros Hl.
  apply lattice_indices in Hl. destruct Hl as (idx & Hnd & ->).
  apply circles_separated with (G := mkGrid _ _ _ _ _ _ _ _); cbn [g_d g_cos g_sin g_h];
    try assumption; try reflexivity.
  rewrite Rplus_comm. apply sin2_cos2.
Qed.


End ExactFacts.

(** * Integers in double precision *)

Section IntFloat.

Local Open Scope Z_scope.

Lemma iter_pos_nat (A : Type) (f : A -> A) (n : positive) (a : A) :
  SpecFloat.iter_pos f n a = Nat.iter (Pos.to_nat n) f a.
Proof.
  revert a. induction n as [n IH|n IH|]; intros a; cbn [SpecFloat.iter_pos].
  - rewrite !IH, Pos2Nat.inj_xI, <- Nat.iter_add.
    replace (S (2 * Pos.to_nat n)) with (S (Pos.to_nat n + Pos.to_nat n))%nat by lia.
    now rewrite Nat.iter_succ_r.
  - rewrite !IH, Pos2Nat.inj_xO, <- Nat.iter_add.
    now replace (2 * Pos.to_nat n)%nat with (Pos.to_nat n + Pos.to_nat n)%nat by lia.
  - reflexivity.
Qed.

Lemma Pos_iter_shl (n : positive) (p : positive) :
  Pos.iter xO p n = shl (Pos.to_nat n) p.
Proof.
  rewrite Pos2Nat.inj_iter. induction (Pos.to_nat n) as [|j IH]; [reflexivity|].
  simpl. now rewrite IH.
Qed.

Lemma shl_xO j p : shl j (xO p) = xO (shl j p).
Proof. induction j as [|j IH]; [reflexivity|]. simpl. now rewrite IH. Qed.

Lemma shl_add i j p : shl i (shl j p) = shl (i + j) p.
Proof. induction i as [|i IH]; [reflexivity|]. simpl. now rewrite IH. Qed.

Lemma digits2_bounds (p : positive) :
  2 ^ (Zpos (digits2_pos p) - 1) <= Zpos p < 2 ^ Zpos (digits2_pos p).
Proof.
  induction p as [p IH|p IH|]; cbn [digits2_pos].
  - rewrite Pos2Z.inj_succ. replace (Z.succ (Zpos (digits2_pos p)) - 1)
      with (Z.succ (Zpos (digits2_pos p) - 1)) by lia.
    rewrite !Z.pow_succ_r by lia. lia.
  - rewrite Pos2Z.inj_succ. replace (Z.succ (Zpos (digits2_pos p)) - 1)
      with (Z.succ (Zpos (digits2_pos p) - 1)) by lia.
    rewrite !Z.pow_succ_r by lia. lia.
  - simpl. lia.
Qed.

Lemma digits2_shl (p : positive) (j : nat) :
  Zpos (digits2_pos (shl j p)) = Zpos (digits2_pos p) + Z.of_nat j.
Proof.
  induction j as [|j IH]; [simpl; lia|].
  cbn [shl digits2_pos]. rewrite Pos2Z.inj_succ, IH. lia.
Qed.

Lemma shl_value (p : positive) (j : nat) :
  Zpos (shl j p) = Zpos p * 2 ^ Z.of_nat j.
Proof.
  induction j as [|j IH]; [simpl; lia|].
  cbn [shl]. rewrite Pos2Z.inj_xO, IH, Nat2Z.inj_succ.
  rewrite Z.pow_succ_r by lia. lia.
Qed.

Lemma shr_exact (j : nat) (p : positive) :
  Nat.iter j shr_1 {| shr_m := Zpos (shl j p); shr_r := false; shr_s := false |}
  = {| shr_m := Zpos p; shr_r := false; shr_s := false |}.
Proof.
  revert p. induction j as [|j IH]; intros p; [reflexivity|].
  rewrite Nat.iter_succ_r. cbn [shl shr_1 orb]. apply IH.
Qed.

Lemma fexp_small D : 1 <= D <= 53 -> fexp prec emax D = D - 53.
Proof. intros H. unfold fexp, emin, prec, emax. lia. Qed.

(** A mantissa of 53 bits at an exponent within range comes through
    [binary_round_aux] as it is. *)
Lemma binary_round_aux_53 s m e :
  Zpos (digits2_pos m) = 53 -> -1074 <= e <= 971 ->
  binary_round_aux prec emax s (Zpos m) e loc_Exact = S754_finite s m e.
Proof.
  intros Hd He. unfold binary_round_aux, shr_fexp. cbn [Zdigits2].
  rewrite Hd. unfold fexp, emin, prec, emax.
  replace (Z.max (53 + e - 53) (3 - 1024 - 53) - e) with 0 by lia.
  cbn [shr shr_record_of_loc shr_m loc_of_shr_record round_nearest_even Zdigits2].
  rewrite Hd.
  replace (Z.max (53 + e - 53) (3 - 1024 - 53) - e) with 0 by lia.
  cbn [shr shr_m].
  replace (e <=? 1024 - 53) with true by (symmetry; apply Z.leb_le; lia).
  reflexivity.
Qed.

(** Rounding [p * 2^j] at exponent [-j] is exact when [p] has at most 53
    bits: the result is the canonical double of [p]. *)
Lemma binary_round_exact s p (j : nat) :
  Zpos (digits2_pos p) <= 53 -> (j <= 1000)%nat ->
  binary_round prec emax s (shl j p) (- Z.of_nat j) = canon s p.
Proof.
  intros HD Hj. set (D := Zpos (digits2_pos p)) in *.
  assert (HD1 : 1 <= D) by (unfold D; lia).
  unfold binary_round, shl_align. rewrite digits2_shl. fold D.
  replace (D + Z.of_nat j + - Z.of_nat j) with D by lia.
  rewrite fexp_small by lia.
  destruct (D - 53 - - Z.of_nat j) as [|q|q] eqn:E; cbv beta iota.
  - (* no shift either way *)
    assert (Ej : Z.of_nat j = 53 - D) by lia.
    unfold canon. fold D. rewrite <- Ej, Nat2Z.id.
    replace (D - 53) with (- Z.of_nat j) by lia.
    apply binary_round_aux_53; [rewrite digits2_shl; fold D; lia|lia].
  - (* the mantissa is too long: shifted right, exactly *)
    assert (Ej : (j = Z.to_nat (53 - D) + Pos.to_nat q)%nat) by lia.
    unfold binary_round_aux, shr_fexp. cbn [Zdigits2]. rewrite (digits2_shl p j). fold D.
    replace (D + Z.of_nat j + - Z.of_nat j) with D by lia.
    rewrite fexp_small by lia. rewrite E.
    assert (Hshr :
              SpecFloat.iter_pos shr_1 q
                {| shr_m := Zpos (shl j p); shr_r := false; shr_s := false |}
              = {| shr_m := Zpos (shl (Z.to_nat (53 - D)) p);
                   shr_r := false; shr_s := false |}).
    { rewrite iter_pos_nat.
      replace (shl j p) with (shl (Pos.to_nat q) (shl (Z.to_nat (53 - D)) p))
        by (rewrite shl_add; f_equal; lia).
      apply shr_exact. }
    cbn [shr shr_record_of_loc]. rewrite Hshr.
    cbn [shr_m loc_of_shr_record round_nearest_even Zdigits2].
    rewrite digits2_shl. fold D.
    replace (D + Z.of_nat (Z.to_nat (53 - D)) + (- Z.of_nat j + Zpos q))
      with D by lia.
    rewrite fexp_small by lia.
    replace (D - 53 - (- Z.of_nat j + Zpos q)) with 0 by lia.
    cbn [shr shr_m].
    replace (- Z.of_nat j + Zpos q <=? emax - prec) with true
      by (symmetry; apply Z.leb_le; unfold emax, prec; lia).
    unfold canon. fold D. f_equal. lia.
  - (* the mantissa is short: shifted left *)
    rewrite Pos_iter_shl, shl_add.
    assert (Ej : (Pos.to_nat q + j = Z.to_nat (53 - D))%nat) by lia.
    rewrite Ej. unfold canon. fold D.
    apply binary_round_aux_53; [rewrite digits2_shl; fold D; lia|lia].
Qed.


Lemma digits2_le_53 p : Zpos p < 2 ^ 53 -> Zpos (digits2_pos p) <= 53.
Proof.
  intros H. pose proof (digits2_bounds p) as [B _].
  destruct (Z_le_gt_dec (Zpos (digits2_pos p)) 53) as [|G]; [assumption|].
  exfalso. assert (2 ^ 53 <= 2 ^ (Zpos (digits2_pos p) - 1))
    by (apply Z.pow_le_mono_r; lia). lia.
Qed.

Lemma isInt_of_Z z : - 2 ^ 53 < z < 2 ^ 53 -> isInt (Binary64.of_Z z) z.
Proof.
  intros Hz. destruct z as [|p|p]; cbn [isInt Binary64.of_Z].
  - left. reflexivity.
  - rewrite of_uint63_spec, of_Z_spec.
    rewrite Z.mod_small by (unfold wB; simpl; lia).
    cbn [binary_normalize]. apply (@binary_round_exact false p 0).
    + apply digits2_le_53. lia.
    + lia.
  - rewrite FloatAxioms.opp_spec, of_uint63_spec, of_Z_spec.
    rewrite Z.mod_small by (unfold wB; simpl; lia).
    cbn [binary_normalize].
    change (binary_round prec emax false p 0)
      with (binary_round prec emax false (shl 0 p) (- Z.of_nat 0)).
    rewrite (@binary_round_exact false p 0).
    + reflexivity.
    + apply digits2_le_53. lia.
    + lia.
Qed.

Lemma isInt_opp f z : isInt f z -> isInt (- f)%float (- z).
Proof.
  destruct z as [|p|p]; cbn [isInt Z.opp]; rewrite FloatAxioms.opp_spec.
  - intros [-> | ->]; [right|left]; reflexivity.
  - intros ->. reflexivity.
  - intros ->. reflexivity.
Qed.

(** The mantissa of a canonical integer, aligned on the exponent -52. *)
Lemma align_canon p :
  Zpos (digits2_pos p) <= 53 ->
  fst (shl_align (shl (Z.to_nat (53 - Zpos (digits2_pos p))) p)
         (Zpos (digits2_pos p) - 53) (-52))
  = shl 52 p.
Proof.
  intros HD. set (D := Zpos (digits2_pos p)) in *.
  assert (HD1 : 1 <= D) by (unfold D; lia).
  unfold shl_align.
  destruct (-52 - (D - 53)) as [|q|q] eqn:E; cbn [fst].
  - f_equal. lia.
  - lia.
  - rewrite Pos_iter_shl, shl_add. f_equal. lia.
Qed.

Lemma shl_sum j p q : (Zpos (shl j p) + Zpos (shl j q) = Zpos (shl j (p + q)))%Z.
Proof. rewrite !shl_value. lia. Qed.

Lemma min_52 D : 1 <= D -> IntDef.Z.min (D - 53) (-52) = -52.
Proof. intros H. change IntDef.Z.min with Z.min. lia. Qed.

Lemma one_canon : Prim2SF 1 = S754_finite false (shl 52 1) (-52).
Proof. reflexivity. Qed.

Lemma align_one : fst (shl_align (shl 52 1) (-52) (-52)) = shl 52 1.
Proof. reflexivity. Qed.

Lemma isInt_succ f z :
  isInt f z -> - 2 ^ 53 < z -> z + 1 < 2 ^ 53 ->
  isInt (f + 1)%float (z + 1).
Proof.
  intros Hf Hlo Hhi.
  destruct z as [|p|p]; cbn [isInt] in Hf.
  - (* 0 + 1 *)
    change (0 + 1) with 1. cbn [isInt]. rewrite FloatAxioms.add_spec.
    destruct Hf as [-> | ->]; reflexivity.
  - (* p + 1 *)
    change (Zpos p + 1) with (Zpos (p + 1)). cbn [isInt].
    rewrite FloatAxioms.add_spec, Hf, one_canon. unfold SF64add, SFadd, canon at 1.
    set (D := Zpos (digits2_pos p)).
    assert (HD : D <= 53) by (apply digits2_le_53; lia).
    assert (HD1 : 1 <= D) by (unfold D; lia).
    rewrite (min_52 HD1), align_one.
    unfold D. rewrite (@align_canon p) by assumption.
    cbn [cond_Zopp]. rewrite shl_sum. cbn [binary_normalize].
    apply (@binary_round_exact false (p + 1) 52); [|lia].
    apply digits2_le_53. lia.
  - (* -p + 1 *)
    destruct (Pos.eq_dec p 1) as [->|Hp].
    + change (Zneg 1 + 1) with 0. left.
      rewrite FloatAxioms.add_spec, Hf. reflexivity.
    + assert (Hq : (Zneg p + 1 = Zneg (p - 1))%Z) by lia.
      rewrite Hq. cbn [isInt].
      rewrite FloatAxioms.add_spec, Hf, one_canon.
      unfold SF64add, SFadd, canon at 1.
      set (D := Zpos (digits2_pos p)).
      assert (HD : D <= 53) by (apply digits2_le_53; lia).
      assert (HD1 : 1 <= D) by (unfold D; lia).
      rewrite (min_52 HD1), align_one.
      unfold D. rewrite (@align_canon p) by assumption.
      cbn [cond_Zopp].
      replace (- Zpos (shl 52 p) + Zpos (shl 52 1)) with (Zneg (shl 52 (p - 1))).
      2:{ rewrite <- Pos2Z.opp_pos, !shl_value. lia. }
      cbn [binary_normalize].
      apply (@binary_round_exact true (p - 1) 52); [|lia].
      apply digits2_le_53. lia.
Qed.


Lemma compare_shl k p q : Pos.compare (shl k p) (shl k q) = Pos.compare p q.
Proof. induction k as [|k IH]; [reflexivity|]. cbn [shl]. exact IH. Qed.

Lemma digits2_lt p q :
  Zpos (digits2_pos p) < Zpos (digits2_pos q) -> (p < q)%positive.
Proof.
  intros H. pose proof (digits2_bounds p) as [_ Bp].
  pose proof (digits2_bounds q) as [Bq _].
  assert (2 ^ Zpos (digits2_pos p) <= 2 ^ (Zpos (digits2_pos q) - 1))
    by (apply Z.pow_le_mono_r; lia).
  apply Pos2Z.pos_lt_pos. lia.
Qed.

(** Canonical integers compare as their exponents and mantissas do. *)
Lemma canon_compare p q :
  match (Zpos (digits2_pos p) - 53 ?= Zpos (digits2_pos q) - 53) with
  | Lt => Lt
  | Gt => Gt
  | Eq => Pos.compare_cont Eq
            (shl (Z.to_nat (53 - Zpos (digits2_pos p))) p)
            (shl (Z.to_nat (53 - Zpos (digits2_pos q))) q)
  end = Pos.compare p q.
Proof.
  destruct (Z.compare_spec (Zpos (digits2_pos p) - 53)
              (Zpos (digits2_pos q) - 53)) as [E|L|G].
  - assert (E' : digits2_pos p = digits2_pos q) by lia. rewrite E'.
    apply compare_shl.
  - symmetry. apply Pos.compare_lt_iff. apply digits2_lt. lia.
  - symmetry. apply Pos.compare_gt_iff. apply digits2_lt. lia.
Qed.

Lemma isInt_leb f g a b :
  isInt f a -> isInt g b -> (f <=? g)%float = (a <=? b).
Proof.
  intros Hf Hg. rewrite FloatAxioms.leb_spec.
  destruct a as [|p|p], b as [|q|q]; cbn [isInt] in Hf, Hg;
    try (destruct Hf as [-> | ->]); try (destruct Hg as [-> | ->]);
    try rewrite Hf; try rewrite Hg; try reflexivity.
  - unfold SFleb, canon. cbn [SFcompare].
    change (IntDef.Z.compare ?u ?v) with (Z.compare u v).
    rewrite canon_compare. reflexivity.
  - unfold SFleb, canon. cbn [SFcompare].
    change (IntDef.Z.compare ?u ?v) with (Z.compare u v).
    pose proof (canon_compare p q) as H.
    unfold Z.leb. cbn [Z.compare]. rewrite <- H.
    destruct (Zpos (digits2_pos p) - 53 ?= Zpos (digits2_pos q) - 53);
      reflexivity.
Qed.


(** ** Termination in double precision *)

(** ** Loops whose counter is an integer *)

Lemma forUpTo_int_terminates (S : Type) (body : float -> S -> option S)
    (bound : float) (n : Z) :
  isInt bound n -> n + 1 < 2 ^ 53 ->
  (forall v s, exists s', body v s = Some s') ->
  forall (k : nat) (lo : Z) (v : float) fuel s,
    isInt v lo -> - 2 ^ 53 < lo ->
    n + 1 - lo <= Z.of_nat k -> (k < fuel)%nat ->
    exists s', forUpTo fuel bound body v s = Some s'.
Proof.
  intros Hb Hn Hbody.
  induction k as [|k IH]; intros lo v fuel s Hv Hlo Hk Hfuel;
    (destruct fuel as [|fuel]; [lia|]); cbn [forUpTo];
    change (leb v bound) with (PrimFloat.leb v bound);
    rewrite (@isInt_leb v bound lo n Hv Hb).
  - replace (lo <=? n) with false by (symmetry; apply Z.leb_gt; lia).
    now exists s.
  - destruct (lo <=? n) eqn:E; [|now exists s].
    apply Z.leb_le in E.
    destruct (Hbody v s) as [s1 ->].
    change (add v (lit 1)) with (v + 1)%float.
    apply IH with (lo := lo + 1); try lia.
    apply isInt_succ; [exact Hv|lia|lia].
Qed.

Lemma lattice_terminates_int n fuel coarse pol bounds r steps (L : Lattice float) :
  isInt steps n -> - 2 ^ 53 < n -> n + 1 < 2 ^ 53 ->
  (Z.to_nat (2 * n + 1) < fuel)%nat ->
  exists res, lattice fuel coarse pol bounds r steps L = Some res.
Proof.
  intros Hs Hlo Hhi Hfuel. unfold lattice.
  assert (Hneg : isInt (neg steps) (- n)) by (apply isInt_opp, Hs).
  apply forUpTo_int_terminates
    with (n := n) (k := Z.to_nat (2 * n + 1)) (lo := - n);
    try assumption; try lia.
  intros row cands.
  apply forUpTo_int_terminates
    with (n := n) (k := Z.to_nat (2 * n + 1)) (lo := - n);
    try assumption; try lia.
  intros col s. eexists; reflexivity.
Qed.

(** ** The remainder of an integer by two, in double precision *)

Lemma two_canon : Prim2SF (Binary64.of_Z 2) = S754_finite false (shl 52 1) (-51).
Proof. reflexivity. Qed.

Lemma min_51 D : 3 <= D -> IntDef.Z.min (D - 53) (-51) = -51.
Proof. intros H. change IntDef.Z.min with Z.min. lia. Qed.

Lemma digits2_ge_3 p : 4 <= Zpos p -> 3 <= Zpos (digits2_pos p).
Proof.
  intros H. pose proof (digits2_bounds p) as [_ B].
  destruct (Z_lt_ge_dec (Zpos (digits2_pos p)) 3) as [L|]; [|lia].
  exfalso. assert (2 ^ Zpos (digits2_pos p) <= 2 ^ 2)
    by (apply Z.pow_le_mono_r; lia). simpl in *. lia.
Qed.

(** The two operands of [%] aligned on the exponent -51. *)
Lemma rem_operands p :
  3 <= Zpos (digits2_pos p) <= 53 ->
  Zpos (shl (Z.to_nat (53 - Zpos (digits2_pos p))) p)
  * 2 ^ (Zpos (digits2_pos p) - 53 - -51)
  = Zpos p * 2 ^ 51.
Proof.
  intros HD. set (D := Zpos (digits2_pos p)) in *.
  rewrite shl_value. rewrite Z2Nat.id by lia.
  rewrite <- Z.mul_assoc, <- Z.pow_add_r by lia. do 2 f_equal. lia.
Qed.

Lemma rem_value p :
  (Zpos p * 2 ^ 51) mod (Zpos (shl 52 1) * 2 ^ (-51 - -51))
  = match p with xO _ => 0 | _ => Zpos (shl 51 1) end.
Proof.
  change (Zpos (shl 52 1) * 2 ^ (-51 - -51)) with (2 ^ 52).
  change (Zpos (shl 51 1)) with (2 ^ 51).
  destruct p as [q|q|].
  - replace (Zpos q~1 * 2 ^ 51) with (2 ^ 51 + Zpos q * 2 ^ 52)
      by (rewrite Pos2Z.inj_xI; change (2 ^ 52) with (2 * 2 ^ 51); lia).
    rewrite Z_mod_plus_full. apply Z.mod_small. simpl; lia.
  - replace (Zpos q~0 * 2 ^ 51) with (Zpos q * 2 ^ 52)
      by (rewrite Pos2Z.inj_xO; change (2 ^ 52) with (2 * 2 ^ 51); lia).
    apply Z.mod_mul. simpl; lia.
  - reflexivity.
Qed.

Lemma rem_two_pos s p :
  4 <= Zpos p < 2 ^ 53 ->
  match canon s p, Prim2SF (Binary64.of_Z 2) with
  | S754_finite sa ma ea, S754_finite _ mb eb =>
      let e := IntDef.Z.min ea eb in
      let A := (Zpos ma * 2 ^ (ea - e))%Z in
      let B := (Zpos mb * 2 ^ (eb - e))%Z in
      let R := (A mod B)%Z in
      SF2Prim (binary_normalize prec emax (if sa then (- R)%Z else R) e sa)
  | _, _ => nan
  end
  = match p, s with
    | xO _, false => 0%float
    | xO _, true => (-0)%float
    | _, false => 1%float
    | _, true => (-1)%float
    end.
Proof.
  intros Hp. rewrite two_canon. unfold canon. cbv zeta.
  assert (HD : 3 <= Zpos (digits2_pos p) <= 53)
    by (split; [apply digits2_ge_3; lia|apply digits2_le_53; lia]).
  rewrite min_51 by lia. rewrite rem_operands by exact HD. rewrite rem_value.
  destruct p as [q|q|], s; try reflexivity; try lia.
Qed.

Lemma rem_two_binary64 (row : Z) :
  - 2 ^ 53 < row < 2 ^ 53 ->
  Binary64.rem (Binary64.of_Z row) (Binary64.of_Z 2) = rem2 row.
Proof.
  intros Hrow. pose proof (isInt_of_Z Hrow) as Hi.
  destruct row as [|p|p].
  - reflexivity.
  - destruct (Z_lt_ge_dec (Zpos p) 4) as [L|G].
    + assert (Hc : (p = 1 \/ p = 2 \/ p = 3)%positive) by lia.
      destruct Hc as [-> | [-> | ->]]; reflexivity.
    + cbn [isInt] in Hi. unfold Binary64.rem. rewrite Hi.
      pose proof (@rem_two_pos false p ltac:(lia)) as H.
      unfold canon in H |- *. rewrite two_canon in H |- *.
      change Z.min with IntDef.Z.min. rewrite H.
      unfold rem2. destruct p; reflexivity.
  - destruct (Z_lt_ge_dec (Zpos p) 4) as [L|G].
    + assert (Hc : (p = 1 \/ p = 2 \/ p = 3)%positive) by lia.
      destruct Hc as [-> | [-> | ->]]; reflexivity.
    + cbn [isInt] in Hi. unfold Binary64.rem. rewrite Hi.
      pose proof (@rem_two_pos true p ltac:(lia)) as H.
      unfold canon in H |- *. rewrite two_canon in H |- *.
      change Z.min with IntDef.Z.min. rewrite H.
      unfold rem2. destruct p; reflexivity.
Qed.

End IntFloat.

(** * Double precision: lemmas for the examples *)

Section Stuck.

Context {num : Type} {JSN : JSNumber num}.
Local Open Scope js_scope.

(** A lattice whose first counter value the increment does not move, and
    whose first cell is rejected, is never enumerated to its end. *)
Lemma lattice_stuck coarse (polygon : list (Point num)) bounds r steps L :
  (- steps <=? steps) = true ->
  - steps + #1 = - steps ->
  cell coarse polygon bounds r L (- steps) (- steps) [] = [] ->
  forall fuel, lattice fuel coarse polygon bounds r steps L = None.
Proof.
  intros Hle Hinc Hcell fuel. unfold lattice.
  apply forUpTo_body_None; [exact Hle|].
  apply forUpTo_stuck; [exact Hle|exact Hinc|]. now rewrite Hcell.
Qed.

(** The search does not finish when its first lattice does not. *)
Lemma search_first_None fuel coarse (polygon : list (Point num)) radius spacing :
  let bounds := getBoundingBox polygon in
  let d := radius * #2 + spacing in
  let rowHeight := d * sqrt #3 / #2 in
  lattice fuel coarse polygon bounds radius (stepsOf bounds d)
    (latticeAt bounds d rowHeight #0 #0 #0) = None ->
  search fuel coarse polygon radius spacing = None.
Proof.
  intros bounds d rowHeight H. unfold search, sweep, angles.
  cbn [forOf]. unfold tryLattice at 1.
  fold bounds. fold d. fold rowHeight. now rewrite H.
Qed.

End Stuck.

(** * The square of the specification *)

Section Sanity.

Import Examples.

(** The checks the specification lists for the square with corners (0,0),
    (10,0), (10,10), (0,10), in double precision. *)
Example square_area : calculatePolygonArea square10 = 100%float.
Proof. vm_compute. reflexivity. Qed.

Example square_inside : isPointInPolygon (pt 5 5) square10 = true.
Proof. vm_compute. reflexivity. Qed.

Example square_outside : isPointInPolygon (pt 15 5) square10 = false.
Proof. vm_compute. reflexivity. Qed.

Example square_edge_distance :
  distanceToPolygonEdge (pt 5 0) square10 = 0%float
  /\ distanceToPolygonEdge (pt 5 (-3)) square10 = 3%float.
Proof. split; vm_compute; reflexivity. Qed.

End Sanity.

(** * Lemmas for the further properties *)

(** ** The ray casting, in every number system *)

Section RayCasting.
Context {num : Type} {JSN : JSNumber num}.

Lemma loop_crossings (p : Point num) rest : forall pj inside,
  isPointInPolygon_loop p rest pj inside = xorb inside (crossings p pj rest).
Proof.
  induction rest as [|pi rest IH]; intros pj inside; simpl.
  - now rewrite xorb_false_r.
  - rewrite IH. destruct (intersect p pi pj), inside, (crossings p pi rest); reflexivity.
Qed.

Lemma crossings_app (p : Point num) l1 : forall pj l2,
  crossings p pj (l1 ++ l2)
  = xorb (crossings p pj l1) (crossings p (last l1 pj) l2).
Proof.
  induction l1 as [|a l1 IH]; intros pj l2.
  - reflexivity.
  - cbn [app crossings]. rewrite IH, xorb_assoc. now rewrite last_cons.
Qed.

Lemma last_default (A : Type) (l : list A) (a b : A) : l <> [] -> last l a = last l b.
Proof.
  induction l as [|c l IH]; [contradiction|]. intros _.
  destruct l as [|e l]; [reflexivity|]. cbn [last]. apply IH. discriminate.
Qed.

Lemma last_app_right (A : Type) (l1 l2 : list A) (d : A) :
  l2 <> [] -> last (l1 ++ l2) d = last l2 d.
Proof.
  intros H. induction l1 as [|a l1 IH]; [reflexivity|].
  cbn [app]. rewrite last_cons, <- IH.
  apply last_default. destruct l1, l2; try discriminate; contradiction.
Qed.

Lemma inside_crossings (p : Point num) (l : list (Point num)) d :
  isPointInPolygon p l = crossings p (last l d) l.
Proof.
  destruct l as [|p0 l]; [reflexivity|].
  unfold isPointInPolygon. rewrite loop_crossings.
  rewrite (last_default (l := p0 :: l) p0 d) by discriminate.
  apply xorb_false_l.
Qed.

Lemma inside_app (p : Point num) (l1 l2 : list (Point num)) :
  isPointInPolygon p (l1 ++ l2) = isPointInPolygon p (l2 ++ l1).
Proof.
  destruct l1 as [|a l1]; [now rewrite app_nil_r|].
  destruct l2 as [|b l2]; [now rewrite app_nil_r|].
  rewrite (inside_crossings p _ a), (inside_crossings p _ a).
  rewrite !crossings_app.
  rewrite !last_app_right by discriminate.
  rewrite xorb_comm.
  f_equal; f_equal; apply last_default; discriminate.
Qed.

End RayCasting.

(** ** The best of the lattices tried *)

Section BestOf.
Context {num : Type} {JSN : JSNumber num}.
Local Open Scope js_scope.

(** A loop whose steps never lower a measure establishes for each of its
    elements what the step of that element establishes, if that is kept
    when the measure grows. *)
Lemma forOf_mono (A S : Type) (m : S -> nat) (xs : list A)
    (body : A -> S -> option S) :
  (forall a s s', In a xs -> body a s = Some s' -> (m s <= m s')%nat) ->
  forall s s', forOf xs body s = Some s' -> (m s <= m s')%nat.
Proof.
  intros H s s'. apply (forOf_inv (fun t => (m s <= m t)%nat)); [|lia].
  intros a t t' Ha Ht E. specialize (H a t t' Ha E). lia.
Qed.

Lemma forOf_all (A S : Type) (m : S -> nat) (Q : A -> S -> Prop) (xs : list A)
    (body : A -> S -> option S) :
  (forall a s s', In a xs -> body a s = Some s' -> (m s <= m s')%nat) ->
  (forall a s s', In a xs -> body a s = Some s' -> Q a s') ->
  (forall a s s', Q a s -> (m s <= m s')%nat -> Q a s') ->
  forall s s', forOf xs body s = Some s' -> forall a, In a xs -> Q a s'.
Proof.
  intros Hm He Hs. induction xs as [|x xs IH]; intros s s' E a Ha; [contradiction|].
  cbn [forOf] in E. destruct (body x s) as [s1|] eqn:E1; [|discriminate].
  destruct Ha as [<-|Ha].
  - apply Hs with (s := s1); [eapply He; eauto; now left|].
    eapply forOf_mono; [|exact E]. intros b t t' Hb. apply Hm. now right.
  - eapply IH; eauto.
    + intros b t t' Hb. apply Hm. now right.
    + intros b t t' Hb. apply He. now right.
Qed.

Lemma keepBest_mono (cands : list (Circle num)) (b : Best num) :
  (maxCount b <= maxCount (keepBest cands b))%nat
  /\ (List.length cands <= maxCount (keepBest cands b))%nat.
Proof.
  unfold keepBest. destruct (maxCount b <? List.length cands)%nat eqn:E; simpl.
  - apply Nat.ltb_lt in E. lia.
  - apply Nat.ltb_ge in E. lia.
Qed.

Lemma tryLattice_mono fuel coarse pol bounds r d rowHeight angle offX offY
    (b b' : Best num) :
  tryLattice fuel coarse pol bounds r d rowHeight angle offX offY b = Some b' ->
  (maxCount b <= maxCount b')%nat.
Proof.
  unfold tryLattice. destruct (lattice _ _ _ _ _ _ _) as [cands|]; [|discriminate].
  intros [= <-]. apply keepBest_mono.
Qed.

(** The count of the best list so far is its length. *)
Lemma sweep_count fuel coarse pol radius spacing best :
  sweep fuel coarse pol radius spacing = Some best ->
  maxCount best = List.length (bestResult best).
Proof.
  unfold sweep.
  apply (forOf_inv (fun b => maxCount b = List.length (bestResult b)));
    [|reflexivity].
  intros angle b b' _ Hb.
  apply (forOf_inv (fun b => maxCount b = List.length (bestResult b)));
    [|exact Hb].
  intros offX b1 b1' _ Hb1.
  apply (forOf_inv (fun b => maxCount b = List.length (bestResult b)));
    [|exact Hb1].
  intros offY b2 b2' _ Hb2. unfold tryLattice.
  destruct (lattice _ _ _ _ _ _ _) as [cands|]; [|discriminate].
  intros [= <-]. unfold keepBest.
  destruct (maxCount b2 <? List.length cands)%nat; [reflexivity|exact Hb2].
Qed.

(** Every lattice the search tries is enumerated, and none has more
    candidates than the list returned. *)
Lemma search_best fuel coarse pol radius spacing res :
  let bounds := getBoundingBox pol in
  let d := radius * #2 + spacing in
  let rowHeight := d * sqrt #3 / #2 in
  search fuel coarse pol radius spacing = Some res ->
  forall angle offX offY,
    In angle angles -> In offX [#0; d / #2] -> In offY [#0; rowHeight / #2] ->
    exists cands,
      lattice fuel coarse pol bounds radius (stepsOf bounds d)
        (latticeAt bounds d rowHeight angle offX offY) = Some cands
      /\ (List.length cands <= List.length res)%nat.
Proof.
  intros bounds d rowHeight. unfold search.
  destruct (sweep _ _ _ _ _) as [best|] eqn:E; [|discriminate].
  intros [= <-]. rewrite <- (sweep_count _ _ _ _ _ E).
  revert E. unfold sweep. fold bounds. fold d. fold rowHeight.
  set (Q := fun angle offX offY (b : Best num) =>
              exists cands,
                lattice fuel coarse pol bounds radius (stepsOf bounds d)
                  (latticeAt bounds d rowHeight angle offX offY) = Some cands
                /\ (List.length cands <= maxCount b)%nat).
  assert (Hup : forall angle offX offY b b',
             Q angle offX offY b -> (maxCount b <= maxCount b')%nat ->
             Q angle offX offY b').
  { intros angle offX offY b b' (cands & Hl & Hle) Hb.
    exists cands. split; [exact Hl|lia]. }
  assert (Hin : forall angle offX b b',
             forOf [#0; rowHeight / #2]
               (fun offY best =>
                  tryLattice fuel coarse pol bounds radius d rowHeight
                    angle offX offY best) b = Some b' ->
             (maxCount b <= maxCount b')%nat
             /\ forall offY, In offY [#0; rowHeight / #2] -> Q angle offX offY b').
  { intros angle offX b b' Hb. split.
    - revert Hb. apply forOf_mono. intros offY t t' _. apply tryLattice_mono.
    - revert Hb.
      apply (forOf_all (@maxCount num) (fun offY b => Q angle offX offY b)).
      + intros offY t t' _. apply tryLattice_mono.
      + intros offY t t' _. unfold tryLattice.
        destruct (lattice _ _ _ _ _ _ _) as [cands|] eqn:El; [|discriminate].
        intros [= <-]. exists cands. split; [exact El|apply keepBest_mono].
      + intros offY t t'. apply Hup. }
  assert (Hmid : forall angle b b',
             forOf [#0; d / #2]
               (fun offX best =>
                  forOf [#0; rowHeight / #2]
                    (fun offY best =>
                       tryLattice fuel coarse pol bounds radius d rowHeight
                         angle offX offY best) best) b = Some b' ->
             (maxCount b <= maxCount b')%nat
             /\ forall offX offY, In offX [#0; d / #2] ->
                  In offY [#0; rowHeight / #2] -> Q angle offX offY b').
  { intros angle b b' Hb. split.
    - revert Hb. apply forOf_mono. intros offX t t' _ Ht.
      now apply Hin in Ht.
    - intros offX offY HX HY. revert Hb offX HX offY HY.
      apply (forOf_all (@maxCount num)
               (fun offX b => forall offY, In offY [#0; rowHeight / #2] ->
                                           Q angle offX offY b)).
      + intros offX t t' _ Ht. now apply Hin in Ht.
      + intros offX t t' _ Ht. now apply Hin in Ht.
      + intros offX t t' Ht Hle offY HY. eapply Hup; eauto. }
  intros E angle offX offY HA HX HY. revert E angle HA offX offY HX HY.
  apply (forOf_all (@maxCount num)
           (fun angle b => forall offX offY, In offX [#0; d / #2] ->
                             In offY [#0; rowHeight / #2] ->
                             Q angle offX offY b)).
  - intros angle t t' _ Ht. now apply Hmid in Ht.
  - intros angle t t' _ Ht. now apply Hmid in Ht.
  - intros angle t t' Ht Hle offX offY HX HY. eapply Hup; eauto.
Qed.

(** The list returned is the candidates of a lattice that was tried, or
    the empty list. *)
Lemma search_one_lattice fuel coarse pol radius spacing res :
  let bounds := getBoundingBox pol in
  let d := radius * #2 + spacing in
  let rowHeight := d * sqrt #3 / #2 in
  search fuel coarse pol radius spacing = Some res ->
  res = []
  \/ exists angle offX offY,
       In angle angles /\ In offX [#0; d / #2] /\ In offY [#0; rowHeight / #2]
       /\ lattice fuel coarse pol bounds radius (stepsOf bounds d)
            (latticeAt bounds d rowHeight angle offX offY) = Some res.
Proof.
  intros bounds d rowHeight.
  apply (search_inv
           (fun l => l = []
              \/ exists angle offX offY,
                   In angle angles /\ In offX [#0; d / #2]
                   /\ In offY [#0; rowHeight / #2]
                   /\ lattice fuel coarse pol bounds radius (stepsOf bounds d)
                        (latticeAt bounds d rowHeight angle offX offY) = Some l)).
  - now left.
  - intros angle offX offY cands HA HX HY Hl. right.
    exists angle, offX, offY. auto.
Qed.

End BestOf.

(** ** Polygons of fewer than two vertices *)

Section FewVertices.
Context {num : Type} {JSN : JSNumber num}.

(** An edge from a vertex to itself crosses no ray. *)
Lemma intersect_same (p v : Point num) : intersect p v v = false.
Proof. unfold intersect. now rewrite xorb_nilpotent. Qed.

Lemma inside_few (p : Point num) (pol : list (Point num)) :
  (List.length pol <= 1)%nat -> isPointInPolygon p pol = false.
Proof.
  destruct pol as [|v [|w pol]]; simpl; intros H; try lia; try reflexivity.
  now rewrite intersect_same.
Qed.

Lemma search_few fuel coarse (pol : list (Point num)) radius spacing res :
  (List.length pol <= 1)%nat ->
  search fuel coarse pol radius spacing = Some res -> res = [].
Proof.
  intros H. apply search_empty. intros p. unfold strictCheck.
  now rewrite inside_few.
Qed.
End FewVertices.

(** ** Separators in identifiers *)

Section Identifiers.
Local Open Scope string_scope.

Lemma append_cancel (s t1 t2 : string) : s ++ t1 = s ++ t2 -> t1 = t2.
Proof. induction s as [|c s IH]; simpl; [auto|]. intros [= H]. auto. Qed.

Lemma nodash_uint (u : Decimal.uint) : nodash (NilEmpty.string_of_uint u).
Proof. induction u; simpl; try split; try assumption; try discriminate; exact I. Qed.

Lemma nodash_digits (u : Decimal.uint) :
  exists c s, NilZero.string_of_uint u = String c s /\ c <> "-"%char /\ nodash s.
Proof.
  destruct u; simpl; eexists _, _; (split; [reflexivity|]);
    (split; [discriminate|]); try exact I; apply nodash_uint.
Qed.

(** Two texts cut at their first separator agree part by part. *)
Lemma split_dash (u1 : string) : forall u2 t1 t2,
  nodash u1 -> nodash u2 ->
  u1 ++ String "-" t1 = u2 ++ String "-" t2 -> u1 = u2 /\ t1 = t2.
Proof.
  induction u1 as [|c u1 IH]; intros [|c2 u2] t1 t2 H1 H2; simpl.
  - intros [= ->]. auto.
  - intros [= <- _]. destruct H2 as [H2 _]. now contradiction H2.
  - intros [= -> _]. destruct H1 as [H1 _]. now contradiction H1.
  - intros [= <- H]. destruct H1 as [_ H1], H2 as [_ H2].
    destruct (IH _ _ _ H1 H2 H) as [-> ->]. auto.
Qed.

(** The decimal text of an integer, as a template literal prints it. *)
Lemma int_text_inj (a b : Z) :
  NilZero.string_of_int (Z.to_int a) = NilZero.string_of_int (Z.to_int b) ->
  a = b.
Proof.
  intros H. apply DecimalZ.to_int_inj.
  assert (Hn : forall z, Z.to_int z <> Decimal.Pos Decimal.Nil
                         /\ Z.to_int z <> Decimal.Neg Decimal.Nil).
  { intros [|p|p]; simpl; split; try discriminate;
      intros [= E]; now apply DecimalPos.Unsigned.to_uint_nonnil in E. }
  destruct (Hn a) as [Ha1 Ha2], (Hn b) as [Hb1 Hb2].
  pose proof (NilZero.isi _ Ha1 Ha2) as Ea. pose proof (NilZero.isi _ Hb1 Hb2) as Eb.
  rewrite H in Ea. congruence.
Qed.

Lemma pair_text_inj (r1 c1 r2 c2 : Z) :
  NilZero.string_of_int (Z.to_int r1) ++ "-" ++ NilZero.string_of_int (Z.to_int c1)
  = NilZero.string_of_int (Z.to_int r2) ++ "-" ++ NilZero.string_of_int (Z.to_int c2) ->
  r1 = r2 /\ c1 = c2.
Proof.
  intros H.
  enough (NilZero.string_of_int (Z.to_int r1) = NilZero.string_of_int (Z.to_int r2)
          /\ NilZero.string_of_int (Z.to_int c1) = NilZero.string_of_int (Z.to_int c2))
    as [Hr Hc] by (split; now apply int_text_inj).
  revert H. change ("-" ++ ?t) with (String "-" t).
  destruct (Z.to_int r1) as [u1|u1], (Z.to_int r2) as [u2|u2];
    unfold NilZero.string_of_int at 1 3;
    destruct (nodash_digits u1) as (a1 & s1 & E1 & Ha1 & Hs1);
    destruct (nodash_digits u2) as (a2 & s2 & E2 & Ha2 & Hs2).
  - intros H. apply split_dash in H.
    + destruct H as [H1 H2]. split; [exact H1|exact H2].
    + rewrite E1. now split.
    + rewrite E2. now split.
  - rewrite E1. simpl. intros [= -> _]. now contradiction Ha1.
  - rewrite E2. simpl. intros [= <- _]. now contradiction Ha2.
  - simpl. intros [= H]. apply split_dash in H.
    + destruct H as [H1 H2]. split; [now rewrite H1|exact H2].
    + rewrite E1. now split.
    + rewrite E2. now split.
Qed.

End Identifiers.

(** ** More of exact arithmetic *)

Section ExactMore.
Local Open Scope R_scope.
Local Abbreviation point := Exact.point.
Local Abbreviation polygon := Exact.polygon.

(** ** Reversal of the vertex order *)

Lemma polygon_app l1 l2 : polygon (l1 ++ l2) = polygon l1 ++ polygon l2.
Proof. apply map_app. Qed.

Lemma crossings_rev_open (p : Point ereal) l : forall a b,
  crossings p (point a) (polygon (l ++ [b]))
  = crossings p (point b) (polygon (rev l ++ [a])).
Proof.
  induction l as [|c l IH]; intros a b.
  - simpl. now rewrite intersect_sym.
  - cbn [app rev Exact.polygon List.map crossings].
    change (List.map point (l ++ [b])) with (polygon (l ++ [b])).
    rewrite IH.
    change (List.map point ((rev l ++ [c]) ++ [a]))
      with (polygon ((rev l ++ [c]) ++ [a])).
    rewrite (polygon_app (rev l ++ [c]) [a]), crossings_app.
    rewrite last_polygon, last_last. simpl.
    rewrite xorb_false_r, (intersect_sym p a c). apply xorb_comm.
Qed.

(** ** The bounding box *)

Lemma box_inj a b c d a' b' c' d' :
  box a b c d = box a' b' c' d' -> a = a' /\ b = b' /\ c = c' /\ d = d'.
Proof. unfold box. intros [= -> -> -> ->]. auto. Qed.

Lemma box_fold_attained l : forall a b c d a' b' c' d',
  fold_left boxStep (polygon l) (box a b c d) = box a' b' c' d' ->
  (a' = a \/ exists p, In p l /\ fst p = a')
  /\ (b' = b \/ exists p, In p l /\ snd p = b')
  /\ (c' = c \/ exists p, In p l /\ fst p = c')
  /\ (d' = d \/ exists p, In p l /\ snd p = d').
Proof.
  induction l as [|p l IH]; intros a b c d a' b' c' d'.
  - simpl. intros H. apply box_inj in H. intuition.
  - cbn [Exact.polygon List.map fold_left]. rewrite boxStep_box.
    change (List.map point l) with (polygon l).
    intros H. apply IH in H. destruct H as (Ha & Hb & Hc & Hd).
    assert (Hl : forall (P : R * R -> Prop),
               (exists q, In q l /\ P q) -> exists q, In q (p :: l) /\ P q).
    { intros P (q & Hq & HP). exists q. split; [now right|exact HP]. }
    repeat split.
    + destruct Ha as [->|Ha]; [|right; now apply Hl].
      unfold Rmin. destruct (Rle_dec a (fst p)); [now left|].
      right. exists p. split; [now left|reflexivity].
    + destruct Hb as [->|Hb]; [|right; now apply Hl].
      unfold Rmin. destruct (Rle_dec b (snd p)); [now left|].
      right. exists p. split; [now left|reflexivity].
    + destruct Hc as [->|Hc]; [|right; now apply Hl].
      unfold Rmax. destruct (Rle_dec c (fst p)); [|now left].
      right. exists p. split; [now left|reflexivity].
    + destruct Hd as [->|Hd]; [|right; now apply Hl].
      unfold Rmax. destruct (Rle_dec d (snd p)); [|now left].
      right. exists p. split; [now left|reflexivity].
Qed.

(** A point the ray casting accepts lies in the bounding box, and not on
    its right or upper side. *)
Lemma inside_half_open (q : R * R) (ps : list (R * R)) :
  isPointInPolygon (point q) (polygon ps) = true ->
  exists a b c d,
    getBoundingBox (polygon ps) = box a b c d
    /\ a <= fst q < c /\ b <= snd q < d.
Proof.
  intros Hin.
  destruct ps as [|p0 l]; [discriminate|].
  destruct (@getBoundingBox_polygon (p0 :: l)) as (a & b & c & d & E & Hac & Hbd & Hbox);
    [discriminate|].
  exists a, b, c, d. split; [exact E|].
  pose proof (@inside_in_bounds (p0 :: l) (point q) 0 ltac:(lra) Hin) as Hout.
  rewrite E in Hout. unfold outsideBounds, box, Exact.point in Hout.
  cbn [minX minY maxX maxY x y] in Hout.
  change (sub (Fin ?s) (Fin ?t)) with (Fin (s - t)) in Hout.
  change (add (Fin ?s) (Fin ?t)) with (Fin (s + t)) in Hout.
  apply orb_false_elim in Hout. destruct Hout as [Hout H4].
  apply orb_false_elim in Hout. destruct Hout as [Hout H3].
  apply orb_false_elim in Hout. destruct Hout as [H1 H2].
  simpl in H1, H3.
  destruct (Rlt_dec (fst q) (a - 0)) as [|Ha]; [discriminate|].
  destruct (Rlt_dec (snd q) (b - 0)) as [|Hb]; [discriminate|].
  unfold isPointInPolygon in Hin. cbn [Exact.polygon List.map] in Hin.
  change (point p0 :: List.map point l) with (polygon (p0 :: l)) in Hin.
  rewrite last_polygon in Hin.
  assert (Hlast : In (last (p0 :: l) p0) (p0 :: l)).
  { rewrite last_cons. apply last_In. }
  pose proof (loop_true_edge _ _ _ _ Hin) as [Hf|(u & w & Hu & Hw & Hx)];
    [discriminate|].
  assert (Hsub : forall r, In r (last (p0 :: l) p0 :: p0 :: l) -> In r (p0 :: l)).
  { intros r [<-|Hr]; assumption. }
  apply Hsub in Hu, Hw.
  apply (@intersect_true (Fin (fst q)) (snd q) u w) in Hx.
  destruct Hx as [Hy Hx].
  pose proof (Hbox _ Hu) as [Hux Huy]. pose proof (Hbox _ Hw) as [Hwx Hwy].
  assert (HX : (fst w - fst u) * (snd q - snd u) / (snd w - snd u) + fst u <= c).
  { eapply Rle_trans; [apply crossing_between; lra|].
    unfold Rmax. destruct (Rle_dec (fst u) (fst w)); lra. }
  simpl in Hx.
  destruct (Rlt_dec (fst q) _) as [Hlt|]; [|discriminate].
  lra.
Qed.

(** ** The distance to a segment *)

Lemma dist_point (p q : R * R) :
  sqrt (dist2 (point p) (point q)) = Fin (dist p q).
Proof. apply centerDistance_points. Qed.

Lemma dist_mono (p q q' : R * R) :
  (fst p - fst q) * (fst p - fst q) + (snd p - snd q) * (snd p - snd q)
  <= (fst p - fst q') * (fst p - fst q') + (snd p - snd q') * (snd p - snd q') ->
  dist p q <= dist p q'.
Proof. intros H. unfold dist. now apply sqrt_le_1_alt. Qed.

(** The parameter the source clamps to the segment is where the distance
    is least. *)
Lemma clamp_least (A B U V t0 s : R) :
  0 < U * U + V * V ->
  t0 * (U * U + V * V) = A * U + B * V ->
  0 <= s <= 1 ->
  let t := Rmax 0 (Rmin 1 t0) in
  (A - t * U) * (A - t * U) + (B - t * V) * (B - t * V)
  <= (A - s * U) * (A - s * U) + (B - s * V) * (B - s * V).
Proof.
  intros Hl Ht0 Hs t.
  assert (H : 0 <= (s - t) * (s + t - 2 * t0)).
  { unfold t, Rmax, Rmin.
    destruct (Rle_dec 1 t0) as [H1|H1].
    - destruct (Rle_dec 0 1); [|lra].
      replace ((s - 1) * (s + 1 - 2 * t0)) with ((1 - s) * (2 * t0 - s - 1)) by ring.
      apply Rmult_le_pos; lra.
    - destruct (Rle_dec 0 t0) as [H0|H0].
      + replace ((s - t0) * (s + t0 - 2 * t0)) with ((s - t0) * (s - t0)) by ring.
        apply Rle_0_sqr.
      + apply Rmult_le_pos; lra. }
  clearbody t.
  assert (E : (A - s * U) * (A - s * U) + (B - s * V) * (B - s * V)
              - ((A - t * U) * (A - t * U) + (B - t * V) * (B - t * V))
              = (U * U + V * V) * ((s - t) * (s + t - 2 * t0))).
  { replace ((U * U + V * V) * ((s - t) * (s + t - 2 * t0)))
      with ((s - t) * ((s + t) * (U * U + V * V) - 2 * (t0 * (U * U + V * V))))
      by ring.
    rewrite Ht0. ring. }
  pose proof (Rmult_le_pos _ _ (Rlt_le _ _ Hl) H). lra.
Qed.

Lemma segment_least (p v w : R * R) :
  exists t,
    0 <= t <= 1
    /\ distanceToSegment (point p) (point v) (point w)
       = Fin (dist p (along v w t))
    /\ forall s, 0 <= s <= 1 -> dist p (along v w t) <= dist p (along v w s).
Proof.
  unfold distanceToSegment.
  change (dist2 (point v) (point w))
    with (Fin ((fst v - fst w) * (fst v - fst w)
               + (snd v - snd w) * (snd v - snd w))).
  set (l2 := (fst v - fst w) * (fst v - fst w) + (snd v - snd w) * (snd v - snd w)).
  change (eqb (Fin l2) (lit 0)) with (if Req_dec_T l2 0 then true else false).
  destruct (Req_dec_T l2 0) as [Z|NZ].
  - exists 0. split; [lra|].
    destruct (Rplus_sqr_eq_0 (fst v - fst w) (snd v - snd w) Z) as [Hx' Hy'].
    assert (Hx : fst w = fst v) by lra.
    assert (Hy : snd w = snd v) by lra.
    assert (Hal : forall s, along v w s = v).
    { intros s. unfold along. rewrite Hx, Hy. destruct v; simpl. f_equal; ring. }
    split.
    + rewrite dist_point, Hal. reflexivity.
    + intros s _. rewrite !Hal. lra.
  - assert (Hl : 0 < l2).
    { unfold l2 in *. 
      pose proof (Rle_0_sqr (fst v - fst w)). pose proof (Rle_0_sqr (snd v - snd w)).
      unfold Rsqr in *. lra. }
    set (t0 := ((fst p - fst v) * (fst w - fst v)
                + (snd p - snd v) * (snd w - snd v)) / l2).
    exists (Rmax 0 (Rmin 1 t0)).
    split.
    { unfold Rmax, Rmin. destruct (Rle_dec 1 t0); destruct (Rle_dec 0 1); try lra;
        destruct (Rle_dec 0 t0); lra. }
    split.
    + cbn [Exact.point x y fst snd].
      change (sub (Fin ?a) (Fin ?b)) with (Fin (a - b)).
      change (mul (Fin ?a) (Fin ?b)) with (Fin (a * b)).
      change (add (Fin ?a) (Fin ?b)) with (Fin (a + b)).
      rewrite div_Fin by exact NZ. fold t0.
      change (lit 1) with (Fin 1). change (lit 0) with (Fin 0).
      rewrite min_Fin, max_Fin.
      change (mul (Fin ?a) (Fin ?b)) with (Fin (a * b)).
      change (add (Fin ?a) (Fin ?b)) with (Fin (a + b)).
      change {| x := Fin ?a; y := Fin ?b |} with (point (a, b)).
      change {| x := Fin (fst p); y := Fin (snd p) |} with (point p).
      rewrite dist_point. reflexivity.
    + intros s Hs. apply dist_mono. unfold along. cbn [fst snd].
      pose proof (@clamp_least (fst p - fst v) (snd p - snd v)
                    (fst w - fst v) (snd w - snd v) t0 s) as H.
      cbv zeta in H.
      replace (fst p - (fst v + Rmax 0 (Rmin 1 t0) * (fst w - fst v)))
        with (fst p - fst v - Rmax 0 (Rmin 1 t0) * (fst w - fst v)) by ring.
      replace (snd p - (snd v + Rmax 0 (Rmin 1 t0) * (snd w - snd v)))
        with (snd p - snd v - Rmax 0 (Rmin 1 t0) * (snd w - snd v)) by ring.
      replace (fst p - (fst v + s * (fst w - fst v)))
        with (fst p - fst v - s * (fst w - fst v)) by ring.
      replace (snd p - (snd v + s * (snd w - snd v)))
        with (snd p - snd v - s * (snd w - snd v)) by ring.
      apply H; [| |exact Hs].
      * unfold l2 in Hl. nra.
      * unfold t0. unfold l2. field. unfold l2 in NZ. nra.
Qed.

(** ** The distance to the boundary *)

Lemma edge_fold (p : R * R) (ps : list (R * R)) (l : list nat) :
  forall S m,
    (forall i, In i l -> (i < List.length ps)%nat) ->
    leastOver p ps S m ->
    leastOver p ps (S ++ l)
      (fold_left
         (fun minDistance i =>
            min minDistance
              (distanceToSegment (point p) (vertex (polygon ps) i)
                 (vertex (polygon ps) ((i + 1) mod List.length ps))))
         l m).
Proof.
  induction l as [|i l IH]; intros S m Hl Hm.
  - now rewrite app_nil_r.
  - cbn [fold_left].
    replace (S ++ i :: l) with ((S ++ [i]) ++ l) by now rewrite <- app_assoc.
    apply IH; [intros j Hj; apply Hl; now right|].
    assert (Hi : (i < List.length ps)%nat) by (apply Hl; now left).
    rewrite !vertex_polygon
      by (try apply Nat.mod_upper_bound; lia).
    destruct (segment_least p (nth i ps (0, 0))
                (nth ((i + 1) mod List.length ps) ps (0, 0)))
      as (t & Ht & -> & Hleast).
    change (nth i ps (0, 0)) with (fst (edge ps i)) in *.
    change (nth ((i + 1) mod List.length ps) ps (0, 0))
      with (snd (edge ps i)) in *.
    right. destruct Hm as [[-> ->]|(D & -> & Hall & (j & u & Hj & Hu & HD))].
    + eexists. split; [reflexivity|]. split.
      * intros k s [<-|[]] Hs. now apply Hleast.
      * exists i, t. repeat split; [now left|lra|lra].
    + rewrite min_Fin. eexists. split; [reflexivity|]. split.
      * intros k s Hk Hs. apply in_app_or in Hk.
        destruct Hk as [Hk|[<-|[]]].
        -- eapply Rle_trans; [apply Rmin_l|]. now apply Hall.
        -- eapply Rle_trans; [apply Rmin_r|]. now apply Hleast.
      * unfold Rmin. destruct (Rle_dec D _).
        -- exists j, u. repeat split; [apply in_or_app; now left|lra|lra|exact HD].
        -- exists i, t. repeat split; [apply in_or_app; right; now left|lra|lra].
Qed.

Lemma boundary_least (p : R * R) (ps : list (R * R)) :
  ps <> [] ->
  exists D,
    distanceToPolygonEdge (point p) (polygon ps) = Fin D
    /\ (forall i s, (i < List.length ps)%nat -> 0 <= s <= 1 ->
          D <= dist p (along (fst (edge ps i)) (snd (edge ps i)) s))
    /\ exists i t, (i < List.length ps)%nat /\ 0 <= t <= 1
          /\ D = dist p (along (fst (edge ps i)) (snd (edge ps i)) t).
Proof.
  intros Hne. unfold distanceToPolygonEdge.
  assert (Hlen : List.length (polygon ps) = List.length ps) by apply length_map.
  rewrite Hlen.
  pose proof (@edge_fold p ps (seq 0 (List.length ps)) [] Exact.PInf) as H.
  cbn [app] in H.
  destruct H as [[_ E]|(D & E & Hall & (i & t & Hi & Ht & HD))].
  - intros i Hi. apply in_seq in Hi. lia.
  - left. split; reflexivity.
  - destruct ps; [contradiction|discriminate].
  - exists D. split; [exact E|]. split.
    + intros j s Hj Hs. apply Hall; [apply in_seq; lia|exact Hs].
    + exists i, t. apply in_seq in Hi. repeat split; try lra; try lia.
Qed.

(** ** The clearance of a returned circle, in the plane *)

(** In exact arithmetic every result of the search is a list of cells of
    one lattice, with indices that differ. *)
Lemma search_cells (I : list (Circle ereal) -> Prop) fuel coarse ps r s res :
  ps <> [] -> r * 2 + s <> 0 ->
  I [] ->
  (forall angle G idx, NoDup idx -> I (circles (Fin r) angle G idx)) ->
  search fuel coarse (polygon ps) (Fin r) (Fin s) = Some res -> I res.
Proof.
  intros Hps Hd H0 Hcells.
  apply (search_inv I); [exact H0|].
  intros angle offX offY cands Hangle HoffX HoffY.
  destruct (getBoundingBox_polygon Hps) as (a & b & c & d0 & E & _).
  rewrite E.
  change (add (mul (Fin r) (lit 2)) (Fin s)) with (Fin (r * 2 + s)) in *.
  rewrite rowHeight_Fin in *. rewrite stepsOf_box by lra.
  assert (Ha : exists alpha, angle = Fin alpha).
  { unfold angles in Hangle. simpl in Hangle.
    repeat (destruct Hangle as [<-|Hangle]; [eexists; reflexivity|]).
    contradiction. }
  assert (Hx : exists ox, offX = Fin ox).
  { rewrite div_two in HoffX. simpl in HoffX.
    repeat (destruct HoffX as [<-|HoffX]; [eexists; reflexivity|]).
    contradiction. }
  assert (Hy : exists oy, offY = Fin oy).
  { rewrite div_two in HoffY. simpl in HoffY.
    repeat (destruct HoffY as [<-|HoffY]; [eexists; reflexivity|]).
    contradiction. }
  destruct Ha as [alpha ->], Hx as [ox ->], Hy as [oy ->].
  rewrite latticeAt_grid. intros Hl.
  apply lattice_indices in Hl. destruct Hl as (idx & Hnd & ->).
  now apply Hcells.
Qed.

Lemma search_real_centers fuel coarse ps r s res :
  ps <> [] -> r * 2 + s <> 0 ->
  search fuel coarse (polygon ps) (Fin r) (Fin s) = Some res ->
  Forall (fun c => exists q, center c = point q) res.
Proof.
  intros Hps Hd. apply search_cells; [exact Hps|exact Hd|constructor|].
  intros angle G idx _. unfold circles. apply Forall_forall. intros ci Hc.
  apply in_map_iff in Hc. destruct Hc as (rc & <- & _).
  rewrite center_circleAt, rotated_grid. eexists; reflexivity.
Qed.

Lemma search_strict (num : Type) (JSN : JSNumber num) fuel coarse
    (pol : list (Point num)) (radius spacing : num) res :
  search fuel coarse pol radius spacing = Some res ->
  Forall (fun c => strictCheck pol radius (center c) = true) res.
Proof.
  apply search_inv; [constructor|].
  intros angle offX offY cands _ _ _.
  apply lattice_inv; [constructor|].
  intros row col c Hc Hs _. apply Forall_app. split; [exact Hc|].
  constructor; [|constructor]. now rewrite center_circleAt.
Qed.

(** ** The area *)

Lemma Rabs_half (a : R) : Rabs (a / 2) = Rabs a / 2.
Proof.
  unfold Rdiv. rewrite Rabs_mult. f_equal. apply Rabs_pos_eq.
  lra.
Qed.

(** Along a translated path the shoelace sum changes by a term of its
    two ends only. *)
Lemma path_sum_translate (t : R * R) (l : list (R * R)) : forall a,
  path_sum (List.map (translate t) (a :: l))
  = path_sum (a :: l)
    + (fst t * (snd (last l a) - snd a) - snd t * (fst (last l a) - fst a)).
Proof.
  induction l as [|b l IH]; intros a.
  - simpl. ring.
  - change (path_sum (List.map (translate t) (a :: b :: l)))
      with (cross (translate t a) (translate t b)
            + path_sum (List.map (translate t) (b :: l))).
    rewrite IH.
    change (path_sum (a :: b :: l)) with (cross a b + path_sum (b :: l)).
    rewrite (last_cons l a b).
    unfold cross, translate. cbn [fst snd]. ring.
Qed.

Lemma shoelace_translate (t : R * R) (ps : list (R * R)) :
  shoelace (List.map (translate t) ps) = shoelace ps.
Proof.
  destruct ps as [|a l]; [reflexivity|].
  unfold shoelace. cbn [List.map].
  replace ((translate t a :: List.map (translate t) l) ++ [translate t a])
    with (List.map (translate t) (a :: l ++ [a]))
    by (cbn [List.map]; now rewrite map_app).
  rewrite path_sum_translate, last_last. cbn [app]. ring.
Qed.

(** ** A rectangle *)

Lemma inside_rectangle (q : R * R) (a b c d : R) :
  a < c -> b < d ->
  isPointInPolygon (point q) (polygon [(a, b); (c, b); (c, d); (a, d)]) = true
  <-> a <= fst q < c /\ b <= snd q < d.
Proof.
  intros Hac Hbd. unfold isPointInPolygon.
  cbn [Exact.polygon List.map last isPointInPolygon_loop].
  change (point q) with {| x := Fin (fst q); y := Fin (snd q) |}.
  rewrite !intersect_Fin. unfold above. cbn [fst snd].
  destruct (Rlt_dec (snd q) b) as [Hb|Hb], (Rlt_dec (snd q) d) as [Hd|Hd];
    try (exfalso; lra);
    cbn [xorb andb negb]; try (split; [discriminate|lra]).
  rewrite !div_Fin by lra.
  change (add (Fin ?u) (Fin ?v)) with (Fin (u + v)).
  replace ((a - a) * (snd q - b) / (d - b) + a) with a by (field; lra).
  replace ((c - c) * (snd q - d) / (b - d) + c) with c by (field; lra).
  change (ltb (Fin ?u) (Fin ?v)) with (if Rlt_dec u v then true else false).
  destruct (Rlt_dec (fst q) a), (Rlt_dec (fst q) c); cbn [negb];
    split; intros; try lra; try discriminate; try reflexivity.
Qed.

(** ** Every cell in range is met *)

(** A loop over integers that has finished has run past its bound. *)
Lemma forUpTo_Z_done (S : Type) (I : Z -> S -> Prop)
    (body : ereal -> S -> option S) (n : Z) :
  (forall k s s', (k <= n)%Z -> I k s -> body (Fin (IZR k)) s = Some s' ->
                  I (k + 1)%Z s') ->
  forall fuel lo s s',
    I lo s -> forUpTo fuel (Fin (IZR n)) body (Fin (IZR lo)) s = Some s' ->
    exists k, (lo <= k)%Z /\ (n < k)%Z /\ I k s'.
Proof.
  intros Hbody. induction fuel as [|fuel IH]; intros lo s s' Hs; cbn [forUpTo];
    [discriminate|].
  rewrite leb_IZR. destruct (lo <=? n)%Z eqn:E.
  - destruct (body (Fin (IZR lo)) s) as [s1|] eqn:E1; [|discriminate].
    rewrite succ_IZR. intros H. apply IH in H.
    + destruct H as (k & Hk & Hn & HI). exists k. repeat split; [lia|lia|exact HI].
    + eapply Hbody; eauto. now apply Z.leb_le.
  - intros [= <-]. exists lo. apply Z.leb_gt in E. repeat split; [lia|lia|exact Hs].
Qed.

Lemma lattice_complete fuel coarse pol bounds r0 n angle G res :
  lattice fuel coarse pol bounds r0 (Fin (IZR n)) (gridLattice angle G)
  = Some res ->
  exists idx,
    NoDup idx /\ res = circles r0 angle G idx
    /\ forall rc, (- n <= fst rc <= n)%Z -> (- n <= snd rc <= n)%Z ->
                  accepted coarse pol bounds r0 G rc -> In rc idx.
Proof.
  unfold lattice. rewrite neg_IZR. intros H.
  apply (@forUpTo_Z_done _
           (fun k cands => exists idx,
                NoDup idx /\ cands = circles r0 angle G idx
                /\ (forall rc, In rc idx -> (fst rc < k)%Z)
                /\ forall rc, (- n <= fst rc < k)%Z -> (- n <= snd rc <= n)%Z ->
                     accepted coarse pol bounds r0 G rc -> In rc idx)) in H.
  - destruct H as (k & _ & Hk & idx & Hnd & E & _ & Hall).
    exists idx. repeat split; try assumption.
    intros rc Hr Hc. apply Hall; lia.
  - intros k cands cands' Hk (idx & Hnd & E & Hlt & Hall) Hinner.
    apply (@forUpTo_Z_done _
             (fun c cands => exists idx,
                  NoDup idx /\ cands = circles r0 angle G idx
                  /\ (forall rc, In rc idx ->
                                 (fst rc < k \/ (fst rc = k /\ snd rc < c))%Z)
                  /\ forall rc,
                       ((- n <= fst rc < k /\ - n <= snd rc <= n)
                        \/ (fst rc = k /\ - n <= snd rc < c))%Z ->
                       accepted coarse pol bounds r0 G rc -> In rc idx))
      in Hinner.
    + destruct Hinner as (c & _ & Hc & idx' & Hnd' & E' & Hlt' & Hall').
      exists idx'. repeat split; try assumption.
      * intros rc Hrc. apply Hlt' in Hrc. lia.
      * intros rc Hr Hcol. apply Hall'.
        destruct (Z.eq_dec (fst rc) k); [right|left]; lia.
    + intros c s s' Hc (idx' & Hnd' & E' & Hlt' & Hall') [= <-].
      unfold cell. rewrite rotated_grid.
      destruct (coarse && outsideBounds bounds r0 _) eqn:Eo;
        [|destruct (strictCheck pol r0 _) eqn:Es].
      * exists idx'. repeat split; try assumption.
        -- intros rc Hrc. apply Hlt' in Hrc. lia.
        -- intros rc Hrc Hacc.
           destruct (Z.eq_dec (fst rc) k) as [Hk'|Hk'];
             [destruct (Z.eq_dec (snd rc) c) as [Hc'|Hc']|].
           ++ exfalso. destruct rc as [rr cc]. simpl in Hk', Hc'. subst.
              destruct Hacc as [Ha _]. congruence.
           ++ apply Hall'; [|exact Hacc]. lia.
           ++ apply Hall'; [|exact Hacc]. lia.
      * exists (idx' ++ [(k, c)]). repeat split.
        -- apply NoDup_app; [exact Hnd'|repeat constructor; intros []| ].
           intros rc Hrc [<-|[]]. apply Hlt' in Hrc. simpl in Hrc. lia.
        -- rewrite E'. unfold circles. now rewrite map_app.
        -- intros rc Hrc. apply in_app_or in Hrc.
           destruct Hrc as [Hrc|[<-|[]]]; [apply Hlt' in Hrc; lia|simpl; lia].
        -- intros rc Hrc Hacc. apply in_or_app.
           destruct (Z.eq_dec (fst rc) k) as [Hk'|Hk'];
             [destruct (Z.eq_dec (snd rc) c) as [Hc'|Hc']|].
           ++ right. left. destruct rc; simpl in *; congruence.
           ++ left. apply Hall'; [|exact Hacc]. lia.
           ++ left. apply Hall'; [|exact Hacc]. lia.
      * exists idx'. repeat split; try assumption.
        -- intros rc Hrc. apply Hlt' in Hrc. lia.
        -- intros rc Hrc Hacc.
           destruct (Z.eq_dec (fst rc) k) as [Hk'|Hk'];
             [destruct (Z.eq_dec (snd rc) c) as [Hc'|Hc']|].
           ++ exfalso. destruct rc as [rr cc]. simpl in Hk', Hc'. subst.
              destruct Hacc as [_ Ha]. congruence.
           ++ apply Hall'; [|exact Hacc]. lia.
           ++ apply Hall'; [|exact Hacc]. lia.
    + exists idx. repeat split; try assumption.
      * intros rc Hrc. apply Hlt in Hrc. lia.
      * intros rc [Hrc|Hrc] Hacc; [apply Hall; [lia|lia|exact Hacc]|lia].
  - exists []. repeat split; [constructor|contradiction|intros rc Hrc; lia].
Qed.

(** ** The loops reach every cell that lies in the bounding box *)

Lemma Zceil_ge (u : R) : u <= IZR (Exact.Zceil u).
Proof.
  unfold Exact.Zceil. rewrite minus_IZR.
  destruct (archimed (- u)) as [_ H]. lra.
Qed.

Lemma abs_of_sqr (u v : R) : 0 <= v -> u * u <= v * v -> - v <= u <= v.
Proof. intros Hv H. split; nra. Qed.

Lemma sqrt3_ge_1 : 1 <= R_sqrt.sqrt 3.
Proof.
  rewrite <- sqrt_1 at 1. apply sqrt_le_1_alt. lra.
Qed.

Lemma rem2_IZR (row : Z) : -1 <= IZR (Z.rem row 2) <= 1.
Proof.
  destruct (rem2_cases row) as (q & _ & [H|[H|H]]); rewrite H; simpl; lra.
Qed.

Lemma cell_in_range (G : grid) (a b c d0 : R) (rc : Z * Z) :
  0 < g_d G -> g_cos G * g_cos G + g_sin G * g_sin G = 1 ->
  g_h G = g_d G * R_sqrt.sqrt 3 / 2 ->
  g_cx G = (a + c) / 2 -> g_cy G = (b + d0) / 2 ->
  0 <= g_ox G <= g_d G / 2 -> 0 <= g_oy G <= g_h G / 2 ->
  a <= fst (cellPoint G rc) <= c -> b <= snd (cellPoint G rc) <= d0 ->
  let n := (Exact.Zceil
              (R_sqrt.sqrt ((c - a) * (c - a) + (d0 - b) * (d0 - b)) / g_d G)
            + 2)%Z in
  (- n <= fst rc <= n)%Z /\ (- n <= snd rc <= n)%Z.
Proof.
  intros Hd Hcs Hh Hcx Hcy Hox Hoy HX HY n.
  destruct rc as [row col]. unfold cellPoint in HX, HY. cbn [fst snd] in *.
  set (rho := IZR (Z.rem row 2)) in *.
  assert (Hrho : -1 <= rho <= 1) by apply rem2_IZR.
  set (hx := IZR col * g_d G + rho * (g_d G / 2) + g_ox G) in *.
  set (hy := IZR row * g_h G + g_oy G) in *.
  set (D2 := (c - a) * (c - a) + (d0 - b) * (d0 - b)).
  set (diag := R_sqrt.sqrt D2).
  assert (HD2 : 0 <= D2).
  { unfold D2. apply Rplus_le_le_0_compat; apply Rle_0_sqr. }
  assert (Hdiag : 0 <= diag) by (unfold diag; apply sqrt_pos).
  assert (Hdd : diag * diag = D2) by (unfold diag; now apply sqrt_sqrt).
  assert (Hnorm : hx * hx + hy * hy <= D2 / 4).
  { replace (hx * hx + hy * hy)
      with (((hx * g_cos G - hy * g_sin G) * (hx * g_cos G - hy * g_sin G)
             + (hx * g_sin G + hy * g_cos G) * (hx * g_sin G + hy * g_cos G)))
      by (transitivity ((hx * hx + hy * hy)
                        * (g_cos G * g_cos G + g_sin G * g_sin G));
          [ring|rewrite Hcs; ring]).
    set (u := hx * g_cos G - hy * g_sin G) in *.
    set (v := hx * g_sin G + hy * g_cos G) in *.
    rewrite Hcx in HX. rewrite Hcy in HY.
    assert (Hu : u * u <= (c - a) * (c - a) / 4) by nra.
    assert (Hv : v * v <= (d0 - b) * (d0 - b) / 4) by nra.
    unfold D2. lra. }
  assert (Hhx : - (diag / 2) <= hx <= diag / 2).
  { apply abs_of_sqr; [lra|]. pose proof (Rle_0_sqr hy) as Hs. unfold Rsqr in Hs.
    nra. }
  assert (Hhy : - (diag / 2) <= hy <= diag / 2).
  { apply abs_of_sqr; [lra|]. pose proof (Rle_0_sqr hx) as Hs. unfold Rsqr in Hs.
    nra. }
  set (q := diag / g_d G).
  assert (Hq : diag = q * g_d G) by (unfold q; field; lra).
  assert (Hq0 : 0 <= q).
  { unfold q. apply Rmult_le_pos; [exact Hdiag|].
    left. now apply Rinv_0_lt_compat. }
  assert (Hn : q + 2 <= IZR n).
  { unfold n. rewrite plus_IZR.
    pose proof (Zceil_ge (R_sqrt.sqrt ((c - a) * (c - a) + (d0 - b) * (d0 - b))
                          / g_d G)) as Hz.
    unfold q, diag, D2. lra. }
  pose proof sqrt3_ge_1 as H3.
  assert (Hh0 : 0 < g_h G).
  { rewrite Hh. assert (0 < g_d G * R_sqrt.sqrt 3)
      by (apply Rmult_lt_0_compat; lra). lra. }
  assert (Hrow : - q - 1 <= IZR row <= q).
  { unfold hy in Hhy. rewrite Hh in *.
    set (w := R_sqrt.sqrt 3) in *. set (d := g_d G) in *.
    assert (H1 : IZR row * (d * w / 2) <= q * d / 2) by lra.
    assert (H2 : - (q * d / 2) - d * w / 2 / 2 <= IZR row * (d * w / 2)) by lra.
    split.
    - destruct (Rle_dec (IZR row) 0) as [Hp|Hp]; [|lra].
      assert (Hw : - q - w / 2 <= IZR row * w).
      { apply Rmult_le_reg_r with (r := d / 2); [lra|].
        replace (IZR row * w * (d / 2)) with (IZR row * (d * w / 2)) by field.
        replace ((- q - w / 2) * (d / 2)) with (- (q * d / 2) - d * w / 2 / 2)
          by field.
        lra. }
      assert (Hw2 : - q / w - 1 / 2 <= IZR row).
      { apply Rmult_le_reg_r with (r := w); [lra|].
        replace ((- q / w - 1 / 2) * w) with (- q - w / 2) by (field; lra).
        lra. }
      assert (Hqw : q / w <= q).
      { apply Rmult_le_reg_r with (r := w); [lra|].
        replace (q / w * w) with q by (field; lra).
        assert (q * 1 <= q * w) by (apply Rmult_le_compat_l; lra). lra. }
      unfold Rdiv in Hw2, Hqw. lra.
    - destruct (Rle_dec 0 (IZR row)) as [Hp|Hp]; [|lra].
      assert (IZR row * w <= q).
      { apply Rmult_le_reg_r with (r := d / 2); [lra|].
        replace (IZR row * w * (d / 2)) with (IZR row * (d * w / 2)) by field.
        lra. }
      assert (IZR row * 1 <= IZR row * w) by (apply Rmult_le_compat_l; lra).
      lra. }
  assert (Hcol : - q - 2 <= IZR col <= q + 2).
  { unfold hx in Hhx. set (d := g_d G) in *.
    assert (H1 : IZR col * d <= q * d / 2 + d / 2) by nra.
    assert (H2 : - (q * d / 2) - d / 2 - d / 2 <= IZR col * d) by nra.
    split.
    - apply Rmult_le_reg_r with (r := d); [lra|]. nra.
    - apply Rmult_le_reg_r with (r := d); [lra|]. nra. }
  assert (Hr1 : IZR row <= IZR n) by lra.
  assert (Hr2 : IZR (- n) <= IZR row) by (rewrite opp_IZR; lra).
  assert (Hc1 : IZR col <= IZR n) by lra.
  assert (Hc2 : IZR (- n) <= IZR col) by (rewrite opp_IZR; lra).
  apply le_IZR in Hr1, Hr2, Hc1, Hc2. lia.
Qed.

(** ** The identifiers of the cells *)

Lemma Zceil_IZR (z : Z) : Exact.Zceil (IZR z) = z.
Proof.
  unfold Exact.Zceil. rewrite <- opp_IZR.
  rewrite (@up_floor (IZR (- z)) (- z)%Z); [lia|].
  rewrite plus_IZR. lra.
Qed.

Lemma toString_IZR (z : Z) :
  toString (Fin (IZR z)) = NilZero.string_of_int (Z.to_int z).
Proof.
  simpl. rewrite Zceil_IZR. destruct (Req_dec_T (IZR z) (IZR z)); [reflexivity|].
  contradiction.
Qed.

Lemma circleId_inj (angle : ereal) (rc1 rc2 : Z * Z) :
  circleId angle (Fin (IZR (fst rc1))) (Fin (IZR (snd rc1)))
  = circleId angle (Fin (IZR (fst rc2))) (Fin (IZR (snd rc2))) ->
  rc1 = rc2.
Proof.
  unfold circleId. rewrite !toString_IZR. intros H.
  apply append_cancel in H. simpl in H. injection H as H.
  apply pair_text_inj in H. destruct rc1, rc2; simpl in *.
  destruct H; congruence.
Qed.

Lemma circles_ids r0 angle G idx :
  NoDup idx -> NoDup (List.map (@circle_id ereal) (circles r0 angle G idx)).
Proof.
  intros H. unfold circles. rewrite map_map.
  cbn [circleAt circle_id gridLattice lat_angle].
  induction H as [|rc l Hnin Hnd IH]; simpl; constructor; [|exact IH].
  intros Hin. apply in_map_iff in Hin. destruct Hin as (rc' & E & Hin').
  apply circleId_inj in E. congruence.
Qed.

End ExactMore.

(** ** Double precision: counters at infinity *)

Section Diverge.
Local Open Scope float_scope.

Lemma float_of_SF (f : float) (s : spec_float) :
  Prim2SF f = s -> f = SF2Prim s.
Proof. intros <-. symmetry. apply SF2Prim_Prim2SF. Qed.

(** A double above zero is a positive finite number or [+Infinity]. *)
Lemma positive_cases (f : float) :
  (0 <? f) = true ->
  (exists m e, Prim2SF f = S754_finite false m e) \/ f = infinity.
Proof.
  rewrite FloatAxioms.ltb_spec. unfold SFltb, SFcompare.
  change (Prim2SF 0) with (S754_zero false).
  destruct (Prim2SF f) as [s|s| |s m e] eqn:E; try discriminate.
  - destruct s; [discriminate|]. intros _. right. now apply float_of_SF in E.
  - destruct s; [discriminate|]. intros _. left. now exists m, e.
Qed.

Lemma finite_cases (f : float) :
  (0 <? f) = true -> (f <? infinity) = true ->
  exists m e, Prim2SF f = S754_finite false m e.
Proof.
  intros H0 Hinf. destruct (positive_cases H0) as [H| ->]; [exact H|].
  now vm_compute in Hinf.
Qed.

Lemma infinity_div (d : float) :
  (0 <? d) = true -> (d <? infinity) = true -> infinity / d = infinity.
Proof.
  intros H0 Hinf. destruct (finite_cases H0 Hinf) as (m & e & E).
  apply (@float_of_SF _ (S754_infinity false)).
  rewrite FloatAxioms.div_spec, E. reflexivity.
Qed.


Lemma nan_add (c : float) : nan + c = nan.
Proof.
  apply (@float_of_SF _ (S754_nan)).
  rewrite FloatAxioms.add_spec. reflexivity.
Qed.





Lemma cell_rejected coarse (pol : list (Point float)) bounds r L row col :
  strictCheck pol r (rotated L row col) = false ->
  cell coarse pol bounds r L row col [] = [].
Proof.
  intros H. unfold cell. rewrite H.
  now destruct (coarse && outsideBounds bounds r (rotated L row col)).
Qed.

(** With [steps = Infinity] the counters start at [-Infinity] and the
    increment leaves them there. *)
Lemma lattice_infinite coarse (pol : list (Point float)) bounds r L :
  strictCheck pol r (rotated L neg_infinity neg_infinity) = false ->
  forall fuel, lattice fuel coarse pol bounds r infinity L = None.
Proof.
  intros H. apply lattice_stuck; try reflexivity.
  change (neg infinity) with neg_infinity. now apply cell_rejected.
Qed.

End Diverge.

(** ** Double precision: the order of the numbers *)

Section FloatOrder.
Local Open Scope float_scope.

(** The comparison of the format is a total order on what is not [NaN]. *)
Lemma SFleb_trans (x y z : spec_float) :
  SFleb x y = true -> SFleb y z = true -> SFleb x z = true.
Proof.
  unfold SFleb, SFcompare.
  destruct x as [sx|sx| |sx mx ex], y as [sy|sy| |sy my ey], z as [sz|sz| |sz mz ez];
    try discriminate; try reflexivity;
    try (destruct sx; try discriminate; try reflexivity);
    try (destruct sy; try discriminate; try reflexivity);
    try (destruct sz; try discriminate; try reflexivity).
  all: change (Pcompare ?a ?b Eq) with (Pos.compare a b).
  all: destruct (Z.compare_spec ex ey), (Z.compare_spec ey ez), (Z.compare_spec ex ez);
    try discriminate; try reflexivity; try lia.
  all: subst.
  all: destruct (Pos.compare_spec mx my), (Pos.compare_spec my mz), (Pos.compare_spec mx mz);
    simpl; try discriminate; try reflexivity; try lia.
Qed.

Lemma SFleb_refl (x : spec_float) : x <> S754_nan -> SFleb x x = true.
Proof.
  unfold SFleb, SFcompare. destruct x as [s|s| |s m e]; try reflexivity.
  - destruct s; reflexivity.
  - contradiction.
  - intros _. destruct s; rewrite Z.compare_refl;
      change (Pcompare m m Eq) with (Pos.compare m m); now rewrite Pos.compare_refl.
Qed.

Lemma SFltb_leb (x y : spec_float) : SFltb x y = true -> SFleb x y = true.
Proof. unfold SFltb, SFleb. destruct (SFcompare x y) as [[]|]; congruence. Qed.

Lemma SFltb_total (x y : spec_float) :
  x <> S754_nan -> y <> S754_nan ->
  SFltb x y = false -> SFleb y x = true.
Proof.
  unfold SFltb, SFleb, SFcompare.
  destruct x as [sx|sx| |sx mx ex], y as [sy|sy| |sy my ey];
    try contradiction; intros _ _;
    try (destruct sx); try (destruct sy); try discriminate; try reflexivity.
  all: change (Pcompare ?a ?b Eq) with (Pos.compare a b).
  all: rewrite (Z.compare_antisym ex ey), (Pos.compare_antisym mx my).
  all: destruct (ex ?= ey)%Z; simpl; try discriminate; try reflexivity;
       destruct (mx ?= my)%positive; simpl; try discriminate; try reflexivity.
Qed.

Lemma is_nan_SF (f : float) : is_nan f = false -> Prim2SF f <> S754_nan.
Proof.
  unfold is_nan. rewrite FloatAxioms.eqb_spec. intros H E. rewrite E in H.
  discriminate.
Qed.

Lemma SF_is_nan (f : float) : Prim2SF f <> S754_nan -> is_nan f = false.
Proof.
  unfold is_nan. rewrite FloatAxioms.eqb_spec. intros H.
  destruct (Prim2SF f) as [s|s| |s m e].
  - reflexivity.
  - now destruct s.
  - contradiction.
  - unfold SFeqb, SFcompare.
    change (Pcompare m m Eq) with (Pos.compare m m).
    destruct s; cbv beta iota; now rewrite Z.compare_refl, Pos.compare_refl.
Qed.

Lemma leb_refl (a : float) : is_nan a = false -> (a <=? a) = true.
Proof.
  intros H. rewrite FloatAxioms.leb_spec. apply SFleb_refl. now apply is_nan_SF.
Qed.

Lemma leb_trans (a b c : float) :
  (a <=? b) = true -> (b <=? c) = true -> (a <=? c) = true.
Proof. rewrite !FloatAxioms.leb_spec. apply SFleb_trans. Qed.

Lemma ltb_leb (a b : float) : (a <? b) = true -> (a <=? b) = true.
Proof. rewrite FloatAxioms.ltb_spec, FloatAxioms.leb_spec. apply SFltb_leb. Qed.

Lemma not_ltb_leb (a b : float) :
  is_nan a = false -> is_nan b = false -> (a <? b) = false -> (b <=? a) = true.
Proof.
  intros Ha Hb. rewrite FloatAxioms.ltb_spec, FloatAxioms.leb_spec.
  apply SFltb_total; now apply is_nan_SF.
Qed.

(** [Math.min] and [Math.max] of two numbers: one of the two, below or
    above both. *)
Lemma min_spec (a b : float) :
  is_nan a = false -> is_nan b = false ->
  (Binary64.min a b = a \/ Binary64.min a b = b)
  /\ (Binary64.min a b <=? a) = true /\ (Binary64.min a b <=? b) = true.
Proof.
  intros Ha Hb. unfold Binary64.min. rewrite Ha, Hb. cbn [orb].
  destruct (a <? b) eqn:E1.
  - split; [now left|]. split; [now apply leb_refl|now apply ltb_leb].
  - destruct (b <? a) eqn:E2.
    + split; [now right|]. split; [now apply ltb_leb|now apply leb_refl].
    + destruct (get_sign a).
      * split; [now left|]. split; [now apply leb_refl|now apply not_ltb_leb].
      * split; [now right|]. split; [now apply not_ltb_leb|now apply leb_refl].
Qed.

Lemma max_spec (a b : float) :
  is_nan a = false -> is_nan b = false ->
  (Binary64.max a b = a \/ Binary64.max a b = b)
  /\ (a <=? Binary64.max a b) = true /\ (b <=? Binary64.max a b) = true.
Proof.
  intros Ha Hb. unfold Binary64.max. rewrite Ha, Hb. cbn [orb].
  destruct (a <? b) eqn:E1.
  - split; [now right|]. split; [now apply ltb_leb|now apply leb_refl].
  - destruct (b <? a) eqn:E2.
    + split; [now left|]. split; [now apply leb_refl|now apply ltb_leb].
    + destruct (get_sign a).
      * split; [now right|]. split; [now apply not_ltb_leb|now apply leb_refl].
      * split; [now left|]. split; [now apply leb_refl|now apply not_ltb_leb].
Qed.

End FloatOrder.

(** ** Double precision: the bounding box *)

Section FloatBox.
Local Open Scope float_scope.

Lemma leb_infinity (v : float) : (infinity <=? v) = true -> v = infinity.
Proof.
  rewrite FloatAxioms.leb_spec. change (Prim2SF infinity) with (S754_infinity false).
  intros H. apply (@float_of_SF _ (S754_infinity false)).
  destruct (Prim2SF v) as [s|s| |s m e]; try discriminate.
  now destruct s.
Qed.

Lemma leb_neg_infinity (v : float) : (v <=? neg_infinity) = true -> v = neg_infinity.
Proof.
  rewrite FloatAxioms.leb_spec. change (Prim2SF neg_infinity) with (S754_infinity true).
  intros H. apply (@float_of_SF _ (S754_infinity true)).
  destruct (Prim2SF v) as [s|s| |s m e]; try discriminate;
    destruct s; try discriminate; reflexivity.
Qed.

(** The least of a list of numbers, from [Math.min] applied along it. *)
Lemma fold_min_spec (l : list float) : forall acc,
  is_nan acc = false -> (forall v, In v l -> is_nan v = false) ->
  let m := fold_left Binary64.min l acc in
  is_nan m = false /\ (m <=? acc) = true
  /\ (forall v, In v l -> (m <=? v) = true) /\ (m = acc \/ In m l).
Proof.
  induction l as [|a l IH]; intros acc Hacc Hl; cbn [fold_left].
  - repeat split; [exact Hacc|now apply leb_refl|contradiction|now left].
  - assert (Ha : is_nan a = false) by (apply Hl; now left).
    destruct (@min_spec acc a Hacc Ha) as (Hc & H1 & H2).
    assert (Hn : is_nan (Binary64.min acc a) = false)
      by (destruct Hc as [->| ->]; assumption).
    destruct (IH _ Hn (fun v Hv => Hl v (or_intror Hv))) as (Hm & Hle & Hall & Hin).
    repeat split.
    + exact Hm.
    + eapply leb_trans; eauto.
    + intros v [<-|Hv]; [eapply leb_trans; eauto|now apply Hall].
    + destruct Hin as [Hin|Hin]; [|now right; right].
      rewrite Hin. destruct Hc as [->| ->]; [now left|right; now left].
Qed.

Lemma fold_max_spec (l : list float) : forall acc,
  is_nan acc = false -> (forall v, In v l -> is_nan v = false) ->
  let m := fold_left Binary64.max l acc in
  is_nan m = false /\ (acc <=? m) = true
  /\ (forall v, In v l -> (v <=? m) = true) /\ (m = acc \/ In m l).
Proof.
  induction l as [|a l IH]; intros acc Hacc Hl; cbn [fold_left].
  - repeat split; [exact Hacc|now apply leb_refl|contradiction|now left].
  - assert (Ha : is_nan a = false) by (apply Hl; now left).
    destruct (@max_spec acc a Hacc Ha) as (Hc & H1 & H2).
    assert (Hn : is_nan (Binary64.max acc a) = false)
      by (destruct Hc as [->| ->]; assumption).
    destruct (IH _ Hn (fun v Hv => Hl v (or_intror Hv))) as (Hm & Hle & Hall & Hin).
    repeat split.
    + exact Hm.
    + eapply leb_trans; eauto.
    + intros v [<-|Hv]; [eapply leb_trans; eauto|now apply Hall].
    + destruct Hin as [Hin|Hin]; [|now right; right].
      rewrite Hin. destruct Hc as [->| ->]; [now left|right; now left].
Qed.

(** The four bounds of [getBoundingBox] are four folds. *)
Lemma box_folds (pol : list (Point float)) : forall b,
  let bb := fold_left
              (fun b p =>
                 {| minX := min (minX b) (x p); minY := min (minY b) (y p);
                    maxX := max (maxX b) (x p); maxY := max (maxY b) (y p) |})
              pol b in
  minX bb = fold_left Binary64.min (List.map (@x float) pol) (minX b)
  /\ minY bb = fold_left Binary64.min (List.map (@y float) pol) (minY b)
  /\ maxX bb = fold_left Binary64.max (List.map (@x float) pol) (maxX b)
  /\ maxY bb = fold_left Binary64.max (List.map (@y float) pol) (maxY b).
Proof.
  induction pol as [|p pol IH]; intros b; cbn [fold_left List.map].
  - auto.
  - apply IH.
Qed.

Lemma attained_min (l : list float) (m : float) :
  l <> [] -> (forall v, In v l -> (m <=? v) = true) ->
  m = infinity \/ In m l -> In m l.
Proof.
  intros Hne Hall [->|H]; [|exact H].
  destruct l as [|v l]; [contradiction|].
  left. apply leb_infinity. apply Hall. now left.
Qed.

Lemma attained_max (l : list float) (m : float) :
  l <> [] -> (forall v, In v l -> (v <=? m) = true) ->
  m = neg_infinity \/ In m l -> In m l.
Proof.
  intros Hne Hall [->|H]; [|exact H].
  destruct l as [|v l]; [contradiction|].
  left. apply leb_neg_infinity. apply Hall. now left.
Qed.

(** [Math.abs] clears the sign: what it returns is not below zero. *)
Lemma abs_not_negative (v : float) : (abs v <? 0) = false.
Proof.
  rewrite FloatAxioms.ltb_spec, FloatAxioms.abs_spec.
  change (Prim2SF 0) with (S754_zero false).
  destruct (Prim2SF v) as [s|s| |s m e]; reflexivity.
Qed.

End FloatBox.

(** ** Double precision: [Math.min] and [Math.max] in any order *)

Section MinMaxLaws.
Local Open Scope float_scope.

Ltac compare_cases :=
  repeat match goal with
         | |- context [(?a ?= ?b)%Z] =>
             destruct (Z.compare_spec a b); try lia; subst
         | |- context [(?a ?= ?b)%positive] =>
             destruct (Pos.compare_spec a b); try lia; subst
         end.

Lemma SFmin_exchange (x y z : spec_float) :
  SFmin (SFmin x y) z = SFmin (SFmin x z) y.
Proof.
  destruct x as [sx|sx| |sx mx ex], y as [sy|sy| |sy my ey], z as [sz|sz| |sz mz ez];
    try reflexivity;
    try destruct sx; try destruct sy; try destruct sz; try reflexivity;
    unfold SFmin, SFltb, SFcompare, SFsign;
    change (Pcompare ?a ?b Eq) with (Pos.compare a b);
    repeat (simpl; try reflexivity; compare_cases); try reflexivity; try lia.
Qed.

Lemma SFmax_exchange (x y z : spec_float) :
  SFmax (SFmax x y) z = SFmax (SFmax x z) y.
Proof.
  destruct x as [sx|sx| |sx mx ex], y as [sy|sy| |sy my ey], z as [sz|sz| |sz mz ez];
    try reflexivity;
    try destruct sx; try destruct sy; try destruct sz; try reflexivity;
    unfold SFmax, SFltb, SFcompare, SFsign;
    change (Pcompare ?a ?b Eq) with (Pos.compare a b);
    repeat (simpl; try reflexivity; compare_cases); try reflexivity; try lia.
Qed.

Lemma get_sign_SF (f : float) : get_sign f = SFsign (Prim2SF f).
Proof.
  unfold get_sign, PrimFloat.is_zero. rewrite FloatAxioms.eqb_spec.
  change (Prim2SF zero) with (S754_zero false).
  destruct (Prim2SF f) as [s|s| |s m e] eqn:E.
  - change (SFeqb (S754_zero s) (S754_zero false)) with true. cbv iota.
    rewrite FloatAxioms.ltb_spec, FloatAxioms.div_spec, E.
    change (Prim2SF zero) with (S754_zero false). now destruct s.
  - destruct s; cbn [SFeqb SFcompare]; cbv iota;
      rewrite FloatAxioms.ltb_spec, E; reflexivity.
  - cbn [SFeqb SFcompare]. cbv iota. rewrite FloatAxioms.ltb_spec, E.
    reflexivity.
  - destruct s; cbn [SFeqb SFcompare]; cbv iota;
      rewrite FloatAxioms.ltb_spec, E; reflexivity.
Qed.

Lemma is_nan_true (f : float) : is_nan f = true -> Prim2SF f = S754_nan.
Proof.
  unfold PrimFloat.is_nan. rewrite FloatAxioms.eqb_spec.
  destruct (Prim2SF f) as [s|s| |s m e]; try reflexivity.
  - discriminate.
  - now destruct s.
  - unfold SFeqb, SFcompare.
    change (Pcompare m m Eq) with (Pos.compare m m).
    destruct s; cbv beta iota; rewrite Z.compare_refl, Pos.compare_refl;
      discriminate.
Qed.

Lemma min_SF (a b : float) :
  Prim2SF (Binary64.min a b) = SFmin (Prim2SF a) (Prim2SF b).
Proof.
  unfold Binary64.min.
  destruct (is_nan a) eqn:Ea.
  - apply is_nan_true in Ea. rewrite Ea. reflexivity.
  - destruct (is_nan b) eqn:Eb.
    + apply is_nan_true in Eb. rewrite Eb. cbn [orb].
      now destruct (Prim2SF a).
    + cbn [orb]. apply is_nan_SF in Ea, Eb.
      rewrite !FloatAxioms.ltb_spec, get_sign_SF.
      unfold SFmin.
      destruct (Prim2SF a) as [sa|sa| |sa ma ea] eqn:Ha; try contradiction;
        destruct (Prim2SF b) as [sb|sb| |sb mb eb] eqn:Hb; try contradiction;
        repeat match goal with
               | |- context [if ?c then _ else _] => destruct c
               end; assumption.
Qed.

Lemma max_SF (a b : float) :
  Prim2SF (Binary64.max a b) = SFmax (Prim2SF a) (Prim2SF b).
Proof.
  unfold Binary64.max.
  destruct (is_nan a) eqn:Ea.
  - apply is_nan_true in Ea. rewrite Ea. reflexivity.
  - destruct (is_nan b) eqn:Eb.
    + apply is_nan_true in Eb. rewrite Eb. cbn [orb].
      now destruct (Prim2SF a).
    + cbn [orb]. apply is_nan_SF in Ea, Eb.
      rewrite !FloatAxioms.ltb_spec, get_sign_SF.
      unfold SFmax.
      destruct (Prim2SF a) as [sa|sa| |sa ma ea] eqn:Ha; try contradiction;
        destruct (Prim2SF b) as [sb|sb| |sb mb eb] eqn:Hb; try contradiction;
        repeat match goal with
               | |- context [if ?c then _ else _] => destruct c
               end; assumption.
Qed.

(** [Math.min] and [Math.max] may be applied in any order. *)
Lemma min_exchange (a b c : float) :
  Binary64.min (Binary64.min a b) c = Binary64.min (Binary64.min a c) b.
Proof. apply Prim2SF_inj. rewrite !min_SF. apply SFmin_exchange. Qed.

Lemma max_exchange (a b c : float) :
  Binary64.max (Binary64.max a b) c = Binary64.max (Binary64.max a c) b.
Proof. apply Prim2SF_inj. rewrite !max_SF. apply SFmax_exchange. Qed.

End MinMaxLaws.

(** ** The starting vertex of the polygon *)

Section StartingVertex.
Context {num : Type} {JSN : JSNumber num}.

Lemma fold_left_exchange (A B : Type) (f : A -> B -> A) :
  (forall a x y, f (f a x) y = f (f a y) x) ->
  forall l1 l2 a, fold_left f (l1 ++ l2) a = fold_left f (l2 ++ l1) a.
Proof.
  intros Hf.
  assert (Hpush : forall l a x, fold_left f l (f a x) = f (fold_left f l a) x).
  { induction l as [|b l IH]; intros a x; [reflexivity|].
    cbn [fold_left]. now rewrite Hf, IH. }
  induction l1 as [|b l1 IH]; intros l2 a.
  - now rewrite app_nil_r.
  - cbn [app fold_left]. rewrite IH, !fold_left_app. cbn [fold_left].
    now rewrite Hpush.
Qed.

Lemma fold_left_map (A B C : Type) (f : A -> C -> A) (g : B -> C) l : forall a,
  fold_left (fun acc i => f acc (g i)) l a = fold_left f (map g l) a.
Proof. induction l as [|b l IH]; intros a; [reflexivity|apply IH]. Qed.

(** The edges the loop of [distanceToPolygonEdge] visits: every vertex
    with the next one, the last vertex with the first. *)
Lemma edges_closed (p0 : Point num) (rest : list (Point num)) :
  map (fun i => (vertex (p0 :: rest) i,
                 vertex (p0 :: rest) ((i + 1) mod List.length (p0 :: rest))))
      (seq 0 (List.length (p0 :: rest)))
  = combine (p0 :: rest) (rest ++ [p0]).
Proof.
  set (d := {| x := lit 0; y := lit 0 |} : Point num).
  set (F := fun i : nat => (vertex (p0 :: rest) i,
                 vertex (p0 :: rest) ((i + 1) mod List.length (p0 :: rest)))).
  apply nth_ext with (d := F 0%nat) (d' := (d, d)).
  - rewrite length_map, length_seq, length_combine, length_app.
    cbn [List.length]. lia.
  - intros i Hi. rewrite length_map, length_seq in Hi.
    rewrite map_nth, seq_nth by exact Hi. rewrite combine_nth.
    2:{ rewrite length_app. cbn [List.length]. lia. }
    cbn [plus]. unfold F, vertex. fold d. f_equal.
    cbn [List.length] in Hi |- *.
    destruct (Nat.eq_dec (i + 1) (S (List.length rest))) as [E|E].
    + rewrite E, Nat.Div0.mod_same. cbn [nth].
      replace i with (List.length rest + 0)%nat by lia.
      now rewrite app_nth2_plus.
    + rewrite Nat.mod_small by lia.
      replace (i + 1)%nat with (S i) by lia. cbn [nth].
      rewrite app_nth1 by lia. reflexivity.
Qed.

Lemma distance_edges (p p0 : Point num) (rest : list (Point num)) :
  distanceToPolygonEdge p (p0 :: rest)
  = fold_left (fun acc e => min acc (distanceToSegment p (fst e) (snd e)))
      (combine (p0 :: rest) (rest ++ [p0])) Infinity.
Proof. rewrite <- edges_closed, <- fold_left_map. reflexivity. Qed.

Lemma combine_app (A B : Type) (l1 : list A) (m1 : list B) l2 m2 :
  List.length l1 = List.length m1 ->
  combine (l1 ++ l2) (m1 ++ m2) = combine l1 m1 ++ combine l2 m2.
Proof.
  revert m1. induction l1 as [|a l1 IH]; intros [|b m1] H; try discriminate.
  - reflexivity.
  - cbn [app combine]. f_equal. apply IH. now injection H.
Qed.

Hypothesis Hmin : forall a b c : num, min (min a b) c = min (min a c) b.
Hypothesis Hmax : forall a b c : num, max (max a b) c = max (max a c) b.

Lemma box_app (l1 l2 : list (Point num)) :
  getBoundingBox (l1 ++ l2) = getBoundingBox (l2 ++ l1).
Proof.
  unfold getBoundingBox. apply fold_left_exchange.
  intros b p q. cbn [minX minY maxX maxY].
  f_equal; first [apply Hmin|apply Hmax].
Qed.

Lemma distance_app (p : Point num) (l1 l2 : list (Point num)) :
  distanceToPolygonEdge p (l1 ++ l2) = distanceToPolygonEdge p (l2 ++ l1).
Proof.
  destruct l1 as [|a l1]; [now rewrite app_nil_r|].
  destruct l2 as [|b l2]; [now rewrite app_nil_r|].
  cbn [app]. rewrite !distance_edges.
  change (a :: l1 ++ b :: l2) with ((a :: l1) ++ b :: l2).
  change (b :: l2 ++ a :: l1) with ((b :: l2) ++ a :: l1).
  replace ((l1 ++ b :: l2) ++ [a]) with ((l1 ++ [b]) ++ (l2 ++ [a]))
    by now rewrite <- !app_assoc.
  replace ((l2 ++ a :: l1) ++ [b]) with ((l2 ++ [a]) ++ (l1 ++ [b]))
    by now rewrite <- !app_assoc.
  rewrite !combine_app by (rewrite length_app; cbn [List.length]; lia).
  apply fold_left_exchange. intros m e1 e2. apply Hmin.
Qed.

(** The search reads the polygon through its bounding box and the strict
    check only. *)
Lemma search_app fuel coarse (l1 l2 : list (Point num)) radius spacing :
  search fuel coarse (l1 ++ l2) radius spacing
  = search fuel coarse (l2 ++ l1) radius spacing.
Proof.
  assert (Hcell : forall bounds L row col c,
            cell coarse (l1 ++ l2) bounds radius L row col c
            = cell coarse (l2 ++ l1) bounds radius L row col c).
  { intros bounds L row col c. unfold cell, strictCheck.
    now rewrite inside_app, distance_app. }
  unfold search, sweep. cbv zeta. rewrite (box_app l1 l2).
  set (bounds := getBoundingBox (l2 ++ l1)).
  match goal with
  | |- match ?u with _ => _ end = match ?v with _ => _ end =>
      enough (u = v) as -> by reflexivity
  end.
  apply forOf_ext. intros angle b. apply forOf_ext. intros offX b1.
  apply forOf_ext. intros offY b2. unfold tryLattice.
  match goal with
  | |- match ?u with _ => _ end = match ?v with _ => _ end =>
      enough (u = v) as -> by reflexivity
  end.
  unfold lattice.
  apply forUpTo_ext. intros row cands. apply forUpTo_ext. intros col c.
  now rewrite Hcell.
Qed.

End StartingVertex.

(** ** Double precision: [NaN] in the input *)

Section NotANumber.
Local Open Scope float_scope.

Lemma nan_unique (f : float) : PrimFloat.is_nan f = true -> f = nan.
Proof. intros H. apply is_nan_true in H. now apply float_of_SF in H. Qed.

Lemma add_nan (c : float) : c + nan = nan.
Proof.
  apply (@float_of_SF _ (S754_nan)).
  rewrite FloatAxioms.add_spec. change (Prim2SF nan) with S754_nan.
  now destruct (Prim2SF c) as [[]|[]| |[]].
Qed.

Lemma nan_mul (c : float) : nan * c = nan.
Proof.
  apply (@float_of_SF _ (S754_nan)).
  rewrite FloatAxioms.mul_spec. reflexivity.
Qed.

Lemma div_nan (c : float) : c / nan = nan.
Proof.
  apply (@float_of_SF _ (S754_nan)).
  rewrite FloatAxioms.div_spec. change (Prim2SF nan) with S754_nan.
  now destruct (Prim2SF c) as [[]|[]| |[]].
Qed.

Lemma sub_nan (c : float) : c - nan = nan.
Proof.
  apply (@float_of_SF _ (S754_nan)).
  rewrite FloatAxioms.sub_spec. change (Prim2SF nan) with S754_nan.
  now destruct (Prim2SF c) as [[]|[]| |[]].
Qed.

Lemma sqrt_nan : PrimFloat.sqrt nan = nan.
Proof. reflexivity. Qed.

Lemma min_nan_r (a : float) : Binary64.min a nan = nan.
Proof. unfold Binary64.min. now rewrite orb_true_r. Qed.

(** A [NaN] among the numbers is what [Math.min] keeps. *)
Lemma fold_min_nan (l : list float) : forall acc,
  PrimFloat.is_nan acc = true \/ (exists a, In a l /\ PrimFloat.is_nan a = true) ->
  fold_left Binary64.min l acc = nan.
Proof.
  induction l as [|b l IH]; intros acc H.
  - destruct H as [H|(a & [] & _)]. now apply nan_unique.
  - cbn [fold_left]. apply IH.
    destruct H as [H|(a & [<-|Ha] & Hn)].
    + left. apply nan_unique in H. now subst.
    + left. apply nan_unique in Hn. rewrite Hn. now rewrite min_nan_r.
    + right. now exists a.
Qed.

Lemma box_nan (pol : list (Point float)) (p : Point float) :
  In p pol ->
  PrimFloat.is_nan (x p) = true \/ PrimFloat.is_nan (y p) = true ->
  minX (getBoundingBox pol) = nan \/ minY (getBoundingBox pol) = nan.
Proof.
  intros Hin H.
  destruct (box_folds pol {| minX := infinity; minY := infinity;
                             maxX := neg_infinity; maxY := neg_infinity |})
    as (E1 & E2 & _).
  unfold getBoundingBox.
  change (@min float Binary64.number) with Binary64.min in *.
  change (@max float Binary64.number) with Binary64.max in *.
  change (@Infinity float Binary64.number) with infinity.
  change (neg infinity) with neg_infinity.
  rewrite E1, E2.
  destruct H as [H|H]; [left|right]; apply fold_min_nan; right.
  - exists (x p). split; [now apply in_map|exact H].
  - exists (y p). split; [now apply in_map|exact H].
Qed.

Lemma steps_nan (pol : list (Point float)) (p : Point float) (d : float) :
  In p pol ->
  PrimFloat.is_nan (x p) = true \/ PrimFloat.is_nan (y p) = true ->
  stepsOf (getBoundingBox pol) d = nan.
Proof.
  intros Hin H. unfold stepsOf. cbv zeta.
  set (b := getBoundingBox pol).
  assert (E : add (mul (sub (maxX b) (minX b)) (sub (maxX b) (minX b)))
                  (mul (sub (maxY b) (minY b)) (sub (maxY b) (minY b))) = nan).
  { destruct (@box_nan pol p Hin H) as [E|E]; fold b in E; rewrite E.
    - change (sub ?u nan) with (u - nan). rewrite sub_nan.
      change (mul nan nan) with nan. apply nan_add.
    - change (sub ?u nan) with (u - nan). rewrite sub_nan.
      change (mul nan nan) with nan. apply add_nan. }
  rewrite E. change (sqrt nan) with nan.
  change (div nan d) with (nan / d).
  replace (nan / d) with nan; [reflexivity|].
  symmetry. apply (@float_of_SF _ (S754_nan)).
  rewrite FloatAxioms.div_spec. reflexivity.
Qed.

End NotANumber.

(** ** The application *)

Lemma AppMode_eqb_eq (a b : AppMode) : AppMode_eqb a b = true <-> a = b.
Proof. destruct a, b; simpl; split; congruence. Qed.

(** Every case of one event, the state of the page taken apart. *)
Ltac step_cases H :=
  unfold App.step, App.withApp, App.handleClick, App.handleOptimize,
    App.handleGetRecipe, App.optimizeCallback, App.handleClear,
    App.handleClosePolygon, App.handleAddPoint, App.recipeArrived,
    App.sliderDisabled, App.optimizeShown, App.doneShown, App.clearShown,
    App.recipeDisabled, App.setMode, App.setPoints, App.setCircles,
    App.setPelmeniDiameter, App.setRecipe, App.setLoadingRecipe in H;
  cbn [App.app App.cursorPos App.timeouts App.requests App.mode App.points
       App.circles App.pelmeniDiameter App.recipe App.loadingRecipe fst snd] in H;
  repeat match type of H with
         | context [match ?c with _ => _ end] =>
             lazymatch c with
             | context [match _ with _ => _ end] => fail
             | _ => idtac
             end;
             let E := fresh "E" in destruct c eqn:E;
             cbn [App.app App.cursorPos App.timeouts App.requests App.mode
                  App.points App.circles App.pelmeniDiameter App.recipe
                  App.loadingRecipe fst snd negb] in H
         end;
  try discriminate H;
  try (injection H as <-);
  cbn [App.app App.cursorPos App.timeouts App.requests App.mode App.points
       App.circles App.pelmeniDiameter App.recipe App.loadingRecipe fst snd].

Ltac bool_facts :=
  repeat match goal with
         | E : _ && _ = true |- _ => apply andb_prop in E; destruct E
         | E : negb _ = false |- _ => apply negb_false_iff in E
         | E : negb _ = true |- _ => apply negb_true_iff in E
         | E : (_ <? _)%nat = true |- _ => apply Nat.ltb_lt in E
         | E : (_ <? _)%nat = false |- _ => apply Nat.ltb_ge in E
         | E : AppMode_eqb _ _ = true |- _ => apply AppMode_eqb_eq in E
         end.

Section AppFacts.

Context {num : Type} {JSN : JSNumber num}.
Variable Json : Type.
Variable JSON_parse : string -> option Json.
Variable truthy : Json -> bool.
Variable errorRecipe : Json.

Local Abbreviation State := (App.State num Json).
Local Abbreviation Page := (App.Page num Json).
Local Abbreviation step := (App.step JSON_parse truthy errorRecipe).
Local Abbreviation run := (App.run JSON_parse truthy errorRecipe).
Local Abbreviation reachable := (App.reachable JSON_parse truthy errorRecipe).

(** What holds of the first page and is kept by every event holds of
    every page the application can be brought to. *)
Lemma reachable_inv (I : Page -> Prop) :
  I (App.start Json) ->
  (forall fuel e pg pg', I pg -> step fuel e pg = Some pg' -> I pg') ->
  forall pg, reachable pg -> I pg.
Proof.
  intros H0 Hstep pg (fuel & es & Hrun).
  revert Hrun. generalize (App.start (num := num) Json) H0.
  induction es as [|e es IH]; intros pg0 Hpg0; cbn [App.run].
  - now intros [= <-].
  - destruct (App.step JSON_parse truthy errorRecipe fuel e pg0) as [pg1|] eqn:E; [|discriminate].
    apply IH. eapply Hstep; eauto.
Qed.

End AppFacts.

(** ** The lattices are entered *)

Section Entered.
Context {num : Type} {JSN : JSNumber num}.
Local Open Scope js_scope.



End Entered.

(** ** The search on the heap and the search on lists *)

Section HeapFacts.
Context {num : Type} {JSN : JSNumber num}.
Variable Other : Type.
Local Abbreviation Store := (Heap.Store num Other).
Local Abbreviation Frame := (Heap.Frame num Other).

Lemma length_update a o (h : Store) :
  List.length (Heap.update a o h) = List.length h.
Proof.
  revert a. induction h as [|b h IH]; intros [|a]; cbn; auto.
Qed.

Lemma nth_error_update_eq a o (h : Store) :
  (a < List.length h)%nat -> nth_error (Heap.update a o h) a = Some o.
Proof.
  revert a. induction h as [|b h IH]; intros [|a] H; cbn in *;
    first [lia|reflexivity|apply IH; lia].
Qed.

Lemma nth_error_update_neq a b o (h : Store) :
  a <> b -> nth_error (Heap.update a o h) b = nth_error h b.
Proof.
  revert a b. induction h as [|c h IH]; intros [|a] [|b] H; cbn; auto;
    first [contradiction|apply IH; congruence].
Qed.

Lemma update_update a o1 o2 (h : Store) :
  Heap.update a o2 (Heap.update a o1 h) = Heap.update a o2 h.
Proof.
  revert a. induction h as [|b h IH]; intros [|a]; cbn; auto.
  now rewrite IH.
Qed.

Lemma update_same a o (h : Store) :
  nth_error h a = Some o -> Heap.update a o h = h.
Proof.
  revert a. induction h as [|b h IH]; intros [|a]; cbn; auto.
  - now intros [= ->].
  - intros H. now rewrite IH.
Qed.

Lemma readCircles_lt a (h : Store) l :
  Heap.readCircles a h = Some l -> (a < List.length h)%nat.
Proof.
  unfold Heap.readCircles. intros H. apply nth_error_Some.
  destruct (nth_error h a); [discriminate|discriminate H].
Qed.

Lemma readPoints_lt a (h : Store) l :
  Heap.readPoints a h = Some l -> (a < List.length h)%nat.
Proof.
  unfold Heap.readPoints. intros H. apply nth_error_Some.
  destruct (nth_error h a); [discriminate|discriminate H].
Qed.

(** An array of points and an array of circles are not the same object. *)
Lemma read_apart polygon cands (h : Store) pol l :
  Heap.readPoints polygon h = Some pol -> Heap.readCircles cands h = Some l ->
  polygon <> cands.
Proof.
  unfold Heap.readPoints, Heap.readCircles. intros H1 H2 ->.
  destruct (nth_error h cands) as [[]|]; discriminate.
Qed.

(** A loop on states that are images of the states of another. *)
Lemma forUpTo_image (S T : Type) (f : T -> S) bound
    (body1 : num -> S -> option S) (body2 : num -> T -> option T) :
  (forall v t, body1 v (f t) = option_map f (body2 v t)) ->
  forall fuel v t,
    forUpTo fuel bound body1 v (f t)
    = option_map f (forUpTo fuel bound body2 v t).
Proof.
  intros H. induction fuel as [|fuel IH]; intros v t; cbn [forUpTo];
    [reflexivity|].
  destruct (leb v bound); [|reflexivity].
  rewrite H. destruct (body2 v t) as [t'|]; cbn [option_map]; [apply IH|reflexivity].
Qed.

(** Two loops over the same list whose bodies keep their states related
    finish together, in related states. *)
Lemma forOf_related (A S T : Type) (R : S -> T -> Prop) (xs : list A)
    (body1 : A -> S -> option S) (body2 : A -> T -> option T) :
  (forall a s t, R s t ->
     match body1 a s, body2 a t with
     | Some s', Some t' => R s' t'
     | None, None => True
     | _, _ => False
     end) ->
  forall s t, R s t ->
    match forOf xs body1 s, forOf xs body2 t with
    | Some s', Some t' => R s' t'
    | None, None => True
    | _, _ => False
    end.
Proof.
  intros H. induction xs as [|a xs IH]; intros s t Hst; cbn [forOf];
    [exact Hst|].
  specialize (H a s t Hst).
  destruct (body1 a s) as [s1|], (body2 a t) as [t1|]; try contradiction;
    [now apply IH|exact I].
Qed.

(** The lattice on the heap pushes onto [candidates] what the lattice on
    lists collects, and touches nothing else. *)
Lemma lattice_heap fuel polygon cands pol bounds radius steps L (h0 : Store) :
  Heap.readPoints polygon h0 = Some pol ->
  Heap.readCircles cands h0 = Some [] ->
  Heap.lattice fuel polygon cands bounds radius steps L h0
  = option_map (fun c => Heap.update cands (Heap.Circles c) h0)
      (lattice fuel true pol bounds radius steps L).
Proof.
  intros Hp Hc.
  pose proof (@read_apart _ _ _ _ _ Hp Hc) as Hne.
  pose proof (@readCircles_lt _ _ _ Hc) as Hlt.
  set (f := fun c => Heap.update cands (Heap.Circles c) h0).
  assert (E0 : h0 = f []).
  { unfold f. symmetry. apply update_same.
    unfold Heap.readCircles in Hc.
    destruct (nth_error h0 cands) as [[]|]; try discriminate. congruence. }
  unfold Heap.lattice, lattice. rewrite E0 at 1.
  apply forUpTo_image. intros row c.
  apply forUpTo_image. intros col c'. cbn [option_map].
  unfold Heap.cell, cell, strictCheck. cbn [andb].
  destruct (outsideBounds bounds radius (rotated L row col)); [reflexivity|].
  assert (Hp' : Heap.readPoints polygon (f c') = Some pol).
  { unfold Heap.readPoints, f. rewrite nth_error_update_neq by congruence.
    exact Hp. }
  rewrite Hp'.
  destruct (isPointInPolygon (rotated L row col) pol); [|reflexivity].
  cbn [andb].
  destruct (leb radius (distanceToPolygonEdge (rotated L row col) pol));
    [|reflexivity].
  unfold Heap.push, Heap.readCircles, f.
  rewrite nth_error_update_eq by exact Hlt.
  now rewrite update_update.
Qed.

Lemma tryLattice_heap fuel h polygon pol bounds r d rowHeight angle offX offY
    (s : Frame) (b : Best num) :
  agree h polygon pol s b ->
  match Heap.tryLattice fuel polygon bounds r d rowHeight angle offX offY s,
        tryLattice fuel true pol bounds r d rowHeight angle offX offY b with
  | Some s', Some b' => agree h polygon pol s' b'
  | None, None => True
  | _, _ => False
  end.
Proof.
  intros (Hp & Hu & Hm & Hb & Hfresh & Hlen).
  unfold Heap.tryLattice, tryLattice, Heap.alloc.
  set (n := List.length (Heap.heap s)).
  set (h0 := Heap.heap s ++ [Heap.Circles []]).
  pose proof (@readPoints_lt _ _ _ Hp) as Hpl.
  pose proof (@readCircles_lt _ _ _ Hb) as Hbl.
  assert (Hp0 : Heap.readPoints polygon h0 = Some pol).
  { unfold Heap.readPoints, h0. rewrite nth_error_app1 by exact Hpl. exact Hp. }
  assert (Hc0 : Heap.readCircles n h0 = Some []).
  { unfold Heap.readCircles, h0, n. rewrite nth_error_app2 by lia.
    now rewrite Nat.sub_diag. }
  rewrite (@lattice_heap fuel _ _ _ _ _ _ _ _ Hp0 Hc0).
  destruct (lattice fuel true pol bounds r _ _) as [c|]; cbn [option_map];
    [|exact I].
  assert (Hn : (n < List.length h0)%nat).
  { unfold h0. rewrite length_app. cbn [List.length]. lia. }
  unfold Heap.readCircles at 1. rewrite nth_error_update_eq by exact Hn.
  assert (Hother : forall a, a <> n ->
            nth_error (Heap.update n (Heap.Circles c) h0) a
            = nth_error h0 a).
  { intros a Ha. apply nth_error_update_neq. congruence. }
  assert (Hold : forall a, (a < n)%nat ->
            nth_error (Heap.update n (Heap.Circles c) h0) a
            = nth_error (Heap.heap s) a).
  { intros a Ha. rewrite Hother by lia. unfold h0.
    now rewrite nth_error_app1 by exact Ha. }
  assert (Hu' : Heap.untouched h (Heap.update n (Heap.Circles c) h0)).
  { intros a Ha. rewrite Hold by (unfold n; lia). now apply Hu. }
  assert (Hp' : Heap.readPoints polygon
                  (Heap.update n (Heap.Circles c) h0) = Some pol).
  { unfold Heap.readPoints. rewrite Hold by exact Hpl. exact Hp. }
  assert (Hlen' : (List.length h
                   <= List.length (Heap.update n (Heap.Circles c) h0))%nat).
  { rewrite length_update. lia. }
  unfold keepBest. rewrite Hm.
  destruct (maxCount b <? List.length c)%nat; unfold agree;
    cbn [Heap.heap Heap.maxCount Heap.bestResult maxCount bestResult].
  - split; [exact Hp'|]. split; [exact Hu'|]. split; [reflexivity|].
    split; [|split; [unfold n; lia|exact Hlen']].
    unfold Heap.readCircles. now rewrite nth_error_update_eq by exact Hn.
  - split; [exact Hp'|]. split; [exact Hu'|]. split; [reflexivity|].
    split; [|split; [exact Hfresh|exact Hlen']].
    unfold Heap.readCircles. rewrite Hold by exact Hbl. exact Hb.
Qed.

(** The invocation on the heap returns when the search on the vertices
    the polygon holds does; the array it returns is a new one that holds
    the list of that search, and what the heap held is as it was. *)
Lemma optimizeCircles_heap fuel polygon pol radius spacing (h : Store) :
  Heap.readPoints polygon h = Some pol ->
  match Heap.optimizeCircles fuel polygon radius spacing h,
        optimizeCircles fuel pol radius spacing with
  | Some (a, h'), Some res =>
      Heap.readCircles a h' = Some res
      /\ Heap.untouched h h'
      /\ (List.length h <= a)%nat
  | None, None => True
  | _, _ => False
  end.
Proof.
  intros Hp. unfold Heap.optimizeCircles, optimizeCircles, search, sweep.
  rewrite Hp. unfold Heap.alloc. cbv zeta.
  set (h2 := (h ++ [Heap.Circles []]) ++ [Heap.Circles []]).
  set (s0 := {| Heap.heap := h2; Heap.maxCount := 0;
                Heap.bestResult := List.length (h ++ [Heap.Circles []]) |}).
  set (b0 := {| maxCount := 0; bestResult := [] |}).
  pose proof (@readPoints_lt _ _ _ Hp) as Hpl.
  assert (H0 : agree h polygon pol s0 b0).
  { unfold agree, s0, b0, h2.
    cbn [Heap.heap Heap.maxCount Heap.bestResult maxCount bestResult].
    repeat split.
    - unfold Heap.readPoints.
      rewrite <- app_assoc, nth_error_app1 by exact Hpl. exact Hp.
    - intros a Ha. now rewrite <- app_assoc, nth_error_app1 by exact Ha.
    - unfold Heap.readCircles. rewrite nth_error_app2 by lia.
      now rewrite Nat.sub_diag.
    - rewrite length_app. lia.
    - rewrite !length_app. lia. }
  match goal with
  | |- context [match ?u with
                | Some s => Some (Heap.bestResult s, Heap.heap s)
                | None => None
                end] => set (U := u)
  end.
  match goal with
  | |- context [match ?v with
                | Some best => Some (bestResult best)
                | None => None
                end] => set (V := v)
  end.
  assert (Hrel : match U, V with
                 | Some s', Some b' => agree h polygon pol s' b'
                 | None, None => True
                 | _, _ => False
                 end).
  { apply (forOf_related (agree h polygon pol)); [|exact H0].
    intros angle s b Hsb.
    apply (forOf_related (agree h polygon pol)); [|exact Hsb].
    intros offX s1 b1 Hsb1.
    apply (forOf_related (agree h polygon pol)); [|exact Hsb1].
    intros offY s2 b2 Hsb2. now apply tryLattice_heap. }
  destruct U as [s'|], V as [b'|]; try contradiction; [|exact I].
  destruct Hrel as (_ & Hu & _ & Hb & Hfresh & _). auto.
Qed.

End HeapFacts.

(** * The claims *)

Section Claims.

Import Examples.
Local Open Scope R_scope.
Local Abbreviation point := Exact.point.
Local Abbreviation polygon := Exact.polygon.
#[local] Set Warnings "-inexact-float".

(** ** C1 *)

(** C1 (boundary clearance).  In every number system, for every polygon,
    radius and spacing, every circle of a list returned by
    [optimizeCircles] has its centre inside the polygon by
    [isPointInPolygon] and at a [distanceToPolygonEdge] of at least the
    radius: the two tests of the strict check, made on the very point the
    circle records. *)
Theorem C1_boundary_clearance (num : Type) (JSN : JSNumber num) (fuel : nat)
    (pol : list (Point num)) (radius spacing : num) (res : list (Circle num)) :
  optimizeCircles fuel pol radius spacing = Some res ->
  Forall
    (fun c =>
       isPointInPolygon (center c) pol = true
       /\ leb radius (distanceToPolygonEdge (center c) pol) = true)
    res.
Proof.
  unfold optimizeCircles. apply search_inv; [constructor|].
  intros angle offX offY cands _ _ _.
  apply lattice_inv; [constructor|].
  intros row col c Hc Hs _. apply Forall_app. split; [exact Hc|].
  constructor; [|constructor]. rewrite center_circleAt.
  unfold strictCheck in Hs. now apply andb_prop in Hs.
Qed.

(** The square of side 10 with circles of radius 1 and spacing 1, in
    double precision: twelve circles are returned and each passes both
    tests. *)
Lemma C1_boundary_clearance_witness :
  exists res,
    optimizeCircles 100 square10 1%float 1%float = Some res
    /\ List.length res = 12%nat
    /\ Forall
         (fun c =>
            isPointInPolygon (center c) square10 = true
            /\ leb 1%float (distanceToPolygonEdge (center c) square10) = true)
         res.
Proof.
  eexists. split; [vm_compute; reflexivity|]. split; [reflexivity|].
  apply (@C1_boundary_clearance float Binary64.number 100 square10
           1%float 1%float).
  vm_compute. reflexivity.
Defined.

(** ** C2 *)

(** C2, refuted in double precision.  With radius 0.15 and spacing 0 the
    strip [100.3, 101.3] x [0, 0.3] gets three circles on one row; the
    first two have their centres at x = 100.5 and x = 100.8, and in double
    precision 100.8 - 100.5 = 0.29999999999999716, which is less than
    2 * 0.15 = 0.3: the two circles overlap. *)
Lemma C2_overlap_binary64 :
  exists res c1 c2,
    optimizeCircles 100 strip 0.15%float 0%float = Some res
    /\ nth_error res 0 = Some c1 /\ nth_error res 1 = Some c2
    /\ (circle_x c1, circle_y c1) = (100.5, 0.15)%float
    /\ (circle_x c2, circle_y c2) = (100.8, 0.15)%float
    /\ centerDistance c1 c2 = 0.29999999999999716%float
    /\ leb (mul (lit 2) 0.15%float) (centerDistance c1 c2) = false.
Proof.
  do 3 eexists. split; [vm_compute; reflexivity|].
  split; [reflexivity|]. split; [reflexivity|].
  repeat split; vm_compute; reflexivity.
Qed.

(** C2 (non-overlap), as amended.  In exact arithmetic, for every polygon
    with at least three vertices and real coordinates, every positive
    radius and every non-negative spacing, [optimizeCircles] returns a
    list, and in every list it returns any two circles at different places
    have their centres at least the pitch [d = 2 * radius + spacing] apart,
    hence at least [2 * radius] apart. *)
Theorem C2_non_overlap_exact (ps : list (R * R)) (r s : R) :
  (3 <= List.length ps)%nat -> 0 < r -> 0 <= s ->
  (exists fuel res,
      optimizeCircles fuel (polygon ps) (Fin r) (Fin s) = Some res)
  /\ forall fuel res,
       optimizeCircles fuel (polygon ps) (Fin r) (Fin s) = Some res ->
       separated (add (mul (Fin r) (lit 2)) (Fin s)) res
       /\ separated (mul (lit 2) (Fin r)) res.
Proof.
  intros Hlen Hr Hs.
  assert (Hps : ps <> []) by (intros ->; simpl in Hlen; lia).
  split; [apply search_terminates_polygon; [exact Hps|lra]|].
  intros fuel res H.
  pose proof (@search_separated fuel true ps r s res Hps ltac:(lra) H) as Hsep.
  split; [exact Hsep|].
  change (mul (lit 2) (Fin r)) with (Fin (2 * r)).
  apply separated_weaken with (b := r * 2 + s); [lra|exact Hsep].
Qed.

Lemma C2_non_overlap_exact_witness :
  (exists fuel res,
      optimizeCircles fuel (polygon realTriangle) (Fin 1) (Fin 0) = Some res)
  /\ forall fuel res,
       optimizeCircles fuel (polygon realTriangle) (Fin 1) (Fin 0) = Some res ->
       separated (add (mul (Fin 1) (lit 2)) (Fin 0)) res
       /\ separated (mul (lit 2) (Fin 1)) res.
Proof.
  apply (@C2_non_overlap_exact realTriangle 1 0); [simpl; lia|lra|lra].
Defined.

(** ** C3 *)

(** C3, refuted in double precision.  For the triangle (0,0), (1000,0),
    (0,1000) with radius and spacing 1e-14, [steps] is 47140452079103176,
    beyond 2^53: the counter starts at [-steps], [row + 1] rounds back to
    [row], and the loops never reach their bound.  No amount of fuel gives
    a result. *)
Lemma C3_diverges_binary64 :
  stepsOf (getBoundingBox bigTriangle) (1e-14 * 2 + 1e-14)%float
  = 47140452079103176%float
  /\ (- 47140452079103176 + 1 = - 47140452079103176)%float
  /\ forall fuel,
       optimizeCircles fuel bigTriangle 1e-14%float 1e-14%float = None.
Proof.
  split; [vm_compute; reflexivity|]. split; [vm_compute; reflexivity|].
  intros fuel. unfold optimizeCircles. apply search_first_None.
  apply lattice_stuck; vm_compute; reflexivity.
Qed.

(** C3 (termination), as amended.  In double precision, for every
    polygon, radius and spacing, [optimizeCircles] returns a list whenever
    [steps = ceil(diagonal / d) + 2] is an integer from 0 to [2^53 - 2], or
    the loops are not entered at all, [-steps <= steps] being false as it is
    for a negative or [NaN] [steps]: with enough fuel the loops finish, and
    the model has no other failure.  When no point passes the strict check,
    as for a polygon too small for one circle, the list is empty. *)
Theorem C3_terminates_binary64 (pol : list (Point float))
    (radius spacing : float) (n : Z) :
  let steps :=
    stepsOf (getBoundingBox pol) (add (mul radius (lit 2)) spacing) in
  leb (neg steps) steps = false
  \/ ((0 <= n < 2 ^ 53 - 1)%Z /\ steps = lit n) ->
  exists fuel res,
    optimizeCircles fuel pol radius spacing = Some res
    /\ ((forall p, strictCheck pol radius p = false) -> res = []).
Proof.
  intros steps H.
  enough (exists fuel res, search fuel true pol radius spacing = Some res)
    as (fuel & res & E).
  { exists fuel, res. split; [exact E|]. intros Hnone.
    eapply search_empty; eauto. }
  destruct H as [H|[Hn H]].
  - exists 1%nat. apply search_total. intros L. exists [].
    now apply lattice_not_entered.
  - exists (S (Z.to_nat (2 * n + 1))). apply search_total. intros L.
    apply lattice_terminates_int with (n := n); try lia.
    fold steps. rewrite H. apply isInt_of_Z. lia.
Qed.

(** The square of side 10 with radius 1 and spacing 1: [steps] is 7. *)
Lemma C3_terminates_binary64_witness :
  exists fuel res,
    optimizeCircles fuel square10 1%float 1%float = Some res
    /\ ((forall p, strictCheck square10 1%float p = false) -> res = []).
Proof.
  apply (@C3_terminates_binary64 square10 1%float 1%float 7).
  right. split; [lia|vm_compute; reflexivity].
Defined.

(** ** C4 *)

(** C4, refuted in double precision.  For the two vertices (0, 0.1) and
    (0.3, 1.0), radius 1e-300 and spacing 1, the centre (0.15, 0.55) of the
    bounding box is a lattice point.  The two passes over the one segment
    compute its crossing with the scanline as 0.15 and as
    0.15000000000000002, so the point is to the left of one crossing and
    not of the other and counts as inside; its distance to the segment is
    computed as 2.7755575615628914e-17, which is above the radius: one
    circle is returned. *)
Lemma C4_two_vertices_binary64 :
  intersect (pt 0.15 0.55) (pt 0 0.1) (pt 0.3 1.0) = false
  /\ intersect (pt 0.15 0.55) (pt 0.3 1.0) (pt 0 0.1) = true
  /\ isPointInPolygon (pt 0.15 0.55) segment = true
  /\ distanceToPolygonEdge (pt 0.15 0.55) segment
     = 2.7755575615628914e-17%float
  /\ optimizeCircles 100 segment 1e-300%float 1%float
     = Some [ {| circle_x := 0.15%float; circle_y := 0.55%float;
                 circle_r := 1e-300%float; circle_id := "0-0-0" |} ].
Proof. repeat split; vm_compute; reflexivity. Qed.

(** C4 (two vertices), as amended.  In exact arithmetic, for every two
    vertices with real coordinates and every positive radius and spacing,
    [optimizeCircles] returns, and what it returns is the empty list: the
    two edges are one segment, the ray crosses both or neither, and no
    point is inside. *)
Theorem C4_two_vertices_exact (a b : R * R) (r s : R) :
  0 < r -> 0 < s ->
  (exists fuel,
      optimizeCircles fuel (polygon [a; b]) (Fin r) (Fin s) = Some [])
  /\ forall fuel res,
       optimizeCircles fuel (polygon [a; b]) (Fin r) (Fin s) = Some res ->
       res = [].
Proof.
  intros Hr Hs.
  assert (Hempty : forall fuel res,
             optimizeCircles fuel (polygon [a; b]) (Fin r) (Fin s) = Some res ->
             res = []).
  { intros fuel res. apply search_empty.
    intros p. unfold strictCheck. now rewrite isPointInPolygon_two. }
  split; [|exact Hempty].
  destruct (@search_terminates_polygon true [a; b] r s ltac:(discriminate)
              ltac:(lra)) as (fuel & res & H).
  exists fuel. unfold optimizeCircles. rewrite H. f_equal.
  eapply Hempty, H.
Qed.

Lemma C4_two_vertices_exact_witness :
  (exists fuel,
      optimizeCircles fuel (polygon [(0, 0); (3, 4)]) (Fin 1) (Fin 2)
      = Some [])
  /\ forall fuel res,
       optimizeCircles fuel (polygon [(0, 0); (3, 4)]) (Fin 1) (Fin 2)
       = Some res ->
       res = [].
Proof.
  apply (@C4_two_vertices_exact (0, 0) (3, 4) 1 2); lra.
Defined.

(** ** C5 *)




(** ** C6 *)

(** C6 (determinism).  In every number system, take two invocations of
    [optimizeCircles] with the same radius and spacing, each in a heap of
    its own, or the second in the heap the first has left: whatever else
    the two heaps hold, wherever the polygon is kept and whatever fuel
    each is given, if the arrays of the two polygons hold the same
    vertices and both invocations return, the arrays they return hold the
    same list: the same circles, with the same centres, radii and
    identifiers, in the same order.  Each is an array the invocation has
    made, and what its heap held before, the polygon included, is as it
    was: an invocation reads nothing but the vertices and leaves nothing
    behind that a later one could read. *)
Theorem C6_deterministic (num : Type) (JSN : JSNumber num) (Other : Type)
    (fuel1 fuel2 : nat) (h1 h2 : Heap.Store num Other)
    (polygon1 polygon2 : Heap.Ref) (pol : list (Point num))
    (radius spacing : num) (a1 a2 : Heap.Ref) (h1' h2' : Heap.Store num Other) :
  Heap.readPoints polygon1 h1 = Some pol ->
  Heap.readPoints polygon2 h2 = Some pol ->
  Heap.optimizeCircles fuel1 polygon1 radius spacing h1 = Some (a1, h1') ->
  Heap.optimizeCircles fuel2 polygon2 radius spacing h2 = Some (a2, h2') ->
  (exists res,
      Heap.readCircles a1 h1' = Some res /\ Heap.readCircles a2 h2' = Some res)
  /\ Heap.untouched h1 h1' /\ Heap.untouched h2 h2'
  /\ (List.length h1 <= a1)%nat /\ (List.length h2 <= a2)%nat.
Proof.
  intros Hp1 Hp2 E1 E2.
  pose proof (@optimizeCircles_heap num JSN Other fuel1 polygon1 pol
                radius spacing h1 Hp1) as R1.
  pose proof (@optimizeCircles_heap num JSN Other fuel2 polygon2 pol
                radius spacing h2 Hp2) as R2.
  rewrite E1 in R1. rewrite E2 in R2.
  destruct (optimizeCircles fuel1 pol radius spacing) as [res1|] eqn:P1;
    [|contradiction].
  destruct (optimizeCircles fuel2 pol radius spacing) as [res2|] eqn:P2;
    [|contradiction].
  destruct R1 as (C1 & U1 & F1). destruct R2 as (C2 & U2 & F2).
  assert (res1 = res2) as <-.
  { unfold optimizeCircles in P1, P2. eapply search_agree; eassumption. }
  repeat split; try assumption. now exists res1.
Qed.

Lemma C6_deterministic_witness :
  let h : Heap.Store float unit := [Heap.Foreign tt; Heap.Points square10] in
  exists a1 h1 a2 h2,
    Heap.optimizeCircles 100 1%nat 1%float 1%float h = Some (a1, h1)
    /\ Heap.optimizeCircles 200 1%nat 1%float 1%float h1 = Some (a2, h2)
    /\ a1 <> a2
    /\ option_map (@List.length _) (Heap.readCircles a1 h1) = Some 12%nat
    /\ (exists res,
          Heap.readCircles a1 h1 = Some res /\ Heap.readCircles a2 h2 = Some res)
    /\ Heap.untouched h h1 /\ Heap.untouched h1 h2
    /\ (List.length h <= a1)%nat /\ (List.length h1 <= a2)%nat.
Proof.
  intros h. do 4 eexists.
  split; [vm_compute; reflexivity|].
  split; [vm_compute; reflexivity|].
  split; [discriminate|].
  split; [vm_compute; reflexivity|].
  apply (@C6_deterministic float Binary64.number unit 100 200 _ _ 1%nat 1%nat
           square10 1%float 1%float);
    vm_compute; reflexivity.
Defined.

(** ** C7 *)

(** C7, refuted in double precision.  The triangle (0.1, 0.1), (0.1, 0.2),
    (0.3, 0.7) has area 0.010000000000000002; started at its second vertex,
    or walked backwards, it has area 0.0099999999999999985: the sums are
    rounded in a different order. *)
Lemma C7_area_rotation_binary64 :
  calculatePolygonArea smallTriangle = 0.010000000000000002%float
  /\ calculatePolygonArea (rotate 1 smallTriangle)
     = 0.0099999999999999985%float
  /\ calculatePolygonArea (rev smallTriangle) = 0.0099999999999999985%float
  /\ eqb (calculatePolygonArea (rotate 1 smallTriangle))
         (calculatePolygonArea smallTriangle) = false.
Proof. repeat split; vm_compute; reflexivity. Qed.

(** C7 (area invariance), as amended.  In exact arithmetic, for every
    polygon with real coordinates, [calculatePolygonArea] is not negative,
    and is the same for the vertex list started at any other vertex and for
    the reversed list. *)
Theorem C7_area_invariance_exact (ps : list (R * R)) (k : nat) :
  leb (lit 0) (calculatePolygonArea (polygon ps)) = true
  /\ calculatePolygonArea (polygon (rotate k ps))
     = calculatePolygonArea (polygon ps)
  /\ calculatePolygonArea (polygon (rev ps))
     = calculatePolygonArea (polygon ps).
Proof.
  rewrite !area_shoelace, shoelace_rotate, shoelace_rev. split; [|split].
  - simpl. destruct (Rle_dec 0 (Rabs (shoelace ps / 2))) as [|H]; [reflexivity|].
    exfalso. apply H, Rabs_pos.
  - reflexivity.
  - f_equal. replace (- shoelace ps / 2) with (- (shoelace ps / 2)) by lra.
    apply Rabs_Ropp.
Qed.

(** ** C8 *)

(** C8, refuted.  For row -1 and column 0, with pitch 3 and no offset, the
    source computes [hexX = -1.5]: [row % 2] is -1 for a negative odd row,
    and the row is shifted by [-d/2].  The formula of the specification,
    with [row mod 2 = 1], gives [+1.5]. *)
Lemma C8_negative_odd_row :
  rem (lit (-1)) (lit 2) = (-1)%float
  /\ hexX 3%float 0%float (lit (-1)) (lit 0) = (-1.5)%float
  /\ hexX_spec 3%float 0%float (-1) 0 = 1.5%float.
Proof. repeat split; vm_compute; reflexivity. Qed.

(** C8 (lattice position), as amended.  In double precision, for every
    pitch and offset and all integers [row] and [col], [row] below [2^53] in
    magnitude, [hexX = col * d + (row % 2) * (d / 2) + offX] and
    [hexY = row * h + offY], where [row % 2] is the remainder of the division
    truncated towards zero: zero for an even row, 1 for a positive odd row
    and -1 for a negative odd row, which is therefore shifted by [-d/2]. *)
Theorem C8_hex_position_binary64 (d offX h offY : float) (row col : Z) :
  (- 2 ^ 53 < row < 2 ^ 53)%Z ->
  rem (lit row) (lit 2) = rem2 row
  /\ hexX d offX (lit row) (lit col)
     = (Binary64.of_Z col * d + rem2 row * (d / 2) + offX)%float
  /\ hexY h offY (lit row) = (Binary64.of_Z row * h + offY)%float.
Proof.
  intros Hrow.
  assert (E : rem (lit row) (lit 2) = rem2 row)
    by (apply rem_two_binary64; exact Hrow).
  split; [exact E|]. split; [|reflexivity].
  unfold hexX. rewrite E. reflexivity.
Qed.

(** Row -3 and column 2 with pitch 3 and offset 0.25: [-3 % 2] is -1 and
    [hexX = 2 * 3 - 1.5 + 0.25]. *)
Lemma C8_hex_position_binary64_witness :
  rem (lit (-3)) (lit 2) = (-1)%float
  /\ hexX 3%float 0.25%float (lit (-3)) (lit 2) = 4.75%float
  /\ hexY 2.5%float 0%float (lit (-3)) = (-7.5)%float.
Proof.
  apply (@C8_hex_position_binary64 3%float 0.25%float 2.5%float 0%float
           (-3) 2).
  lia.
Defined.

(** ** C9 *)

(** C9, refuted in double precision.  For the polygon (0, 0.75),
    (0.2, 1.575), (3.7, 1.5), (-10.1, 2.25), radius 1e-300 and spacing 6.9,
    the lattice point (3.7000000000000006, 1.5) lies just right of the
    rightmost vertex (3.7, 1.5), outside the bounding box.  The crossing of
    the edge from (3.7, 1.5) to (-10.1, 2.25) with the scanline is computed
    as 3.700000000000003, to the right of the point, so the ray casting
    finds the point inside, and the search without the coarse check returns
    two circles; with the coarse check one circle is returned. *)
Lemma C9_coarse_filter_binary64 :
  maxX (getBoundingBox dart) = 3.7%float
  /\ isPointInPolygon (pt 3.7000000000000006 1.5) dart = true
  /\ strictCheck dart 1e-300%float (pt 3.7000000000000006 1.5) = true
  /\ outsideBounds (getBoundingBox dart) 1e-300%float
       (pt 3.7000000000000006 1.5) = true
  /\ optimizeCircles 100 dart 1e-300%float 6.9%float
     = Some [ {| circle_x := (-3.1999999999999997)%float;
                 circle_y := 1.5%float;
                 circle_r := 1e-300%float; circle_id := "0-0-0" |} ]
  /\ search 100 false dart 1e-300%float 6.9%float
     = Some [ {| circle_x := (-3.1999999999999997)%float;
                 circle_y := 1.5%float;
                 circle_r := 1e-300%float; circle_id := "0-0-0" |};
              {| circle_x := 3.7000000000000006%float; circle_y := 1.5%float;
                 circle_r := 1e-300%float; circle_id := "0-0-1" |} ].
Proof. repeat split; vm_compute; reflexivity. Qed.

(** C9 (coarse filter), as amended.  In exact arithmetic, for every polygon
    with at least three vertices and real coordinates and every positive
    radius and spacing, the search without the coarse bounding-box check
    gives what [optimizeCircles] gives, for every fuel: a point that
    [isPointInPolygon] accepts is within the bounding box. *)
Theorem C9_coarse_filter_exact (ps : list (R * R)) (r s : R) (fuel : nat) :
  (3 <= List.length ps)%nat -> 0 < r -> 0 < s ->
  search fuel false (polygon ps) (Fin r) (Fin s)
  = optimizeCircles fuel (polygon ps) (Fin r) (Fin s).
Proof.
  intros _ Hr _. unfold optimizeCircles.
  apply search_coarse_irrelevant. intros p Hp.
  apply inside_in_bounds; [lra|].
  unfold strictCheck in Hp. now apply andb_prop in Hp.
Qed.

Lemma C9_coarse_filter_exact_witness :
  search 100 false (polygon realTriangle) (Fin 1) (Fin 2)
  = optimizeCircles 100 (polygon realTriangle) (Fin 1) (Fin 2).
Proof.
  apply (@C9_coarse_filter_exact realTriangle 1 2 100); [simpl; lia|lra|lra].
Defined.

(** ** C10 *)

(** C10, refuted in double precision.  The two vertices (0.1, 0.1) and
    (0.1, 0.9) give the area 6.9388939039072284e-18, not 0: the four
    products are rounded and their sum does not cancel. *)
Lemma C10_sliver_area_binary64 :
  List.length sliver = 2%nat
  /\ calculatePolygonArea sliver = 6.9388939039072284e-18%float
  /\ eqb (calculatePolygonArea sliver) (lit 0) = false.
Proof. repeat split; vm_compute; reflexivity. Qed.

(** C10 (degenerate area), as amended.  In exact arithmetic, for every
    polygon with fewer than three vertices and real coordinates,
    [calculatePolygonArea] is exactly 0. *)
Theorem C10_degenerate_area_exact (ps : list (R * R)) :
  (List.length ps < 3)%nat ->
  calculatePolygonArea (polygon ps) = lit 0.
Proof.
  intros H. rewrite area_shoelace.
  destruct ps as [|a [|b [|c l]]]; simpl in H; try lia;
    unfold shoelace; simpl; change (lit 0) with (Fin 0); f_equal;
    unfold cross;
    match goal with |- Rabs ?e = 0 => replace e with 0 by lra end;
    apply Rabs_R0.
Qed.

Lemma C10_degenerate_area_exact_witness :
  calculatePolygonArea (polygon [(1, 2); (3, 5)]) = lit 0.
Proof.
  apply (@C10_degenerate_area_exact [(1, 2); (3, 5)]). simpl. lia.
Defined.

End Claims.

(** * Further properties of the code *)

Section Further.

Import Examples.
Local Open Scope R_scope.
Local Abbreviation point := Exact.point.
Local Abbreviation polygon := Exact.polygon.
#[local] Set Warnings "-inexact-float".

(** ** [isPointInPolygon] *)

(** X1 (start vertex).  In every number system, double precision
    included, [isPointInPolygon] gives the same answer whichever vertex
    the list of the polygon starts at: the loop meets the same edges, in
    the same direction, and only the order of the exclusive ors changes. *)
Theorem X1_inside_rotation (num : Type) (JSN : JSNumber num)
    (p : Point num) (pol : list (Point num)) (k : nat) :
  isPointInPolygon p (rotate k pol) = isPointInPolygon p pol.
Proof.
  unfold rotate. rewrite inside_app. now rewrite firstn_skipn.
Qed.

(** X2 (orientation).  In exact arithmetic [isPointInPolygon] gives the
    same answer for a polygon and for the polygon with its vertices in the
    reverse order. *)
Theorem X2_inside_reversal (p : Point ereal) (ps : list (R * R)) :
  isPointInPolygon p (polygon (rev ps)) = isPointInPolygon p (polygon ps).
Proof.
  destruct ps as [|q ps']; [reflexivity|].
  destruct (@exists_last _ (q :: ps') ltac:(discriminate)) as (m & z & E).
  rewrite E, rev_app_distr. cbn [rev app].
  rewrite (inside_crossings p (polygon (m ++ [z])) (point z)).
  rewrite last_polygon, last_last, crossings_rev_open.
  assert (H : point z = last (polygon (rev m ++ [z])) (point z))
    by now rewrite last_polygon, last_last.
  rewrite H at 1. rewrite <- inside_crossings.
  rewrite polygon_app, inside_app. reflexivity.
Qed.

(** X3 (inside the box).  In exact arithmetic a point that
    [isPointInPolygon] accepts lies in the box of [getBoundingBox], the
    left and lower sides included and the right and upper sides not. *)
Theorem X3_inside_bounding_box (q : R * R) (ps : list (R * R)) :
  isPointInPolygon (point q) (polygon ps) = true ->
  exists a b c d,
    getBoundingBox (polygon ps) = box a b c d
    /\ a <= fst q < c /\ b <= snd q < d.
Proof. apply inside_half_open. Qed.

Lemma X3_inside_bounding_box_witness :
  exists a b c d,
    getBoundingBox (polygon [(0, 0); (4, 0); (4, 4); (0, 4)]) = box a b c d
    /\ a <= fst (1, 1) < c /\ b <= snd (1, 1) < d.
Proof.
  apply (@X3_inside_bounding_box (1, 1) [(0, 0); (4, 0); (4, 4); (0, 4)]).
  apply inside_rectangle; simpl; lra.
Defined.

(** X4 (rectangle).  In exact arithmetic, for the rectangle with corners
    [(a, b)], [(c, b)], [(c, d)], [(a, d)], [isPointInPolygon] is the test
    [a <= x < c] and [b <= y < d]: a point on the left or the lower side
    is inside, one on the right or the upper side is not. *)
Theorem X4_inside_rectangle (q : R * R) (a b c d : R) :
  a < c -> b < d ->
  isPointInPolygon (point q) (polygon [(a, b); (c, b); (c, d); (a, d)]) = true
  <-> a <= fst q < c /\ b <= snd q < d.
Proof. apply inside_rectangle. Qed.

Lemma X4_inside_rectangle_witness :
  isPointInPolygon (point (0, 2)) (polygon [(0, 0); (3, 0); (3, 5); (0, 5)]) = true
  <-> 0 <= fst (0, 2) < 3 /\ 0 <= snd (0, 2) < 5.
Proof. apply (@X4_inside_rectangle (0, 2) 0 0 3 5); lra. Defined.

(** ** [getBoundingBox] *)

(** X5 (bounding box).  In exact arithmetic the box of a polygon that is
    not empty holds every vertex, and each of its four sides goes through
    a vertex. *)
Theorem X5_bounding_box_tight (ps : list (R * R)) :
  ps <> [] ->
  exists a b c d,
    getBoundingBox (polygon ps) = box a b c d
    /\ (forall p, In p ps -> a <= fst p <= c /\ b <= snd p <= d)
    /\ (exists p, In p ps /\ fst p = a) /\ (exists p, In p ps /\ snd p = b)
    /\ (exists p, In p ps /\ fst p = c) /\ (exists p, In p ps /\ snd p = d).
Proof.
  intros Hne.
  destruct (getBoundingBox_polygon Hne) as (a & b & c & d & E & _ & _ & Hin).
  exists a, b, c, d. split; [exact E|]. split; [exact Hin|].
  destruct ps as [|p l]; [contradiction|].
  unfold getBoundingBox in E. cbn [Exact.polygon List.map fold_left] in E.
  change (fold_left _ (List.map point l) ?b0)
    with (fold_left boxStep (polygon l) b0) in E.
  match type of E with context [fold_left boxStep _ ?b0] =>
    change b0 with (box (fst p) (snd p) (fst p) (snd p)) in E end.
  apply box_fold_attained in E. destruct E as (Ha & Hb & Hc & Hd).
  assert (Hl : forall (P : R * R -> Prop),
             (exists q, In q l /\ P q) -> exists q, In q (p :: l) /\ P q).
  { intros P (q & Hq & HP). exists q. split; [now right|exact HP]. }
  repeat split.
  - destruct Ha as [->|Ha]; [exists p; split; [now left|reflexivity]|now apply Hl].
  - destruct Hb as [->|Hb]; [exists p; split; [now left|reflexivity]|now apply Hl].
  - destruct Hc as [->|Hc]; [exists p; split; [now left|reflexivity]|now apply Hl].
  - destruct Hd as [->|Hd]; [exists p; split; [now left|reflexivity]|now apply Hl].
Qed.

Lemma X5_bounding_box_tight_witness :
  exists a b c d,
    getBoundingBox (polygon realTriangle) = box a b c d
    /\ (forall p, In p realTriangle -> a <= fst p <= c /\ b <= snd p <= d)
    /\ (exists p, In p realTriangle /\ fst p = a)
    /\ (exists p, In p realTriangle /\ snd p = b)
    /\ (exists p, In p realTriangle /\ fst p = c)
    /\ (exists p, In p realTriangle /\ snd p = d).
Proof. apply (@X5_bounding_box_tight realTriangle). discriminate. Defined.

(** ** [distanceToSegment] and [distanceToPolygonEdge] *)

(** X6 (distance to a segment).  In exact arithmetic [distanceToSegment]
    is the distance from the point to the nearest point of the segment:
    it is the distance to a point of the segment, and no point of the
    segment is nearer.  A segment whose ends coincide is that one point. *)
Theorem X6_segment_distance_least (p v w : R * R) :
  exists t,
    0 <= t <= 1
    /\ distanceToSegment (point p) (point v) (point w)
       = Fin (dist p (along v w t))
    /\ forall s, 0 <= s <= 1 -> dist p (along v w t) <= dist p (along v w s).
Proof. apply segment_least. Qed.

(** X7 (distance to the boundary).  In exact arithmetic, for a polygon
    that is not empty, [distanceToPolygonEdge] is the distance from the
    point to the nearest point of the boundary: no point of any edge, the
    closing edge included, is nearer, and some point of an edge is that
    near. *)
Theorem X7_boundary_distance_least (p : R * R) (ps : list (R * R)) :
  ps <> [] ->
  exists D,
    distanceToPolygonEdge (point p) (polygon ps) = Fin D
    /\ (forall i s, (i < List.length ps)%nat -> 0 <= s <= 1 ->
          D <= dist p (along (fst (edge ps i)) (snd (edge ps i)) s))
    /\ exists i t, (i < List.length ps)%nat /\ 0 <= t <= 1
          /\ D = dist p (along (fst (edge ps i)) (snd (edge ps i)) t).
Proof. apply boundary_least. Qed.

Lemma X7_boundary_distance_least_witness :
  exists D,
    distanceToPolygonEdge (point (1, 1)) (polygon realTriangle) = Fin D
    /\ (forall i s, (i < List.length realTriangle)%nat -> 0 <= s <= 1 ->
          D <= dist (1, 1)
                 (along (fst (edge realTriangle i)) (snd (edge realTriangle i)) s))
    /\ exists i t, (i < List.length realTriangle)%nat /\ 0 <= t <= 1
          /\ D = dist (1, 1)
                   (along (fst (edge realTriangle i)) (snd (edge realTriangle i)) t).
Proof. apply (@X7_boundary_distance_least (1, 1) realTriangle). discriminate. Defined.

(** ** [calculatePolygonArea] *)

(** X8 (triangle).  In exact arithmetic the area of a triangle is half
    the absolute value of the cross product of two of its sides. *)
Theorem X8_area_triangle (a b c : R * R) :
  calculatePolygonArea (polygon [a; b; c])
  = Fin (Rabs ((fst b - fst a) * (snd c - snd a)
               - (fst c - fst a) * (snd b - snd a)) / 2).
Proof.
  rewrite area_shoelace, Rabs_half. do 3 f_equal.
  unfold shoelace. simpl. unfold cross. ring.
Qed.

(** X9 (translation).  In exact arithmetic the area does not change when
    every vertex is moved by the same vector. *)
Theorem X9_area_translation (t : R * R) (ps : list (R * R)) :
  calculatePolygonArea (polygon (List.map (translate t) ps))
  = calculatePolygonArea (polygon ps).
Proof. now rewrite !area_shoelace, shoelace_translate. Qed.

(** ** [optimizeCircles] *)

(** X10 (clearance in the plane).  In exact arithmetic, for a polygon that
    is not empty and a pitch that is not zero, [optimizeCircles] returns,
    and every circle it returns has its centre at a point of the plane
    that [isPointInPolygon] accepts and from which every point of every
    edge is at least the radius away. *)
Theorem X10_clearance_in_plane (ps : list (R * R)) (r s : R) :
  ps <> [] -> r * 2 + s <> 0 ->
  (exists fuel res,
      optimizeCircles fuel (polygon ps) (Fin r) (Fin s) = Some res)
  /\ forall fuel res,
       optimizeCircles fuel (polygon ps) (Fin r) (Fin s) = Some res ->
       Forall
         (fun c => exists q,
              center c = point q
              /\ isPointInPolygon (point q) (polygon ps) = true
              /\ forall i t, (i < List.length ps)%nat -> 0 <= t <= 1 ->
                   r <= dist q (along (fst (edge ps i)) (snd (edge ps i)) t))
         res.
Proof.
  intros Hps Hd. split; [now apply search_terminates_polygon|].
  intros fuel res H. unfold optimizeCircles in H.
  pose proof (search_real_centers _ _ Hps Hd H) as Hc.
  pose proof (@search_strict _ _ _ _ _ _ _ _ H) as Hs.
  rewrite Forall_forall in *. intros c Hin.
  destruct (Hc c Hin) as [q Hq]. specialize (Hs c Hin).
  exists q. split; [exact Hq|]. rewrite Hq in Hs.
  unfold strictCheck in Hs. apply andb_prop in Hs. destruct Hs as [Hi Hdist].
  split; [exact Hi|].
  destruct (boundary_least q Hps) as (D & E & Hall & _).
  rewrite E in Hdist. simpl in Hdist.
  destruct (Rle_dec r D) as [HrD|]; [|discriminate].
  intros i t Hi' Ht. eapply Rle_trans; [exact HrD|]. now apply Hall.
Qed.

Lemma X10_clearance_in_plane_witness :
  (exists fuel res,
      optimizeCircles fuel (polygon realTriangle) (Fin 1) (Fin 0) = Some res)
  /\ forall fuel res,
       optimizeCircles fuel (polygon realTriangle) (Fin 1) (Fin 0) = Some res ->
       Forall
         (fun c => exists q,
              center c = point q
              /\ isPointInPolygon (point q) (polygon realTriangle) = true
              /\ forall i t, (i < List.length realTriangle)%nat -> 0 <= t <= 1 ->
                   1 <= dist q (along (fst (edge realTriangle i))
                                  (snd (edge realTriangle i)) t))
         res.
Proof.
  apply (@X10_clearance_in_plane realTriangle 1 0); [discriminate|lra].
Defined.

(** X11 (the best of the lattices tried).  In every number system, when
    [optimizeCircles] returns, each of the configurations it goes through
    (five angles, two offsets either way) was enumerated and has no more
    candidates than the list returned; and the list returned is the
    candidates of one of them, or is empty. *)
Theorem X11_best_of_lattices (num : Type) (JSN : JSNumber num) (fuel : nat)
    (pol : list (Point num)) (radius spacing : num) (res : list (Circle num)) :
  optimizeCircles fuel pol radius spacing = Some res ->
  (forall angle offX offY,
      tried radius spacing angle offX offY ->
      exists cands,
        candidatesOf fuel pol radius spacing angle offX offY = Some cands
        /\ (List.length cands <= List.length res)%nat)
  /\ (res = []
      \/ exists angle offX offY,
           tried radius spacing angle offX offY
           /\ candidatesOf fuel pol radius spacing angle offX offY = Some res).
Proof.
  intros H. unfold optimizeCircles in H. split.
  - intros angle offX offY (HA & HX & HY).
    exact (@search_best _ _ _ _ _ _ _ _ H angle offX offY HA HX HY).
  - destruct (@search_one_lattice _ _ _ _ _ _ _ _ H)
      as [->|(angle & offX & offY & HA & HX & HY & Hl)]; [now left|].
    right. exists angle, offX, offY. split; [now repeat split|exact Hl].
Qed.

Lemma X11_best_of_lattices_witness :
  exists res,
    optimizeCircles 100 square10 1%float 1%float = Some res
    /\ List.length res = 12%nat
    /\ (forall angle offX offY,
           tried 1%float 1%float angle offX offY ->
           exists cands,
             candidatesOf 100 square10 1%float 1%float angle offX offY
             = Some cands
             /\ (List.length cands <= List.length res)%nat)
    /\ (res = []
        \/ exists angle offX offY,
             tried 1%float 1%float angle offX offY
             /\ candidatesOf 100 square10 1%float 1%float angle offX offY
                = Some res).
Proof.
  eexists. split; [vm_compute; reflexivity|]. split; [reflexivity|].
  apply (@X11_best_of_lattices float Binary64.number 100 square10
           1%float 1%float).
  vm_compute. reflexivity.
Defined.

(** X12 (no cell is missed).  In exact arithmetic, for a polygon that is
    not empty, a radius that is not negative and a positive pitch,
    [optimizeCircles] returns, and the list it returns has at least as
    many circles as any of the lattices it goes through has cells,
    anywhere in the plane, that pass the strict check: the counters run
    far enough to meet every cell that lies in the bounding box, and
    the coarse check drops none that the strict check accepts. *)
Theorem X12_no_cell_missed (ps : list (R * R)) (r s : R) :
  ps <> [] -> 0 <= r -> 0 < r * 2 + s ->
  (exists fuel res,
      optimizeCircles fuel (polygon ps) (Fin r) (Fin s) = Some res)
  /\ forall fuel res,
       optimizeCircles fuel (polygon ps) (Fin r) (Fin s) = Some res ->
       forall angle offX offY,
         tried (Fin r) (Fin s) angle offX offY ->
         forall idx : list (Z * Z),
           NoDup idx ->
           (forall rc, In rc idx ->
              strictCheck (polygon ps) (Fin r)
                (rotated (latticeOf (polygon ps) (Fin r) (Fin s) angle offX offY)
                   (lit (fst rc)) (lit (snd rc))) = true) ->
           (List.length idx <= List.length res)%nat.
Proof.
  intros Hps Hr Hd. split; [apply search_terminates_polygon; [exact Hps|lra]|].
  intros fuel res Hres angle offX offY (Hangle & HoffX & HoffY) idx Hnd Hvalid.
  unfold optimizeCircles in Hres. unfold latticeOf in Hvalid.
  set (bounds := getBoundingBox (polygon ps)) in *.
  set (d := add (mul (Fin r) (lit 2)) (Fin s)) in *.
  set (rowHeight := div (mul d (sqrt (lit 3))) (lit 2)) in *.
  change (forall rc, In rc idx ->
            strictCheck (polygon ps) (Fin r)
              (rotated (latticeAt bounds d rowHeight angle offX offY)
                 (Fin (IZR (fst rc))) (Fin (IZR (snd rc)))) = true) in Hvalid.
  destruct (@search_best _ _ _ _ _ _ _ _ Hres angle offX offY Hangle HoffX HoffY)
    as (cands & Hl & Hle).
  fold bounds d rowHeight in Hl.
  eapply Nat.le_trans; [|exact Hle]. clear Hle Hres res.
  destruct (getBoundingBox_polygon Hps) as (a & b & c & d0 & E & Hac & Hbd & Hbox).
  unfold bounds in *. clear bounds. unfold rowHeight, d in *. clear rowHeight d.
  change (add (mul (Fin r) (lit 2)) (Fin s)) with (Fin (r * 2 + s)) in *.
  rewrite rowHeight_Fin in *.
  assert (Ha : exists alpha, angle = Fin alpha).
  { unfold angles in Hangle. simpl in Hangle.
    repeat (destruct Hangle as [<-|Hangle]; [eexists; reflexivity|]).
    contradiction. }
  assert (H3 : 0 < R_sqrt.sqrt 3) by (pose proof sqrt3_ge_1; lra).
  assert (Hx : exists ox, offX = Fin ox /\ 0 <= ox <= (r * 2 + s) / 2).
  { rewrite div_two in HoffX. simpl in HoffX.
    destruct HoffX as [<-|[<-|[]]]; eexists; (split; [reflexivity|lra]). }
  assert (Hy : exists oy, offY = Fin oy
                          /\ 0 <= oy <= (r * 2 + s) * R_sqrt.sqrt 3 / 2 / 2).
  { rewrite div_two in HoffY. simpl in HoffY.
    assert (0 < (r * 2 + s) * R_sqrt.sqrt 3) by (apply Rmult_lt_0_compat; lra).
    destruct HoffY as [<-|[<-|[]]]; eexists; (split; [reflexivity|lra]). }
  destruct Ha as [alpha ->], Hx as (ox & -> & Hox), Hy as (oy & -> & Hoy).
  rewrite E in *. rewrite stepsOf_box in Hl by lra.
  rewrite latticeAt_grid in *.
  set (G := {| g_cos := Rtrigo_def.cos (alpha * (Rtrigo1.PI / 180));
               g_sin := Rtrigo_def.sin (alpha * (Rtrigo1.PI / 180));
               g_d := r * 2 + s; g_h := (r * 2 + s) * R_sqrt.sqrt 3 / 2;
               g_cx := (a + c) / 2; g_cy := (b + d0) / 2;
               g_ox := ox; g_oy := oy |}) in *.
  apply lattice_complete in Hl. destruct Hl as (idx' & Hnd' & -> & Hall).
  unfold circles. rewrite length_map.
  apply NoDup_incl_length; [exact Hnd|].
  intros rc Hrc. specialize (Hvalid rc Hrc).
  destruct rc as [row col]. cbn [fst snd] in Hvalid.
  rewrite rotated_grid in Hvalid.
  assert (Hin : isPointInPolygon (point (cellPoint G (row, col))) (polygon ps) = true).
  { unfold strictCheck in Hvalid. now apply andb_prop in Hvalid. }
  destruct (inside_half_open _ _ Hin) as (a' & b' & c' & d' & E' & HX & HY).
  rewrite E in E'. apply box_inj in E'. destruct E' as (<- & <- & <- & <-).
  assert (Hrange := @cell_in_range G a b c d0 (row, col) Hd).
  cbv zeta in Hrange.
  destruct Hrange as [Hrow Hcol]; try reflexivity; try assumption; try lra.
  { cbn [g_cos g_sin G]. rewrite Rplus_comm. apply sin2_cos2. }
  apply Hall; [exact Hrow|exact Hcol|].
  split; [|exact Hvalid]. cbn [andb]. rewrite <- E.
  now apply inside_in_bounds.
Qed.

Lemma X12_no_cell_missed_witness :
  (exists fuel res,
      optimizeCircles fuel (polygon realTriangle) (Fin 1) (Fin 0) = Some res)
  /\ forall fuel res,
       optimizeCircles fuel (polygon realTriangle) (Fin 1) (Fin 0) = Some res ->
       forall angle offX offY,
         tried (Fin 1) (Fin 0) angle offX offY ->
         forall idx : list (Z * Z),
           NoDup idx ->
           (forall rc, In rc idx ->
              strictCheck (polygon realTriangle) (Fin 1)
                (rotated (latticeOf (polygon realTriangle) (Fin 1) (Fin 0)
                            angle offX offY)
                   (lit (fst rc)) (lit (snd rc))) = true) ->
           (List.length idx <= List.length res)%nat.
Proof.
  apply (@X12_no_cell_missed realTriangle 1 0); [discriminate|lra|lra].
Defined.

(** X13 (identifiers).  In exact arithmetic, for a polygon that is not
    empty and a pitch that is not zero, the circles of a list returned by
    [optimizeCircles] have identifiers that differ from one another: the
    text [angle-row-col] tells the row and the column. *)
Theorem X13_ids_distinct (ps : list (R * R)) (r s : R) :
  ps <> [] -> r * 2 + s <> 0 ->
  (exists fuel res,
      optimizeCircles fuel (polygon ps) (Fin r) (Fin s) = Some res)
  /\ forall fuel res,
       optimizeCircles fuel (polygon ps) (Fin r) (Fin s) = Some res ->
       NoDup (List.map (@circle_id ereal) res).
Proof.
  intros Hps Hd. split; [now apply search_terminates_polygon|].
  intros fuel res. unfold optimizeCircles.
  apply (search_cells (fun l => NoDup (List.map (@circle_id ereal) l)));
    [exact Hps|exact Hd|constructor|].
  intros angle G idx. apply circles_ids.
Qed.

Lemma X13_ids_distinct_witness :
  (exists fuel res,
      optimizeCircles fuel (polygon realTriangle) (Fin 1) (Fin 0) = Some res)
  /\ forall fuel res,
       optimizeCircles fuel (polygon realTriangle) (Fin 1) (Fin 0) = Some res ->
       NoDup (List.map (@circle_id ereal) res).
Proof.
  apply (@X13_ids_distinct realTriangle 1 0); [discriminate|lra].
Defined.

(** X14 (empty polygon).  In double precision, for the empty polygon and
    a positive finite pitch, [optimizeCircles] never returns: the bounding
    box of no vertex has an infinite diagonal, [steps] is [Infinity], and
    the counters start at [-Infinity], which adding one leaves where it
    is. *)
Theorem X14_empty_polygon_diverges (r s : float) :
  ltb (lit 0) (add (mul r (lit 2)) s) = true ->
  ltb (add (mul r (lit 2)) s) Infinity = true ->
  forall fuel, optimizeCircles fuel [] r s = None.
Proof.
  intros H0 Hinf fuel. unfold optimizeCircles.
  apply search_first_None.
  set (d := add (mul r (lit 2)) s) in *.
  assert (E : stepsOf (getBoundingBox []) d = infinity).
  { unfold stepsOf.
    change (sqrt _) with infinity.
    change (div infinity d) with (infinity / d)%float.
    rewrite infinity_div by assumption. reflexivity. }
  rewrite E. now apply lattice_infinite.
Qed.

Lemma X14_empty_polygon_diverges_witness :
  add (mul 17.5%float (lit 2)) 2%float = 37%float
  /\ forall fuel, optimizeCircles fuel [] 17.5%float 2%float = None.
Proof.
  split; [vm_compute; reflexivity|].
  apply (@X14_empty_polygon_diverges 17.5%float 2%float);
    vm_compute; reflexivity.
Defined.



(** X16 (fewer than two vertices).  In every number system no point is
    inside a polygon of no vertex or of one, and every list
    [optimizeCircles] returns for such a polygon is empty. *)
Theorem X16_fewer_than_two_vertices (num : Type) (JSN : JSNumber num)
    (pol : list (Point num)) :
  (List.length pol <= 1)%nat ->
  (forall p, isPointInPolygon p pol = false)
  /\ forall fuel radius spacing res,
       optimizeCircles fuel pol radius spacing = Some res -> res = [].
Proof.
  intros H. split; [intros p; now apply inside_few|].
  intros fuel radius spacing res. now apply search_few.
Qed.

Lemma X16_fewer_than_two_vertices_witness :
  (forall p, isPointInPolygon p [pt 3 4] = false)
  /\ forall fuel radius spacing res,
       optimizeCircles fuel [pt 3 4] radius spacing = Some res -> res = [].
Proof.
  apply (@X16_fewer_than_two_vertices float Binary64.number [pt 3 4]).
  simpl. lia.
Defined.

(** ** The application *)

(** X17 (three points to close).  On every page the application can be
    brought to, in every number system: when the polygon is closed or
    being optimised it has three points or more; every optimisation that
    waits for its timeout was started on three points or more; and when
    the button [Optimize] is there, [handleOptimize] does not return
    early. *)
Theorem X17_closed_on_three_points (num : Type) (JSN : JSNumber num)
    (Json : Type) (JSON_parse : string -> option Json) (truthy : Json -> bool)
    (errorRecipe : Json) (pg : App.Page num Json) :
  App.reachable JSON_parse truthy errorRecipe pg ->
  (App.mode (App.app pg) = CLOSED \/ App.mode (App.app pg) = OPTIMIZING ->
   (3 <= List.length (App.points (App.app pg)))%nat)
  /\ (forall job, In job (App.timeouts pg) -> (3 <= List.length (fst job))%nat)
  /\ (App.optimizeShown (App.app pg) = true ->
      App.handleOptimize (App.app pg)
      = (App.setMode OPTIMIZING (App.app pg),
         Some (App.points (App.app pg), App.radius (App.app pg)))).
Proof.
  intros Hr.
  assert (H12 :
    (App.mode (App.app pg) = CLOSED \/ App.mode (App.app pg) = OPTIMIZING ->
     (3 <= List.length (App.points (App.app pg)))%nat)
    /\ forall job, In job (App.timeouts pg) -> (3 <= List.length (fst job))%nat).
  { pattern pg. revert pg Hr. apply reachable_inv.
    - split; [intros [H|H]; discriminate|intros job []].
    - intros fuel e [[m ps cs dia rc ld] cur ts n] pg' [H1 H2] H.
      cbn [App.app App.timeouts App.mode App.points] in H1, H2.
      destruct e; step_cases H; (split; [|try exact H2]);
        try (intros [HH|HH]; try discriminate; apply H1; auto; fail);
        try exact H1; bool_facts; subst.
      + intros _. lia.
      + intros [HH|HH]; discriminate.
      + intros job Hj. rewrite app_nil_r in Hj. now apply H2.
      + intros _. exact E0.
      + intros job Hj. apply in_app_or in Hj.
        destruct Hj as [Hj|[<-|[]]]; [now apply H2|exact E0].
      + intros job Hj. apply H2. now right. }
  destruct H12 as [H1 H2].
  split; [exact H1|]. split; [exact H2|].
  intros Hs. apply AppMode_eqb_eq in Hs.
  unfold App.handleOptimize.
  replace (List.length (App.points (App.app pg)) <? 3)%nat with false;
    [reflexivity|].
  symmetry. apply Nat.ltb_ge. apply H1. now left.
Qed.

Lemma X17_closed_on_three_points_witness :
  App.mode (App.app (Scenario.after Scenario.drawing)) = CLOSED
  /\ (App.mode (App.app (Scenario.after Scenario.drawing)) = CLOSED
      \/ App.mode (App.app (Scenario.after Scenario.drawing)) = OPTIMIZING ->
      (3 <= List.length (App.points (App.app (Scenario.after Scenario.drawing))))%nat)
  /\ (forall job, In job (App.timeouts (Scenario.after Scenario.drawing)) ->
                  (3 <= List.length (fst job))%nat)
  /\ (App.optimizeShown (App.app (Scenario.after Scenario.drawing)) = true ->
      App.handleOptimize (App.app (Scenario.after Scenario.drawing))
      = (App.setMode OPTIMIZING (App.app (Scenario.after Scenario.drawing)),
         Some (App.points (App.app (Scenario.after Scenario.drawing)),
               App.radius (App.app (Scenario.after Scenario.drawing))))).
Proof.
  split; [vm_compute; reflexivity|].
  apply (@X17_closed_on_three_points float Binary64.number unit
           Scenario.parse Scenario.isTruthy tt (Scenario.after Scenario.drawing)).
  exists 100%nat, Scenario.drawing. vm_compute. reflexivity.
Defined.

(** X18 (no vertex next to the first).  On every page the application
    can be brought to, from the fourth point of the polygon on no point is
    within 20 of the first: a click there closes the polygon and adds
    nothing. *)
Theorem X18_no_vertex_near_start (num : Type) (JSN : JSNumber num)
    (Json : Type) (JSON_parse : string -> option Json) (truthy : Json -> bool)
    (errorRecipe : Json) (pg : App.Page num Json) :
  App.reachable JSON_parse truthy errorRecipe pg ->
  forall i, (3 <= i < List.length (App.points (App.app pg)))%nat ->
    ltb (App.startDistance (vertex (App.points (App.app pg)) i)
           (vertex (App.points (App.app pg)) 0)) (lit 20) = false.
Proof.
  intros Hr. pattern pg. revert pg Hr. apply reachable_inv.
  - intros i Hi. simpl in Hi. lia.
  - intros fuel e [[m ps cs dia rc ld] cur ts n] pg' H1 H.
    cbn [App.app App.points] in H1.
    destruct e; step_cases H; try exact H1; bool_facts; subst;
      try (intros i Hi; simpl in Hi; lia).
    intros i Hi. rewrite length_app in Hi. simpl in Hi.
    assert (H0 : vertex (ps ++ [p]) 0 = vertex ps 0).
    { unfold vertex. apply app_nth1. lia. }
    rewrite H0.
    destruct (Nat.eq_dec i (List.length ps)) as [->|Hne].
    + unfold vertex at 1. rewrite app_nth2, Nat.sub_diag by lia. simpl.
      apply andb_false_iff in E1. destruct E1 as [E1|E1]; [|exact E1].
      apply Nat.ltb_ge in E1. lia.
    + unfold vertex at 1. rewrite app_nth1 by lia. apply H1. lia.
Qed.

Lemma X18_no_vertex_near_start_witness :
  List.length (App.points (App.app (Scenario.after Scenario.drawing))) = 4%nat
  /\ forall i,
       (3 <= i < List.length (App.points (App.app (Scenario.after Scenario.drawing))))%nat ->
       ltb (App.startDistance
              (vertex (App.points (App.app (Scenario.after Scenario.drawing))) i)
              (vertex (App.points (App.app (Scenario.after Scenario.drawing))) 0))
         (lit 20) = false.
Proof.
  split; [vm_compute; reflexivity|].
  apply (@X18_no_vertex_near_start float Binary64.number unit
           Scenario.parse Scenario.isTruthy tt (Scenario.after Scenario.drawing)).
  exists 100%nat, Scenario.drawing. vm_compute. reflexivity.
Defined.

(** X19 (circles and the mode).  On every page the application can be
    brought to, circles are held in the mode [DONE] only. *)
Theorem X19_circles_only_when_done (num : Type) (JSN : JSNumber num)
    (Json : Type) (JSON_parse : string -> option Json) (truthy : Json -> bool)
    (errorRecipe : Json) (pg : App.Page num Json) :
  App.reachable JSON_parse truthy errorRecipe pg ->
  App.mode (App.app pg) <> DONE -> App.circles (App.app pg) = [].
Proof.
  intros Hr. pattern pg. revert pg Hr. apply reachable_inv.
  - reflexivity.
  - intros fuel e [[m ps cs dia rc ld] cur ts n] pg' H1 H.
    cbn [App.app App.mode App.circles] in H1.
    destruct e; step_cases H; try exact H1; bool_facts; subst;
      try reflexivity; try (intros HH; apply H1; discriminate);
      try (intros HH; now contradiction HH).
Qed.

Lemma X19_circles_only_when_done_witness :
  App.mode (App.app (Scenario.after Scenario.drawing)) <> DONE
  /\ App.circles (App.app (Scenario.after Scenario.drawing)) = [].
Proof.
  assert (H : App.mode (App.app (Scenario.after Scenario.drawing)) <> DONE)
    by (vm_compute; discriminate).
  split; [exact H|].
  apply (@X19_circles_only_when_done float Binary64.number unit
           Scenario.parse Scenario.isTruthy tt (Scenario.after Scenario.drawing));
    [|exact H].
  exists 100%nat, Scenario.drawing. vm_compute. reflexivity.
Defined.

(** X20 (one request).  On every page the application can be brought to,
    at most one call of [fetchPelmeniRecipe] has not resolved, and
    [loadingRecipe] tells whether one has not: the button is disabled
    while it is set, and a reset does not touch it. *)
Theorem X20_one_recipe_request (num : Type) (JSN : JSNumber num)
    (Json : Type) (JSON_parse : string -> option Json) (truthy : Json -> bool)
    (errorRecipe : Json) (pg : App.Page num Json) :
  App.reachable JSON_parse truthy errorRecipe pg ->
  App.requests pg = (if App.loadingRecipe (App.app pg) then 1 else 0)%nat.
Proof.
  intros Hr. pattern pg. revert pg Hr. apply reachable_inv.
  - reflexivity.
  - intros fuel e [[m ps cs dia rc ld] cur ts n] pg' H1 H.
    cbn [App.app App.requests App.loadingRecipe] in H1.
    destruct e; step_cases H; try exact H1; bool_facts; subst;
      try reflexivity;
      try (apply orb_false_elim in H0; destruct H0 as [-> _]; reflexivity);
      try (destruct ld; simpl in H1; lia).
Qed.

Lemma X20_one_recipe_request_witness :
  App.loadingRecipe (App.app (Scenario.after Scenario.session)) = true
  /\ App.requests (Scenario.after Scenario.session)
     = (if App.loadingRecipe (App.app (Scenario.after Scenario.session))
        then 1 else 0)%nat.
Proof.
  split; [vm_compute; reflexivity|].
  apply (@X20_one_recipe_request float Binary64.number unit
           Scenario.parse Scenario.isTruthy tt (Scenario.after Scenario.session)).
  exists 100%nat, Scenario.session. vm_compute. reflexivity.
Defined.

(** X21 (a clear does not cancel).  In every number system, from a page
    with a closed polygon and no timeout waiting: when the button
    [Optimize] is pressed and the canvas is cleared before the timeout
    fires, the callback still runs on the polygon it captured.  The page
    is then in the mode [DONE] with no point, the circles of the polygon
    that was cleared, and statistics that are all zero. *)
Theorem X21_clear_does_not_cancel (num : Type) (JSN : JSNumber num)
    (Json : Type) (JSON_parse : string -> option Json) (truthy : Json -> bool)
    (errorRecipe : Json) (fuel : nat) (pg : App.Page num Json)
    (res : list (Circle num)) :
  App.mode (App.app pg) = CLOSED ->
  (3 <= List.length (App.points (App.app pg)))%nat ->
  App.timeouts pg = [] ->
  optimizeCircles fuel (App.points (App.app pg)) (App.radius (App.app pg))
    (lit 2) = Some res ->
  exists pg',
    App.run JSON_parse truthy errorRecipe fuel
      [App.PressOptimize; App.PressClear; App.TimeoutFires] pg = Some pg'
    /\ App.mode (App.app pg') = DONE
    /\ App.points (App.app pg') = []
    /\ App.circles (App.app pg') = res
    /\ App.stats (App.app pg')
       = {| App.area := lit 0; App.pelmeniCount := lit 0;
            App.efficiency := lit 0 |}.
Proof.
  destruct pg as [[m ps cs dia rc ld] cur ts n].
  cbn [App.app App.mode App.points App.timeouts]. intros -> Hlen -> Hres.
  assert (E3 : (List.length ps <? 3)%nat = false) by (apply Nat.ltb_ge; lia).
  assert (E0 : (0 <? List.length ps)%nat = true) by (apply Nat.ltb_lt; lia).
  eexists. split.
  - unfold App.radius in Hres. cbn [App.pelmeniDiameter] in Hres.
    cbv [App.run App.step App.optimizeShown App.clearShown App.handleOptimize
         App.handleClear App.withApp App.setMode App.setPoints App.setCircles
         App.setRecipe App.optimizeCallback App.radius App.app App.mode
         App.points App.timeouts App.cursorPos App.requests App.circles
         App.pelmeniDiameter App.recipe App.loadingRecipe AppMode_eqb negb
         andb fst snd List.app].
    rewrite E3. cbv beta iota. rewrite E0, Hres. reflexivity.
  - repeat split.
Qed.

Lemma X21_clear_does_not_cancel_witness :
  exists res,
    List.length res = 23%nat
    /\ exists pg',
         App.run Scenario.parse Scenario.isTruthy tt 100
           [App.PressOptimize; App.PressClear; App.TimeoutFires]
           (Scenario.after Scenario.drawing) = Some pg'
         /\ App.mode (App.app pg') = DONE
         /\ App.points (App.app pg') = []
         /\ App.circles (App.app pg') = res
         /\ App.stats (App.app pg')
            = {| App.area := lit 0; App.pelmeniCount := lit 0;
                 App.efficiency := lit 0 |}.
Proof.
  eexists. split; [|
    apply (@X21_clear_does_not_cancel float Binary64.number unit
             Scenario.parse Scenario.isTruthy tt 100
             (Scenario.after Scenario.drawing));
    [vm_compute; reflexivity|vm_compute; lia|vm_compute; reflexivity
    |vm_compute; reflexivity]].
  reflexivity.
Defined.

(** X22 (a late change of the diameter).  In every number system, from
    a page with a closed polygon and no timeout waiting: when the diameter
    is changed between the press of [Optimize] and the timeout, the
    callback still packs circles of the radius it captured.  The page is
    then in the mode [DONE], where the slider is disabled, with the new
    diameter and the circles of the old one. *)
Theorem X22_late_diameter_ignored (num : Type) (JSN : JSNumber num)
    (Json : Type) (JSON_parse : string -> option Json) (truthy : Json -> bool)
    (errorRecipe : Json) (fuel : nat) (pg : App.Page num Json) (v : num)
    (res : list (Circle num)) :
  App.mode (App.app pg) = CLOSED ->
  (3 <= List.length (App.points (App.app pg)))%nat ->
  App.timeouts pg = [] ->
  optimizeCircles fuel (App.points (App.app pg)) (App.radius (App.app pg))
    (lit 2) = Some res ->
  exists pg',
    App.run JSON_parse truthy errorRecipe fuel
      [App.PressOptimize; App.Slide v; App.TimeoutFires] pg = Some pg'
    /\ App.mode (App.app pg') = DONE
    /\ App.sliderDisabled (App.app pg') = true
    /\ App.points (App.app pg') = App.points (App.app pg)
    /\ App.pelmeniDiameter (App.app pg') = v
    /\ App.circles (App.app pg') = res
    /\ Forall (fun c => circle_r c = App.radius (App.app pg)) res.
Proof.
  destruct pg as [[m ps cs dia rc ld] cur ts n].
  cbn [App.app App.mode App.points App.timeouts]. intros -> Hlen -> Hres.
  assert (E3 : (List.length ps <? 3)%nat = false) by (apply Nat.ltb_ge; lia).
  assert (Hrad : Forall (fun c => circle_r c = div dia (lit 2)) res).
  { revert Hres. unfold optimizeCircles, App.radius.
    cbn [App.pelmeniDiameter].
    apply search_inv; [constructor|].
    intros angle offX offY cands _ _ _.
    apply lattice_inv; [constructor|].
    intros row col c Hc _ _. apply Forall_app. split; [exact Hc|].
    constructor; [reflexivity|constructor]. }
  eexists. split.
  - unfold App.radius in Hres. cbn [App.pelmeniDiameter] in Hres.
    cbv [App.run App.step App.optimizeShown App.sliderDisabled
         App.handleOptimize App.withApp App.setMode App.setPoints
         App.setCircles App.setPelmeniDiameter App.optimizeCallback
         App.radius App.app App.mode App.points App.timeouts App.cursorPos
         App.requests App.circles App.pelmeniDiameter App.recipe
         App.loadingRecipe AppMode_eqb negb andb fst snd List.app].
    rewrite E3. cbv beta iota. rewrite Hres. reflexivity.
  - repeat split. exact Hrad.
Qed.

Lemma X22_late_diameter_ignored_witness :
  exists res,
    List.length res = 23%nat
    /\ exists pg',
         App.run Scenario.parse Scenario.isTruthy tt 100
           [App.PressOptimize; App.Slide 80%float; App.TimeoutFires]
           (Scenario.after Scenario.drawing) = Some pg'
         /\ App.mode (App.app pg') = DONE
         /\ App.sliderDisabled (App.app pg') = true
         /\ App.points (App.app pg')
            = App.points (App.app (Scenario.after Scenario.drawing))
         /\ App.pelmeniDiameter (App.app pg') = 80%float
         /\ App.circles (App.app pg') = res
         /\ Forall
              (fun c => circle_r c
                        = App.radius (App.app (Scenario.after Scenario.drawing)))
              res.
Proof.
  eexists. split; [|
    apply (@X22_late_diameter_ignored float Binary64.number unit
             Scenario.parse Scenario.isTruthy tt 100
             (Scenario.after Scenario.drawing) 80%float);
    [vm_compute; reflexivity|vm_compute; lia|vm_compute; reflexivity
    |vm_compute; reflexivity]].
  reflexivity.
Defined.

(** X23 (statistics).  In exact arithmetic, whatever the mode, the
    circles and the recipe, the statistics of a polygon with real
    coordinates and a real diameter are finite numbers and none is
    negative: the efficiency is computed only when the area is positive. *)
Theorem X23_stats_finite (Json : Type) (m : AppMode) (ps : list (R * R))
    (cs : list (Circle ereal)) (dia : R) (rc : option Json) (ld : bool) :
  exists a c e,
    App.stats (App.mkState m (Exact.polygon ps) cs (Fin dia) rc ld)
    = {| App.area := Fin a; App.pelmeniCount := Fin c; App.efficiency := Fin e |}
    /\ 0 <= a /\ 0 <= c /\ 0 <= e.
Proof.
  unfold App.stats. cbn [App.points App.circles App.radius App.pelmeniDiameter].
  destruct (List.length (Exact.polygon ps) <? 3)%nat.
  - exists 0, 0, 0. repeat split; lra.
  - rewrite area_shoelace.
    set (a := Rabs (shoelace ps / 2)).
    set (c := IZR (Z.of_nat (List.length cs))).
    assert (Ha : 0 <= a) by apply Rabs_pos.
    assert (Hc : 0 <= c) by (apply IZR_le; lia).
    change (lit 2) with (Fin 2). unfold App.radius. cbn [App.pelmeniDiameter].
    change (lit 2) with (Fin 2). rewrite div_two.
    change PI with (Fin Rtrigo1.PI).
    change (lit (Z.of_nat (List.length cs))) with (Fin c).
    change (mul (Fin ?u) (Fin ?v)) with (Fin (u * v)).
    change (lit 0) with (Fin 0). change (lit 100) with (Fin 100).
    change (ltb (Fin 0) (Fin a)) with (if Rlt_dec 0 a then true else false).
    destruct (Rlt_dec 0 a) as [Hpos|Hz].
    + repeat change (mul (Fin ?u) (Fin ?v)) with (Fin (u * v)).
      rewrite div_Fin by lra.
      change (mul (Fin ?u) (Fin ?v)) with (Fin (u * v)).
      eexists _, _, _. split; [reflexivity|]. repeat split; try assumption.
      pose proof PI_RGT_0.
      apply Rmult_le_pos; [|lra]. apply Rmult_le_pos; [|left; now apply Rinv_0_lt_compat].
      apply Rmult_le_pos; [|exact Hc].
      replace (Rtrigo1.PI * (dia / 2) * (dia / 2))
        with (Rtrigo1.PI * ((dia / 2) * (dia / 2))) by ring.
      apply Rmult_le_pos; [lra|]. apply Rle_0_sqr.
    + eexists _, _, _. split; [reflexivity|]. repeat split; try assumption. lra.
Qed.

(** ** Double precision *)

(** X24 (bounding box, in double precision).  For a polygon none of whose
    coordinates is [NaN], the box of [getBoundingBox] holds every vertex,
    and when the polygon is not empty each of its four bounds is the
    coordinate of a vertex: [Math.min] and [Math.max] do not round. *)
Theorem X24_bounding_box_binary64 (pol : list (Point float)) :
  (forall p, In p pol -> is_nan (x p) = false /\ is_nan (y p) = false) ->
  let bb := getBoundingBox pol in
  (forall p, In p pol ->
     leb (minX bb) (x p) = true /\ leb (x p) (maxX bb) = true
     /\ leb (minY bb) (y p) = true /\ leb (y p) (maxY bb) = true)
  /\ (pol <> [] ->
      In (minX bb) (List.map (@x float) pol)
      /\ In (maxX bb) (List.map (@x float) pol)
      /\ In (minY bb) (List.map (@y float) pol)
      /\ In (maxY bb) (List.map (@y float) pol)).
Proof.
  intros Hnan bb.
  destruct (box_folds pol
              {| minX := infinity; minY := infinity;
                 maxX := neg_infinity; maxY := neg_infinity |})
    as (E1 & E2 & E3 & E4).
  cbn [minX minY maxX maxY] in E1, E2, E3, E4.
  assert (Hx : forall v, In v (List.map (@x float) pol) -> is_nan v = false).
  { intros v Hv. apply in_map_iff in Hv. destruct Hv as (p & <- & Hp).
    now apply Hnan. }
  assert (Hy : forall v, In v (List.map (@y float) pol) -> is_nan v = false).
  { intros v Hv. apply in_map_iff in Hv. destruct Hv as (p & <- & Hp).
    now apply Hnan. }
  destruct (@fold_min_spec _ infinity eq_refl Hx) as (_ & _ & A1 & B1).
  destruct (@fold_min_spec _ infinity eq_refl Hy) as (_ & _ & A2 & B2).
  destruct (@fold_max_spec _ neg_infinity eq_refl Hx) as (_ & _ & A3 & B3).
  destruct (@fold_max_spec _ neg_infinity eq_refl Hy) as (_ & _ & A4 & B4).
  unfold bb, getBoundingBox. clear bb.
  change (neg Infinity) with neg_infinity. change (@Infinity float _) with infinity.
  rewrite E1, E2, E3, E4.
  split.
  - intros p Hp. repeat split.
    + apply A1. now apply in_map.
    + apply A3. now apply in_map.
    + apply A2. now apply in_map.
    + apply A4. now apply in_map.
  - intros Hne.
    assert (Hnx : List.map (@x float) pol <> []) by (destruct pol; [contradiction|discriminate]).
    assert (Hny : List.map (@y float) pol <> []) by (destruct pol; [contradiction|discriminate]).
    repeat split.
    + now apply attained_min.
    + now apply attained_max.
    + now apply attained_min.
    + now apply attained_max.
Qed.

Lemma X24_bounding_box_binary64_witness :
  getBoundingBox dart
  = {| minX := (-10.1)%float; minY := 0.75%float;
       maxX := 3.7%float; maxY := 2.25%float |}
  /\ let bb := getBoundingBox dart in
     (forall p, In p dart ->
        leb (minX bb) (x p) = true /\ leb (x p) (maxX bb) = true
        /\ leb (minY bb) (y p) = true /\ leb (y p) (maxY bb) = true)
     /\ (dart <> [] ->
         In (minX bb) (List.map (@x float) dart)
         /\ In (maxX bb) (List.map (@x float) dart)
         /\ In (minY bb) (List.map (@y float) dart)
         /\ In (maxY bb) (List.map (@y float) dart)).
Proof.
  split; [vm_compute; reflexivity|].
  apply (@X24_bounding_box_binary64 dart).
  intros p Hp. repeat (destruct Hp as [<-|Hp]; [split; reflexivity|]).
  contradiction.
Defined.

(** X25 (area, in double precision).  [calculatePolygonArea] never returns
    a number below zero, whatever the polygon: the result of [Math.abs] is
    [NaN] or has no sign. *)
Theorem X25_area_not_negative_binary64 (pol : list (Point float)) :
  ltb (calculatePolygonArea pol) (lit 0) = false.
Proof. unfold calculatePolygonArea. apply abs_not_negative. Qed.

(** X26 (starting vertex).  In double precision, [optimizeCircles] gives
    the same for a polygon whichever of its vertices the list starts at:
    the same list of circles, identifiers included, or no result with
    the same fuel.  The search reads the polygon through its bounding box,
    the ray casting and the distance to the boundary, and [Math.min] and
    [Math.max] do not depend on the order they are applied in. *)
Theorem X26_starting_vertex (fuel : nat) (l1 l2 : list (Point float))
    (radius spacing : float) :
  optimizeCircles fuel (l2 ++ l1) radius spacing
  = optimizeCircles fuel (l1 ++ l2) radius spacing.
Proof.
  unfold optimizeCircles.
  apply (@search_app float Binary64.number min_exchange max_exchange).
Qed.

(** X27 (distance and starting vertex).  In double precision,
    [distanceToPolygonEdge] is the same number, bit for bit, whichever
    vertex the polygon starts at: the minimum over the edges does not
    depend on the order the edges are visited in. *)
Theorem X27_distance_starting_vertex (p : Point float)
    (l1 l2 : list (Point float)) :
  distanceToPolygonEdge p (l2 ++ l1) = distanceToPolygonEdge p (l1 ++ l2).
Proof.
  apply (@distance_app float Binary64.number min_exchange).
Qed.

(** X28 ([NaN] in the input).  In double precision, when the radius, the
    spacing or a coordinate of a vertex is [NaN], [optimizeCircles]
    returns the empty list at once: [steps] is [NaN], the comparison
    [row <= steps] fails at the first test, and no lattice cell is
    visited. *)
Theorem X28_nan_returns_nothing (fuel : nat) (pol : list (Point float))
    (radius spacing : float) :
  is_nan radius = true \/ is_nan spacing = true
  \/ (exists p, In p pol /\ (is_nan (x p) = true \/ is_nan (y p) = true)) ->
  optimizeCircles (S fuel) pol radius spacing = Some [].
Proof.
  intros H.
  assert (Hsteps : stepsOf (getBoundingBox pol) (add (mul radius (lit 2)) spacing)
                   = nan).
  { destruct H as [H|[H|(p & Hin & H)]].
    - apply nan_unique in H. subst.
      change (mul nan (lit 2)) with (nan * Binary64.of_Z 2)%float.
      rewrite nan_mul.
      change (add nan spacing) with (nan + spacing)%float. rewrite nan_add.
      unfold stepsOf. cbv zeta.
      change (div ?a nan) with (a / nan)%float. now rewrite div_nan.
    - apply nan_unique in H. subst.
      change (add ?a nan) with (a + nan)%float. rewrite add_nan.
      unfold stepsOf. cbv zeta.
      change (div ?a nan) with (a / nan)%float. now rewrite div_nan.
    - exact (@steps_nan pol p _ Hin H). }
  unfold optimizeCircles, search, sweep. cbv zeta.
  unfold angles. cbn [forOf]. unfold tryLattice. rewrite !Hsteps.
  reflexivity.
Qed.

Lemma X28_nan_returns_nothing_witness :
  is_nan nan = true /\ optimizeCircles 1 square10 nan 2%float = Some [].
Proof.
  split; [reflexivity|].
  apply (@X28_nan_returns_nothing 0 square10 nan 2%float).
  left. reflexivity.
Defined.

End Further.
